(** * SAR text recogniser (doctr/models/recognition/sar/tensorflow.py)

    A shallow embedding of the decoding core of the SAR model: the attention
    module, the decoder driver (unrolled greedy loop and beam search), the
    masked sequence loss, the post-processor and the model wrappers.

    Conventions.
    - Floating-point tensors are nested lists of rationals ([Q]); the
      transcendental functions ([exp], [tanh], [ln]) and the Keras LSTM stack
      are parameters of the definitions that use them.
    - Python exceptions are the [Raise] case of [result]; [None]/absent
      keyword arguments are [option]s or missing keys of a [gmap].
    - Integer tensors hold [Z]; text is [string], one [ascii] per character
      of the vocabulary. *)

From Stdlib Require Import ZArith QArith Qfield Lia List Sorted Bool Ascii String.
From stdpp Require Import base option list gmap strings.

#[local] Set Warnings "-register-all".
Local Open Scope Z_scope.
Local Open Scope list_scope.

(* ===================================================================== *)
(** * Part I: definitions                                                 *)
(* ===================================================================== *)

(** ** Exceptions and results *)

Inductive exn : Type :=
| NameError (name : string)
| ValueError (msg : string)
| InvalidArgumentError (msg : string)
| ConfigurationError (msg : string).

Inductive result (A : Type) : Type :=
| Ok (a : A)
| Raise (e : exn).
Arguments Ok {A} a.
Arguments Raise {A} e.

Definition rbind {A B} (m : result A) (k : A → result B) : result B :=
  match m with
  | Ok a => k a
  | Raise e => Raise e
  end.

(** ** Tensors

    [tens r] is a tensor of rank [r] over the rationals, outermost axis
    first. An empty list stands for every tensor without entries: the
    sizes of its further axes are not recorded. *)

Fixpoint tens (r : nat) : Type :=
  match r with
  | O => Q
  | S r' => list (tens r')
  end.

(** Insert a unit axis at position [a] (counted from the outside). *)
Fixpoint expand_at (r a : nat) : tens r → tens (S r) :=
  match a, r return tens r → tens (S r) with
  | O, _ => fun t => [t]
  | S _, O => fun t => [t]
  | S a', S r' => fun t => List.map (expand_at r' a') t
  end.

(** [tf.expand_dims(t, axis)]: a negative axis counts from the end of the
    result's shape; an axis outside [-(r+1), r] is an error. *)
Definition expand_dims (r : nat) (t : tens r) (axis : Z) : option (tens (S r)) :=
  if (0 <=? axis) && (axis <=? Z.of_nat r) then
    Some (expand_at r (Z.to_nat axis) t)
  else if (- (Z.of_nat r + 1) <=? axis) && (axis <? 0) then
    Some (expand_at r (Z.to_nat (axis + Z.of_nat r + 1)) t)
  else None.

Definition Qsum (l : list Q) : Q := fold_right Qplus 0%Q l.

Definition dot (x y : list Q) : Q := Qsum (zip_with Qmult x y).

(** [tf.one_hot(i, depth)]: 1.0 at position [i], 0.0 elsewhere; an index
    outside [0, depth) gives the all-zero vector. *)
Definition one_hot (depth : nat) (i : Z) : list Q :=
  List.map (fun j => if Z.of_nat j =? i then 1%Q else 0%Q) (seq 0 depth).

(** [tf.argmax] along a vector: the smallest index of a maximal entry. *)
Fixpoint argmax_from (best : Q) (besti i : nat) (l : list Q) : nat :=
  match l with
  | [] => besti
  | x :: l' =>
      if Qle_bool x best then argmax_from best besti (S i) l'
      else argmax_from x i (S i) l'
  end.

Definition argmax (l : list Q) : Z :=
  match l with
  | [] => 0
  | x :: l' => Z.of_nat (argmax_from x 0 1 l')
  end.

(** ** Keras layers used by the model *)

(** [layers.Dense(units, use_bias)]: [x · kernel (+ bias)]; the kernel has
    one row per input feature and one column per unit. *)
Record Dense : Type := mkDense {
  units : nat;
  kernel : list (list Q);
  bias : option (list Q)
}.

Definition column (j : nat) (m : list (list Q)) : list Q :=
  List.map (fun row => nth j row 0%Q) m.

Definition dense_call (L : Dense) (x : list Q) : list Q :=
  List.map (fun j =>
         match bias L with
         | Some b => (dot x (column j (kernel L)) + nth j b 0%Q)%Q
         | None => dot x (column j (kernel L))
         end) (seq 0 (units L)).

(** [layers.Conv2D(filters, kernel_size, strides=1, padding="same")] on one
    sample of shape (H, W, C). The kernel is indexed
    [row offset][column offset][input channel][filter]. *)
Record Conv2D : Type := mkConv2D {
  filters : nat;
  kernel_size : nat;
  conv_kernel : list (list (list (list Q)));
  conv_bias : option (list Q)
}.

Definition height (f : tens 3) : nat := length f.
Definition width (f : tens 3) : nat := length (hd [] f).
Definition channels (f : tens 3) : nat := length (hd [] (hd [] f)).

(** The pixel at row [h], column [w]; outside the map the zero padding. *)
Definition pixel (f : tens 3) (h w : Z) : list Q :=
  if (0 <=? h) && (h <? Z.of_nat (height f)) &&
     (0 <=? w) && (w <? Z.of_nat (width f))
  then nth (Z.to_nat w) (nth (Z.to_nat h) f []) []
  else repeat 0%Q (channels f).

Definition conv_at (L : Conv2D) (f : tens 3) (h w : nat) : list Q :=
  let pad := Z.of_nat ((kernel_size L - 1) / 2) in
  List.map (fun a =>
    let acc :=
      Qsum (List.map (fun i =>
        Qsum (List.map (fun j =>
          dot (pixel f (Z.of_nat h + Z.of_nat i - pad) (Z.of_nat w + Z.of_nat j - pad))
              (column a (nth j (nth i (conv_kernel L) []) [])))
          (seq 0 (kernel_size L))))
        (seq 0 (kernel_size L))) in
    match conv_bias L with
    | Some b => (acc + nth a b 0%Q)%Q
    | None => acc
    end) (seq 0 (filters L)).

Definition conv2d_call (L : Conv2D) (f : tens 3) : tens 3 :=
  List.map (fun h => List.map (fun w => conv_at L f h w) (seq 0 (width f)))
      (seq 0 (height f)).

(** Broadcasting along the two spatial axes: an axis of length 1 is
    repeated. *)
Definition bget {A} (l : list A) (i : nat) (d : A) : A :=
  if (length l =? 1)%nat then nth 0 l d else nth i l d.

Definition broadcast_add (a b : tens 3) : tens 3 :=
  List.map (fun h =>
    let ra := bget a h [] in
    let rb := bget b h [] in
    List.map (fun w => zip_with Qplus (bget ra w []) (bget rb w []))
        (seq 0 (Nat.max (length ra) (length rb))))
    (seq 0 (Nat.max (length a) (length b))).

Definition flatten3 (t : tens 3) : list Q := concat (concat t).

(** [tf.reshape] of a flat vector to shape (H, W, 1). *)
Definition reshape_hw1 (H W : nat) (l : list Q) : tens 3 :=
  List.map (fun h => List.map (fun w => [nth (h * W + w) l 0%Q]) (seq 0 W)) (seq 0 H).

(** Elementwise product of (H, W, D) with (H, W, 1), the second broadcast
    over the channels. *)
Definition multiply_map (f a : tens 3) : tens 3 :=
  zip_with (fun rf ra =>
    zip_with (fun px w => List.map (fun x => (x * nth 0 w 0)%Q) px) rf ra) f a.

(** [tf.reduce_sum(g, axis=[-3, -2])] on one sample with [D] channels. *)
Definition reduce_sum_hw (D : nat) (g : tens 3) : list Q :=
  List.map (fun d =>
    Qsum (List.map (fun row => Qsum (List.map (fun px => nth d px 0%Q) row)) g))
    (seq 0 D).

Definition qmax (a b : Q) : Q := if Qle_bool a b then b else a.

(** The greatest entry of a vector. *)
Definition maximum (l : list Q) : Q := fold_right qmax (hd 0%Q l) l.

Section Attention.
Variables exp tanh : Q → Q.

(** [tf.nn.softmax] along a vector, as the framework computes it: the
    entries are shifted by the greatest of them before [exp] is taken. *)
Definition softmax (l : list Q) : list Q :=
  let shifted := List.map (fun x => exp (x - maximum l)%Q) l in
  List.map (fun e => (e / Qsum shifted)%Q) shifted.

(** ** AttentionModule *)
Record AttentionModule : Type := mkAttention {
  hidden_state_projector : Conv2D;
  features_projector : Conv2D;
  attention_projector : Conv2D
}.

(** [AttentionModule.__init__(attention_units)]; the kernels are the
    trained weights. *)
Definition AttentionModule_init (attention_units : nat)
    (Wh Wf Wa : list (list (list (list Q)))) (bf : list Q) : AttentionModule :=
  {| hidden_state_projector := mkConv2D attention_units 1 Wh None;
     features_projector := mkConv2D attention_units 3 Wf (Some bf);
     attention_projector := mkConv2D 1 1 Wa None |}.

(** The scalar score of every location, shape (H, W, 1). *)
Definition attention_scores (M : AttentionModule)
    (features hidden_state : tens 3) : tens 3 :=
  let hidden_state_projection := conv2d_call (hidden_state_projector M) hidden_state in
  let features_projection := conv2d_call (features_projector M) features in
  let projection :=
    List.map (List.map (List.map tanh))
        (broadcast_add hidden_state_projection features_projection) in
  conv2d_call (attention_projector M) projection.

(** The attention distribution over the H * W locations. *)
Definition attention_weights (M : AttentionModule)
    (features hidden_state : tens 3) : list Q :=
  softmax (flatten3 (attention_scores M features hidden_state)).

(** [AttentionModule.call] on one sample: features (H, W, D), hidden state
    (1, 1, rnn_units); the glimpse has [D] entries. *)
Definition attention_sample (M : AttentionModule)
    (features hidden_state : tens 3) : list Q :=
  let attention := attention_weights M features hidden_state in
  let attention_map := reshape_hw1 (height features) (width features) attention in
  let glimpse := multiply_map features attention_map in
  reduce_sum_hw (channels features) glimpse.

(** [AttentionModule.call] on a batch: features (N, H, W, D), hidden state
    (N, 1, 1, rnn_units). *)
Definition AttentionModule_call (M : AttentionModule)
    (features hidden_state : tens 4) : tens 2 :=
  zip_with (attention_sample M) features hidden_state.
End Attention.

(** The mean feature vector of one sample. *)
Definition mean_feature (f : tens 3) : list Q :=
  List.map (fun s => (s / inject_Z (Z.of_nat (height f * width f)))%Q)
      (reduce_sum_hw (channels f) f).

Definition zero_features (H W D : nat) : tens 3 :=
  repeat (repeat (repeat 0%Q D) W) H.

(** ** Python values and keyword arguments *)

(** Integer tensors of rank [r]. *)
Fixpoint itens (r : nat) : Type :=
  match r with
  | O => Z
  | S r' => list (itens r')
  end.

Inductive pyval : Type :=
| PyNone
| PyBool (b : bool)
| PyInt (z : Z)
| PyStr (s : string)
| PyList (l : list pyval)
| PyTuple (a b : pyval)
| PyDict (d : gmap string pyval)
| PyTensor (r : nat) (t : tens r)
| PyIntTensor (r : nat) (t : itens r)
| PyGlobal (name : string).

(** Python truth value ([if v:], [v or w]). *)
Definition truthy (v : pyval) : bool :=
  match v with
  | PyNone => false
  | PyBool b => b
  | PyInt z => negb (z =? 0)
  | PyStr s => negb (Nat.eqb (String.length s) 0)
  | PyList l => negb (Nat.eqb (length l) 0)
  | PyDict d => negb (Nat.eqb (size d) 0)
  | _ => true
  end.

(** [a or b]. *)
Definition py_or (a b : pyval) : pyval := if truthy a then a else b.

(** [v is None]. *)
Definition is_none (v : pyval) : bool :=
  match v with
  | PyNone => true
  | _ => false
  end.

(** [kwargs.get(key)]: the value, or [None] when the key is absent. *)
Definition kwargs_get (kwargs : gmap string pyval) (key : string) : pyval :=
  default PyNone (kwargs !! key).

(** ** SARDecoder *)

Section Decoder.
(** The state of the stacked LSTM cells for one sample, and one step of
    [layers.StackedRNNCells] on one sample (Keras code, taken as given;
    it receives the keyword arguments of the call). *)
Variable St : Type.
Variable lstm_cell : gmap string pyval → list Q → St → list Q * St.
Variable zero_state : St.
Variables exp tanh ln : Q → Q.

Record SARDecoder : Type := mkSARDecoder {
  vocab_size : nat;
  max_length : nat;
  embed : Dense;
  attention_module : AttentionModule;
  output_dense : Dense
}.

(** The trained kernels of a decoder. *)
Record DecoderWeights : Type := mkDecoderWeights {
  w_embed : list (list Q);
  w_hidden : list (list (list (list Q)));
  w_features : list (list (list (list Q)));
  b_features : list Q;
  w_attention : list (list (list (list Q)));
  w_output : list (list Q);
  b_output : list Q
}.

(** [SARDecoder.__init__]. *)
Definition SARDecoder_init (rnn_units max_length vocab_size attention_units : nat)
    (w : DecoderWeights) : SARDecoder :=
  {| vocab_size := vocab_size;
     embed := mkDense rnn_units (w_embed w) None;
     attention_module :=
       AttentionModule_init attention_units (w_hidden w) (w_features w)
         (w_attention w) (b_features w);
     output_dense := mkDense (vocab_size + 1) (w_output w) (Some (b_output w));
     max_length := max_length |}.

(** [lstm_decoder(inputs, states, **kwargs)] on a batch: the cells act on
    every sample independently. *)
Definition lstm_decoder (kwargs : gmap string pyval)
    (inputs : tens 2) (states : list St) : tens 2 * list St :=
  let r := zip_with (lstm_cell kwargs) inputs states in
  (List.map fst r, List.map snd r).

(** [SARDecoder.embed_token]. *)
Definition embed_token (self : SARDecoder) (token : list Z) : tens 2 :=
  List.map (dense_call (embed self))
      (List.map (one_hot (vocab_size self + 1)) token).

Definition expand_twice (t : tens 2) (axis : Z) : result (tens 4) :=
  match expand_dims 2 t axis with
  | Some t1 =>
      match expand_dims 3 t1 axis with
      | Some t2 => Ok t2
      | None => Raise (InvalidArgumentError "expand_dims")
      end
  | None => Raise (InvalidArgumentError "expand_dims")
  end.

(** The body of one iteration of the loop of [greedy_decode], up to the
    projection to vocab_size + 1 logits. Dense and Conv2D layers have no
    behaviour that depends on the keyword arguments. *)
Definition greedy_step (self : SARDecoder) (kwargs : gmap string pyval)
    (symbol : list Z) (states : list St) (features : tens 4)
    : result (tens 2 * list St) :=
  let embeded_symbol :=
    List.map (dense_call (embed self))
        (List.map (one_hot (vocab_size self + 1)) symbol) in
  let '(logits, states) := lstm_decoder kwargs embeded_symbol states in
  rbind (expand_twice logits 1) (fun hidden =>
  let glimpse := AttentionModule_call exp tanh (attention_module self) features hidden in
  let logits := zip_with (@app Q) logits glimpse in
  let logits := List.map (dense_call (output_dense self)) logits in
  Ok (logits, states)).

(** [gt[:, t]] on a tensor [gt]: a column that a row does not have is an
    error. *)
Definition gt_column (gt : list (list Z)) (t : nat) : result (list Z) :=
  fold_right (fun row acc =>
    match nth_error row t with
    | Some x => rbind acc (fun l => Ok (x :: l))
    | None => Raise (InvalidArgumentError "slice index out of bounds")
    end) (Ok []) gt.

(** [tf.stack(logits_list, axis=1)]: (T, N, C) to (N, T, C). *)
Definition stack_axis1 (logits_list : list (tens 2)) : tens 3 :=
  List.map (fun n => List.map (fun m => nth n m []) logits_list)
      (seq 0 (length (hd [] logits_list))).

(** The symbol the cells of the next step are run on under teacher
    forcing: the column [gt[:, t]] when it has one row per sample; a
    column of a single row is broadcast over the batch by the cells; one
    of any other number of rows they refuse. *)
Definition teacher_symbol (column : list Z) (batch : nat) : result (list Z) :=
  if (length column =? batch)%nat then Ok column
  else if (length column =? 1)%nat then Ok (repeat (hd 0 column) batch)
  else Raise (InvalidArgumentError "Incompatible shapes").

(** The update of [symbol] at the end of step [t]; [more] tells whether a
    further step runs on it (the symbol assigned in the last step is not
    used). *)
Definition next_symbol (gt : option (list (list Z))) (t : nat) (more : bool)
    (logits : tens 2) : result (list Z) :=
  match gt with
  | Some gt =>
      rbind (gt_column gt t) (fun column =>
      if more then teacher_symbol column (length logits) else Ok column)
  | None => Ok (List.map argmax logits)
  end.

Fixpoint greedy_loop (self : SARDecoder) (kwargs : gmap string pyval)
    (features : tens 4) (gt : option (list (list Z)))
    (ts : list nat) (symbol : list Z) (states : list St)
    (logits_list : list (tens 2)) : result (list (tens 2)) :=
  match ts with
  | [] => Ok logits_list
  | t :: ts' =>
      rbind (greedy_step self kwargs symbol states features) (fun '(logits, states) =>
      rbind (next_symbol gt t (match ts' with [] => false | _ :: _ => true end) logits)
        (fun symbol =>
      greedy_loop self kwargs features gt ts' symbol states (logits_list ++ [logits])))
  end.

(** [SARDecoder.greedy_decode]. *)
Definition greedy_decode (self : SARDecoder) (symbol : list Z) (states : list St)
    (features : tens 4) (gt : option (list (list Z)))
    (kwargs : gmap string pyval) : result (list (list Z) * tens 3) :=
  rbind (greedy_loop self kwargs features gt (seq 0 (max_length self + 1))
           symbol states []) (fun logits_list =>
  let scores := stack_axis1 logits_list in
  let ids := List.map (List.map argmax) scores in
  Ok (ids, scores)).

(** The cache handed to the beam search. *)
Record Cache : Type := mkCache {
  hidden_states : list St;
  cache_features : tens 4
}.

(** The function returned by [SARDecoder.get_symbols_to_logits_fn]:
    [ids] holds the partial sequences, [ids[:, -1]] their last tokens. *)
Definition symbols_to_logits_fn (self : SARDecoder)
    (ids : list (list Z)) (i : nat) (cache : Cache) : result (tens 2 * Cache) :=
  let embeded_symbol := embed_token self (List.map (fun s => List.last s 0) ids) in
  let '(output, states) := lstm_decoder ∅ embeded_symbol (hidden_states cache) in
  let cache := mkCache states (cache_features cache) in
  rbind (expand_twice output (-2)) (fun hidden =>
  let glimpse :=
    AttentionModule_call exp tanh (attention_module self) (cache_features cache) hidden in
  let logits := zip_with (@app Q) output glimpse in
  let logits := List.map (dense_call (output_dense self)) logits in
  Ok (logits, cache)).
End Decoder.

(** ** Beam search *)

Section BeamSearch.
Variable St : Type.
Variables exp ln : Q → Q.

(** Modelled from the spec: the beam search itself
    ([official.nlp.modeling.ops.beam_search]) is not part of the sources;
    this section follows the description of the beam-search path in the
    spec. One hypothesis of the beam of one sample: the token ids (start
    token first), the cumulative log-probability, the recurrent state and
    feature map it decodes from, and whether it has emitted EOS. *)
Record BeamHypothesis : Type := mkBeamHypothesis {
  h_ids : list Z;
  h_log_prob : Q;
  h_state : St;
  h_features : tens 3;
  h_finished : bool
}.

Definition log_softmax (l : list Q) : list Q :=
  List.map (fun x => (x - ln (Qsum (List.map exp l)))%Q) l.

(** Modelled from the spec: the score hypotheses are ranked by, the
    cumulative log-probability normalised by the length raised to the
    length-normalization exponent [alpha] (no penalty for [alpha = 0]). *)
Definition ranking_score (alpha : Z) (h : BeamHypothesis) : Q :=
  (h_log_prob h / Qpower (inject_Z (Z.of_nat (length (h_ids h)))) alpha)%Q.

(** Modelled from the spec: every continuation of a live hypothesis by one
    of the [vocab_size] tokens, scored by adding the token's log-probability;
    the continuation by [eos_id] is terminated. *)
Definition expand_hypothesis (vocab_size : nat) (eos_id : Z) (h : BeamHypothesis)
    (log_probs : list Q) (state : St) : list BeamHypothesis :=
  List.map (fun tok =>
    {| h_ids := h_ids h ++ [Z.of_nat tok];
       h_log_prob := (h_log_prob h + nth tok log_probs 0)%Q;
       h_state := state;
       h_features := h_features h;
       h_finished := Z.of_nat tok =? eos_id |}) (seq 0 vocab_size).

(** Modelled from the spec: the candidates of one step, in the order of
    the beam; a terminated hypothesis is kept as it is and not expanded,
    the [j]-th live one is expanded. *)
Fixpoint expand_beam (vocab_size : nat) (eos_id : Z) (log_probs : tens 2)
    (states : list St) (j : nat) (beam : list BeamHypothesis) : list BeamHypothesis :=
  match beam with
  | [] => []
  | h :: beam' =>
      if h_finished h then
        h :: expand_beam vocab_size eos_id log_probs states j beam'
      else
        expand_hypothesis vocab_size eos_id h (nth j log_probs [])
          (nth j states (h_state h))
        ++ expand_beam vocab_size eos_id log_probs states (S j) beam'
  end.

(** Modelled from the spec: stable insertion in decreasing order of score;
    among equal scores the hypothesis generated earlier stays first. *)
Fixpoint insert_by_score (alpha : Z) (h : BeamHypothesis) (l : list BeamHypothesis)
    : list BeamHypothesis :=
  match l with
  | [] => [h]
  | x :: l' =>
      if Qle_bool (ranking_score alpha x) (ranking_score alpha h)
      then h :: x :: l'
      else x :: insert_by_score alpha h l'
  end.

Definition sort_by_score (alpha : Z) (l : list BeamHypothesis) : list BeamHypothesis :=
  fold_right (insert_by_score alpha) [] l.

Definition top_k (alpha : Z) (k : nat) (l : list BeamHypothesis) : list BeamHypothesis :=
  firstn k (sort_by_score alpha l).

Section Search.
Variable symbols_to_logits_fn :
  list (list Z) → nat → Cache St → result (tens 2 * Cache St).
Variables (vocab_size : nat) (beam_size : nat) (alpha : Z) (eos_id : Z).

(** Modelled from the spec: one search step for one sample, scoring the
    live hypotheses with the log-softmax of the logits and keeping the top
    [beam_size] candidates. *)
Definition beam_step (i : nat) (beam : list BeamHypothesis) : result (list BeamHypothesis) :=
  let live := List.filter (fun h => negb (h_finished h)) beam in
  rbind (symbols_to_logits_fn (List.map h_ids live) i
           (mkCache St (List.map h_state live) (List.map h_features live)))
    (fun '(logits, cache) =>
  let log_probs := List.map log_softmax logits in
  let candidates :=
    expand_beam vocab_size eos_id log_probs (hidden_states St cache) 0 beam in
  Ok (top_k alpha beam_size candidates)).

(** Modelled from the spec: the steps [steps] in turn, stopping as soon
    as every hypothesis of the beam has terminated. *)
Fixpoint beam_loop (steps : list nat) (beam : list BeamHypothesis)
    : result (list BeamHypothesis) :=
  match steps with
  | [] => Ok beam
  | i :: steps' =>
      if forallb h_finished beam then Ok beam
      else rbind (beam_step i beam) (beam_loop steps')
  end.

(** Modelled from the spec: the search of one sample, from [beam_size]
    hypotheses initialised from the start token with cumulative
    log-probability zero. *)
Definition search_sample (max_decode_length : nat) (start : Z) (state : St)
    (features : tens 3) : result (list BeamHypothesis) :=
  beam_loop (seq 0 max_decode_length)
    (repeat (mkBeamHypothesis [start] 0%Q state features false) beam_size).
End Search.

Fixpoint collect {A} (l : list (result A)) : result (list A) :=
  match l with
  | [] => Ok []
  | r :: l' => rbind r (fun a => rbind (collect l') (fun t => Ok (a :: t)))
  end.

Definition pad_to (n : nat) (ids : list Z) : list Z :=
  ids ++ repeat 0 (n - length ids).

Definition max_len (beams : list (list BeamHypothesis)) : nat :=
  fold_right Nat.max 0%nat
    (List.map (fun h => length (h_ids h)) (concat beams)).

(** Modelled from the spec: [beam_search.sequence_beam_search] is imported
    from [official.nlp.modeling.ops] and is not part of the sources. Per
    sample it maintains [beam_size] hypotheses initialised from the start
    token with cumulative log-probability zero; each step scores the
    [vocab_size] next tokens of every live hypothesis with the log-softmax
    of the logits, adds them to the cumulative log-probability, keeps the
    top [beam_size] candidates by score (ties to the earlier one), marks a
    hypothesis terminated when it emits [eos_id], no longer expands it and
    keeps it as a candidate. It runs [max_decode_length] steps or until all
    hypotheses of the sample have terminated. A beam size below 1 is
    refused. The result holds the ids (start token included, shorter
    sequences filled with 0 to a common length) and the cumulative
    log-probabilities, best first. *)
Definition sequence_beam_search
    (symbols_to_logits_fn : list (list Z) → nat → Cache St → result (tens 2 * Cache St))
    (initial_ids : list Z) (initial_cache : Cache St)
    (vocab_size : nat) (beam_size : Z) (alpha : Z) (max_decode_length : nat)
    (eos_id : Z) (padded_decode : bool) (dtype : string)
    : result (list (list (list Z)) * tens 2) :=
  if beam_size <? 1 then Raise (InvalidArgumentError "beam_size")
  else
    rbind (collect
      (zip_with (fun start '(state, features) =>
           search_sample symbols_to_logits_fn vocab_size (Z.to_nat beam_size)
             alpha eos_id max_decode_length start state features)
         initial_ids
         (combine (hidden_states St initial_cache)
            (cache_features St initial_cache))))
      (fun beams =>
    let n := max_len beams in
    Ok (List.map (List.map (fun h => pad_to n (h_ids h))) beams,
        List.map (List.map h_log_prob) beams)).
End BeamSearch.

(** ** The decoder driver *)

Inductive decoded : Type :=
| GreedyOut (ids : list (list Z)) (scores : tens 3)
| BeamOut (ids : list (list (list Z))) (scores : tens 2).

(** The condition of [SARDecoder.call] under which the unrolled
    greedy/teacher-forced loop runs:
    [kwargs.get("training") or beam_width is None]. *)
Definition uses_greedy (kwargs : gmap string pyval) (beam_width : option Z) : bool :=
  truthy (py_or (kwargs_get kwargs "training")
                (PyBool (match beam_width with None => true | Some _ => false end))).

Section Driver.
Variable St : Type.
Variable lstm_cell : gmap string pyval → list Q → St → list Q * St.
Variable zero_state : St.
Variables exp tanh ln : Q → Q.

(** [SARDecoder.beam_decode]. *)
Definition beam_decode (self : SARDecoder) (symbol : list Z) (states : list St)
    (features : tens 4) (beam_width : Z) (kwargs : gmap string pyval)
    : result (list (list (list Z)) * tens 2) :=
  let cache := mkCache St states features in
  rbind (sequence_beam_search St exp ln
           (symbols_to_logits_fn St lstm_cell exp tanh self)
           symbol cache (vocab_size self + 1) beam_width 0
           (max_length self + 1) (Z.of_nat (vocab_size self)) false "float32")
    (fun '(sequences_ids, sequences_log_probs) =>
  let sequences_ids := List.map (List.map (drop 1)) sequences_ids in
  Ok (sequences_ids, sequences_log_probs)).

(** [SARDecoder.call]. *)
Definition SARDecoder_call (self : SARDecoder) (features : tens 4)
    (holistic : tens 2) (gt : option (list (list Z))) (beam_width : option Z)
    (kwargs : gmap string pyval) : result decoded :=
  let states := repeat zero_state (length features) in
  let '(_, states) := lstm_decoder St lstm_cell kwargs holistic states in
  let symbol := repeat (Z.of_nat (vocab_size self + 1)) (length features) in
  if uses_greedy kwargs beam_width then
    rbind (greedy_decode St lstm_cell exp tanh self symbol states features gt kwargs)
      (fun '(ids, scores) => Ok (GreedyOut ids scores))
  else
    rbind (beam_decode self symbol states features (default 0 beam_width) kwargs)
      (fun '(ids, scores) => Ok (BeamOut ids scores)).
End Driver.

(** ** SAR.compute_loss *)

(** 32-bit signed wrap-around of [tf.int32] arithmetic. *)
Definition int32 (z : Z) : Z := (z + 2 ^ 31) mod 2 ^ 32 - 2 ^ 31.

(** A tensor of any rank, as [compute_loss] receives it. *)
Record AnyTensor : Type := mkAnyTensor {
  rank : nat;
  values : tens rank
}.

(** Row vector times matrix. *)
Definition vecmat (v : list Q) (m : list (list Q)) : list Q :=
  List.map (fun j => dot v (column j m)) (seq 0 (length (hd [] m))).

Definition same_shape2 {A B} (a : list (list A)) (b : list (list B)) : bool :=
  Nat.eqb (length a) (length b) &&
  forallb (fun '(ra, rb) => Nat.eqb (length ra) (length rb)) (combine a b).

(** [tf.sequence_mask(lengths, maxlen)]: entry [t] of row [n] is
    [t < lengths[n]]. *)
Definition mask_row (len : Z) (maxlen : nat) : list bool :=
  List.map (fun t => Z.of_nat t <? len) (seq 0 maxlen).

Definition sequence_mask (lengths : list Z) (maxlen : nat) : list (list bool) :=
  List.map (fun len => mask_row len maxlen) lengths.

(** [tf.where(mask, x, y)] on vectors and on matrices of one shape. *)
Definition where1 (mask : list bool) (x y : list Q) : list Q :=
  zip_with (fun (m : bool) '(a, b) => if m then a else b) mask (combine x y).

Definition where2 (mask : list (list bool)) (x y : tens 2) : tens 2 :=
  zip_with (fun mrow '(xrow, yrow) => where1 mrow xrow yrow) mask (combine x y).

(** Broadcasting of one axis against another: the sizes agree, or one of
    them is 1; [None] when the axes are incompatible. *)
Definition bcast_dim (a b : nat) : option nat :=
  if (a =? b)%nat then Some a
  else if (a =? 1)%nat then Some b
  else if (b =? 1)%nat then Some a
  else None.

(** An axis of size [from] broadcast to size [to]: unchanged when the sizes
    agree, its single entry repeated otherwise. *)
Definition bcast_axis {A} (from to : nat) (l : list A) : list A :=
  if (from =? to)%nat then l
  else match l with
       | x :: _ => repeat x to
       | [] => []
       end.

(** [tf.reshape] of a vector to the two leading axes of [shape]. *)
Fixpoint reshape_like {A B} (shape : list (list A)) (l : list B) : list (list B) :=
  match shape with
  | [] => []
  | row :: shape' =>
      firstn (length row) l :: reshape_like shape' (skipn (length row) l)
  end.

Section Loss.
(** The per-timestep cross-entropy of the framework, from one label
    distribution and one vector of logits (resp. probabilities). *)
Variable softmax_cross_entropy_with_logits : list Q → list Q → Q.
Variable categorical_crossentropy : list Q → list Q → Q.
Variable exp : Q → Q.

(** Label smoothing, [tf.matmul(oh_gt, conf_matrix)], when a [conf_matrix]
    is given: the one-hot labels of [depth] classes are multiplied by the
    matrix, whose rows are the classes. The labels are returned with the
    size of their class axis. A [conf_matrix] that is not a matrix is
    taken to be rejected by [tf.matmul]; the batched product with a tensor
    of higher rank is outside the model. *)
Definition smooth_labels (depth : nat) (oh_gt : tens 3) (conf_matrix : pyval)
    : result (tens 3 * nat) :=
  match conf_matrix with
  | PyNone => Ok (oh_gt, depth)
  | PyTensor 2 conf_matrix =>
      if (length conf_matrix =? depth)%nat then
        Ok (List.map (List.map (fun v => vecmat v conf_matrix)) oh_gt,
            length (hd [] conf_matrix))
      else Raise (InvalidArgumentError "Matrix size-incompatible")
  | _ => Raise (InvalidArgumentError "conf_matrix is not a matrix")
  end.

(** [tf.nn.softmax_cross_entropy_with_logits(labels, logits)] on tensors
    of rank 3 with class axes of sizes [C_labels] and [C_logits]: both are
    flattened to matrices, one row per timestep, which the kernel
    broadcasts against each other; the costs, one per row, are reshaped to
    the two leading axes of the logits. *)
Definition softmax_cross_entropy (C_labels C_logits : nat) (labels logits : tens 3)
    : result (tens 2) :=
  let flat_labels := concat labels in
  let flat_logits := concat logits in
  match bcast_dim (length flat_labels) (length flat_logits),
        bcast_dim C_labels C_logits with
  | Some rows, Some classes =>
      let cost :=
        zip_with softmax_cross_entropy_with_logits
          (bcast_axis (length flat_labels) rows
             (List.map (bcast_axis C_labels classes) flat_labels))
          (bcast_axis (length flat_logits) rows
             (List.map (bcast_axis C_logits classes) flat_logits)) in
      if (rows =? length flat_logits)%nat then Ok (reshape_like logits cost)
      else Raise (InvalidArgumentError "Input to reshape has another number of values")
  | _, _ => Raise (InvalidArgumentError "logits and labels must be broadcastable")
  end.

(** The first half of [compute_loss]: the matrix [cce] of per-timestep
    terms, together with [input_len]. The model covers the two kinds of
    scores the decoder produces: logits of shape (N, T, C), with
    [from_logits], and beam scores of shape (N, B, T, C), of which only
    the top sequence [model_output[:, 0, ...]] is used, without. On
    logits the labels are broadcast as the framework does it. Keras
    rejects labels and predictions of different shapes with a
    [ValueError]; so it does on logits without [from_logits], where the
    top sequence has lost an axis. The other combinations of rank and
    mode are reported as the error they raise on all but degenerate
    shapes (a single class, a single beam, a single label), which are
    left out. *)
Definition per_timestep_loss (model_output : AnyTensor) (gt : list (list Z))
    (from_logits : bool) (kwargs : gmap string pyval) : result (tens 2 * nat) :=
  match model_output with
  | mkAnyTensor 3 logits =>
      let input_len := length (hd [] logits) in
      let depth := length (hd [] (hd [] logits)) in
      let oh_gt := List.map (List.map (one_hot depth)) gt in
      if from_logits then
        rbind (smooth_labels depth oh_gt (kwargs_get kwargs "conf_matrix"))
          (fun '(oh_gt, classes) =>
        rbind (softmax_cross_entropy classes depth oh_gt logits) (fun cce =>
        Ok (cce, input_len)))
      else if forallb (fun s => negb (Nat.eqb (length s) 0)) logits then
        Raise (ValueError "Shapes are incompatible")
      else Raise (InvalidArgumentError "slice index 0 out of bounds")
  | mkAnyTensor 4 scores =>
      let input_len := length (hd [] (hd [] scores)) in
      let oh_gt :=
        List.map (List.map (one_hot (length (hd [] (hd [] (hd [] scores)))))) gt in
      if from_logits then
        Raise (InvalidArgumentError "logits and labels must be broadcastable")
      else if forallb (fun s => negb (Nat.eqb (length s) 0)) scores then
        let model_output := List.map (fun s => nth 0 s []) scores in
        let model_output := List.map (List.map (List.map exp)) model_output in
        let y_true := List.map (firstn input_len) oh_gt in
        let y_pred := List.map (firstn input_len) model_output in
        if same_shape2 y_true y_pred then
          Ok (zip_with (zip_with categorical_crossentropy) y_true y_pred, input_len)
        else Raise (ValueError "Shapes are incompatible")
      else Raise (InvalidArgumentError "slice index 0 out of bounds")
  | _ => Raise (InvalidArgumentError "rank")
  end.

(** The second half of [compute_loss]: mask after the EOS step, sum, and
    divide by the length (EOS included). [tf.where] and [tf.math.divide]
    broadcast the batch axis of the mask, which has one row per entry of
    [seq_len], against that of [cce]. *)
Definition masked_mean (cce : tens 2) (input_len : nat) (seq_len : list Z)
    : result (tens 2) :=
  let seq_len := List.map (fun s => int32 (s + 1)) seq_len in
  let mask_values := List.map (List.map (fun _ => 0%Q)) cce in
  let mask_2d := sequence_mask seq_len input_len in
  match bcast_dim (length mask_2d) (length cce) with
  | Some rows =>
      if forallb (fun row => Nat.eqb (length row) input_len) cce then
        let masked_loss :=
          where2 (bcast_axis (length mask_2d) rows mask_2d)
                 (bcast_axis (length cce) rows cce)
                 (bcast_axis (length cce) rows mask_values) in
        let ce_loss :=
          zip_with (fun row len => (Qsum row / inject_Z len)%Q) masked_loss
                   (bcast_axis (length seq_len) rows seq_len) in
        Ok (List.map (fun x => [x]) ce_loss)
      else Raise (InvalidArgumentError "incompatible shapes")
  | None => Raise (InvalidArgumentError "incompatible shapes")
  end.

Definition compute_loss (model_output : AnyTensor) (gt : list (list Z))
    (seq_len : list Z) (from_logits : bool) (kwargs : gmap string pyval)
    : result (tens 2) :=
  rbind (per_timestep_loss model_output gt from_logits kwargs)
    (fun '(cce, input_len) => masked_mean cce input_len seq_len).
End Loss.

(** ** SARPostProcessor *)

Local Open Scope string_scope.

Definition eos_marker : string := "<eos>".

(** Modelled from the spec: [RecognitionPostProcessor.__init__] lives in
    [..core], outside the sources; the decode table [_embedding] is the
    vocabulary table, one entry per character, plus the EOS marker string. *)
Definition embedding_table (vocab : string) : list string :=
  List.map (fun c => String c EmptyString) (list_ascii_of_string vocab) ++ [eos_marker].

Record SARPostProcessor : Type := mkSARPostProcessor {
  pp_vocab : string;
  _embedding : list string
}.

Definition SARPostProcessor_init (vocab : string) : SARPostProcessor :=
  {| pp_vocab := vocab; _embedding := embedding_table vocab |}.

(** [tf.nn.embedding_lookup(embedding, ids)] on one row of ids, followed by
    [tf.strings.reduce_join]: an id outside the table is an error. *)
Fixpoint lookup_join (table : list string) (ids : list Z) : result string :=
  match ids with
  | [] => Ok ""
  | i :: ids' =>
      if (0 <=? i)%Z && (i <? Z.of_nat (length table))%Z then
        rbind (lookup_join table ids') (fun rest =>
        Ok (nth (Z.to_nat i) table "" ++ rest))
      else Raise (InvalidArgumentError "indices out of range")
  end.

(** [tf.strings.split(s, sep)] for a non-empty separator: the pieces between
    the occurrences of [sep], found from left to right. [skip] counts the
    characters of a matched separator still to be dropped and [cur] holds
    the current piece, reversed. *)
Fixpoint split_from (sep : string) (skip : nat) (cur : list ascii) (s : string)
    : list string :=
  match s with
  | EmptyString => [string_of_list_ascii (rev cur)]
  | String c s' =>
      match skip with
      | S k => split_from sep k cur s'
      | O =>
          if String.prefix sep s
          then string_of_list_ascii (rev cur)
               :: split_from sep (String.length sep - 1) [] s'
          else split_from sep 0 (c :: cur) s'
      end
  end.

Definition strings_split (s sep : string) : list string := split_from sep 0 [] s.

(** One decoded string: join the characters, split at the EOS marker, and
    take entry 0 of the densified pieces ("not valid" fills missing ones). *)
Definition decode_ids (self : SARPostProcessor) (ids : list Z) : result string :=
  rbind (lookup_join (_embedding self) ids) (fun joined =>
  Ok (nth 0 (strings_split joined eos_marker) "not valid")).

(** Python slice [l[:n]]. *)
Definition slice_to {A} (n : Z) (l : list A) : list A :=
  if (0 <=? n)%Z then firstn (Z.to_nat n) l
  else firstn (Z.to_nat (Z.of_nat (length l) + n)) l.

Inductive predictions : Type :=
| Preds1 (strings : list string) (probabilities : list Q)
| Preds2 (strings : list (list string)) (probabilities : list (list Q)).

Definition all_strings (p : predictions) : list string :=
  match p with
  | Preds1 s _ => s
  | Preds2 s _ => concat s
  end.

(** [s] occurs in [t]. *)
Fixpoint occurs (s t : string) : bool :=
  String.prefix s t ||
  match t with
  | EmptyString => false
  | String _ t' => occurs s t'
  end.

Section PostProcessor.
Variables exp ln : Q → Q.

Definition softmax_prob (logits : list Q) (id : Z) : Q :=
  nth (Z.to_nat id) (softmax exp logits) 0%Q.

(** The sequence confidence of the greedy path: the geometric mean of the
    probabilities of the chosen ids. *)
Definition geometric_mean (scores : list (list Q)) (ids : list Z) : Q :=
  let probs := zip_with softmax_prob scores ids in
  exp (Qsum (List.map ln probs) / inject_Z (Z.of_nat (length probs)))%Q.

(** The index check of [tf.gather(probs, ids, axis=-1, batch_dims=2)] on
    (N, T, C) probabilities and (N, T) ids: every id is one of the classes
    of its timestep. *)
Definition gather_in_range (ids : list (list Z)) (scores : tens 3) : bool :=
  forallb (fun '(row, sample) =>
             forallb (fun '(i, logits) =>
                        (0 <=? i)%Z && (i <? Z.of_nat (length logits))%Z)
                     (combine row sample))
          (combine ids scores).

(** [SARPostProcessor.__call__]. With [top_sequences] the scores are the
    (N, B) log-probabilities and the ids (N, B, L) of the beam search;
    without, the scores are (N, T, C) logits and the ids (N, T), and
    [tf.gather] with [batch_dims=2] rejects ids whose shape is not that of
    the two leading axes of the scores, or that name no class. The two
    other combinations index a tensor beyond its rank: the (N,) strings of
    a greedy output at [[:, :top_sequences]], after they have been decoded,
    and the (N, B) scores of a beam search at [batch_dims=2]. *)
Definition SARPostProcessor_call (self : SARPostProcessor) (out : decoded)
    (top_sequences : option Z) : result predictions :=
  let top := match top_sequences with
             | Some n => truthy (PyInt n)
             | None => false
             end in
  match out with
  | GreedyOut ids scores =>
      if top then
        rbind (collect (List.map (decode_ids self) ids)) (fun _ =>
        Raise (InvalidArgumentError "too many indices"))
      else if negb (same_shape2 ids scores) then
        Raise (InvalidArgumentError "batch dimensions of params and indices differ")
      else if negb (gather_in_range ids scores) then
        Raise (InvalidArgumentError "indices out of range")
      else
        let probs := zip_with geometric_mean scores ids in
        rbind (collect (List.map (decode_ids self) ids)) (fun decoded_strings_pred =>
        Ok (Preds1 decoded_strings_pred probs))
  | BeamOut ids scores =>
      if top then
        let n := default 0%Z top_sequences in
        let probs := List.map (slice_to n) (List.map (List.map exp) scores) in
        rbind (collect (List.map (fun beams => collect (List.map (decode_ids self) beams)) ids))
          (fun decoded_strings_pred =>
        Ok (Preds2 (List.map (slice_to n) decoded_strings_pred) probs))
      else Raise (InvalidArgumentError "batch_dims")
  end.
End PostProcessor.

(** ** SAR.__init__ *)

(** A vocabulary the spec calls malformed: empty, or with a repeated
    character. *)
Fixpoint has_duplicate (l : list ascii) : bool :=
  match l with
  | [] => false
  | c :: l' => existsb (Ascii.eqb c) l' || has_duplicate l'
  end.

Definition malformed_vocab (vocab : string) : bool :=
  Nat.eqb (String.length vocab) 0 || has_duplicate (list_ascii_of_string vocab).

Section Construction.
(** The two-layer LSTM encoder and its [build(input_shape)] (Keras code). *)
Variable Encoder : Type.
Variable encoder_build : nat → list (option nat) → result Encoder.

Record FeatureExtractor : Type := mkFeatureExtractor {
  output_shape : list (option nat)
}.

Record SAR : Type := mkSAR {
  sar_vocab : string;
  sar_cfg : option (gmap string pyval);
  sar_max_length : nat;
  feat_extractor : FeatureExtractor;
  encoder : Encoder;
  decoder : SARDecoder;
  postprocessor : SARPostProcessor
}.

(** [SAR.__init__]; [weights] are the kernels the decoder layers hold. *)
Definition SAR_init (feature_extractor : FeatureExtractor) (vocab : string)
    (rnn_units attention_units max_length num_decoders : nat)
    (cfg : option (gmap string pyval)) (weights : DecoderWeights) : result SAR :=
  rbind (encoder_build rnn_units (None :: drop 2 (output_shape feature_extractor)))
    (fun enc =>
  Ok {| sar_vocab := vocab;
        sar_cfg := cfg;
        sar_max_length := max_length + 1;
        feat_extractor := feature_extractor;
        encoder := enc;
        decoder := SARDecoder_init rnn_units max_length (String.length vocab)
                     attention_units weights;
        postprocessor := SARPostProcessor_init vocab |}).
End Construction.

(** ** SAR_without_feature_extractor.call

    The body is run statement by statement over the local namespace of the
    call; a name is resolved in the local namespace, then among the names
    bound at module level. *)

Definition module_globals : gset string :=
  list_to_set
    [ "deepcopy"; "Any"; "Dict"; "List"; "Optional"; "Tuple"; "beam_search";
      "tf"; "Model"; "Sequential"; "layers"; "NestedObject"; "VOCABS";
      "resnet31"; "load_pretrained_params"; "RecognitionModel";
      "RecognitionPostProcessor"; "__all__"; "default_cfgs"; "AttentionModule";
      "SARDecoder"; "SARCellOutputLayer"; "SAR";
      "SAR_feature_extractor_with_lstm_encoder"; "SAR_without_lstm_encoder";
      "SAR_without_feature_extractor"; "SARPostProcessor"; "_sar";
      "sar_resnet31" ].

Definition Py (A : Type) : Type := gmap string pyval → result (A * gmap string pyval).

Definition py_ret {A} (a : A) : Py A := fun l => Ok (a, l).

Definition py_bind {A B} (m : Py A) (k : A → Py B) : Py B :=
  fun l => match m l with
           | Ok (a, l') => k a l'
           | Raise e => Raise e
           end.

#[global] Instance py_mret : MRet Py := @py_ret.
#[global] Instance py_mbind : MBind Py := fun A B k m => py_bind m k.

(** Evaluate a name. *)
Definition load (name : string) : Py pyval :=
  fun l => match l !! name with
           | Some v => Ok (v, l)
           | None =>
               if decide (name ∈ module_globals) then Ok (PyGlobal name, l)
               else Raise (NameError name)
           end.

(** [name = v]. *)
Definition assign (name : string) (v : pyval) : Py unit :=
  fun l => Ok (tt, <[name := v]> l).

(** A call of a collaborator, which may raise. *)
Definition call {A} (r : result A) : Py A :=
  fun l => match r with
           | Ok a => Ok (a, l)
           | Raise e => Raise e
           end.

Definition as_dict (v : pyval) : Py (gmap string pyval) :=
  match v with
  | PyDict d => py_ret d
  | _ => call (Raise (ValueError "not a mapping"))
  end.

(** [name[key] = v] on a dict bound to [name]. *)
Definition setitem (name key : string) (v : pyval) : Py unit :=
  d ← load name; d ← as_dict d; assign name (PyDict (<[key := v]> d)).

Definition when (c : bool) (m : Py unit) : Py unit :=
  if c then m else py_ret tt.

(** The attributes of [self] and the TensorFlow functions the call uses. *)
Record Collaborators : Type := mkCollaborators {
  tf_reduce_max : pyval → Z → result pyval;
  tf_cast_int32 : pyval → result pyval;
  self_encoder : pyval → gmap string pyval → result pyval;
  self_compute_target : pyval → result (pyval * pyval);
  self_decoder :
    pyval → pyval → pyval → pyval → gmap string pyval → result (pyval * pyval);
  self_postprocessor : pyval → pyval → pyval → result pyval;
  self_compute_loss :
    pyval → pyval → pyval → pyval → gmap string pyval → result pyval
}.

Definition SAR_without_feature_extractor_body (self : Collaborators) : Py pyval :=
  features ← load "features";
  pooled ← call (tf_reduce_max self features 1);
  assign "pooled_features" pooled;;
  kwargs ← load "kwargs"; kwargs ← as_dict kwargs;
  (match kwargs !! "conf_matrix" with
   | Some v =>
       assign "kwargs" (PyDict (delete "conf_matrix" kwargs));;
       assign "label_smoothing_weights" v
   | None => assign "label_smoothing_weights" PyNone
   end);;
  pooled_features ← load "pooled_features";
  kwargs ← load "kwargs"; kwargs ← as_dict kwargs;
  encoded ← call (self_encoder self pooled_features kwargs);
  assign "encoded" encoded;;
  target ← load "target";
  when (negb (is_none target))
    (target ← load "target";
     r ← call (self_compute_target self target);
     assign "gt" (fst r);; assign "seq_len" (snd r);;
     seq_len ← load "seq_len";
     seq_len ← call (tf_cast_int32 self seq_len);
     assign "seq_len" seq_len);;
  features ← load "features";
  encoded ← load "encoded";
  target ← load "target";
  gt ← (if is_none target then py_ret PyNone else load "gt");
  beam_width ← load "beam_width";
  kwargs ← load "kwargs"; kwargs ← as_dict kwargs;
  r ← call (self_decoder self features encoded gt beam_width kwargs);
  assign "decoded_ids" (fst r);; assign "decoded_scores" (snd r);;
  assign "out" (PyDict ∅);;
  return_model_output ← load "return_model_output";
  when (truthy return_model_output)
    (decoded_scores ← load "decoded_scores";
     setitem "out" "out_map" decoded_scores);;
  target ← load "target";
  return_preds ← (if is_none target then py_ret (PyBool true) else load "return_preds");
  when (truthy return_preds)
    (decoded_scores ← load "decoded_scores";
     decoded_ids ← load "decoded_ids";
     top_sequences ← load "top_sequences";
     preds ← call (self_postprocessor self decoded_scores decoded_ids top_sequences);
     setitem "out" "preds" preds);;
  target ← load "target";
  when (negb (is_none target))
    (label_smoothing_weights ← load "label_smoothing_weights";
     setitem "kwargs" "conf_matrix" label_smoothing_weights;;
     decoded_features ← load "decoded_features";
     gt ← load "gt";
     seq_len ← load "seq_len";
     kwargs ← load "kwargs"; kwargs ← as_dict kwargs;
     training ← py_ret (kwargs_get kwargs "training");
     beam_width ← (if truthy training then py_ret PyNone else load "beam_width");
     loss ← call (self_compute_loss self decoded_features gt seq_len
                     (py_or training (PyBool (is_none beam_width))) kwargs);
     setitem "out" "loss" loss);;
  load "out".

(** [SAR_without_feature_extractor.call]: the parameters are the first
    local names. *)
Definition SAR_without_feature_extractor_call (self : Collaborators)
    (features target return_model_output return_preds beam_width top_sequences : pyval)
    (kwargs : gmap string pyval) : result pyval :=
  match SAR_without_feature_extractor_body self
          (<["kwargs" := PyDict kwargs]>
           (<["top_sequences" := top_sequences]>
            (<["beam_width" := beam_width]>
             (<["return_preds" := return_preds]>
              (<["return_model_output" := return_model_output]>
               (<["target" := target]>
                (<["features" := features]> ∅))))))) with
  | Ok (v, _) => Ok v
  | Raise e => Raise e
  end.

(** Every collaborator of the call returns normally on every input. *)
Definition total (self : Collaborators) : Prop :=
  (∀ x a, ∃ v, tf_reduce_max self x a = Ok v) ∧
  (∀ x, ∃ v, tf_cast_int32 self x = Ok v) ∧
  (∀ x kw, ∃ v, self_encoder self x kw = Ok v) ∧
  (∀ x, ∃ v, self_compute_target self x = Ok v) ∧
  (∀ f h g b kw, ∃ v, self_decoder self f h g b kw = Ok v) ∧
  (∀ s i t, ∃ v, self_postprocessor self s i t = Ok v).

(** What a run of the body from the parameters may end in. *)
Definition body_post (self : Collaborators) (t : pyval)
    (r : result (pyval * gmap string pyval)) : Prop :=
  match r with
  | Ok (v, _) => is_none t = true ∧ ∃ out, v = PyDict out ∧ out !! "loss" = None
  | Raise e => is_none t = false → total self → e = NameError "decoded_features"
  end.

(** Collaborators that always return, used to run the call. *)
Definition plain_collaborators : Collaborators :=
  {| tf_reduce_max := fun x _ => Ok x;
     tf_cast_int32 := fun x => Ok x;
     self_encoder := fun x _ => Ok x;
     self_compute_target := fun _ => Ok (PyIntTensor 2 [[0%Z]], PyIntTensor 1 [1%Z]);
     self_decoder := fun _ _ _ _ _ =>
       Ok (PyIntTensor 2 [[0%Z; 1%Z]], PyTensor 3 [[[1%Q; 0%Q]; [0%Q; 1%Q]]]);
     self_postprocessor := fun _ _ _ => Ok (PyList [PyStr "a"]);
     self_compute_loss := fun _ _ _ _ _ => Ok (PyTensor 2 [[0%Q]]) |}.

(** A feature extractor with output shape (None, 4, 32, 512), an encoder
    that always builds, and decoder kernels, used to run the constructor. *)
Definition resnet_like : FeatureExtractor :=
  mkFeatureExtractor [None; Some 4%nat; Some 32%nat; Some 512%nat].

Definition build_always (rnn_units : nat) (input_shape : list (option nat))
    : result (nat * list (option nat)) :=
  Ok (rnn_units, input_shape).

Definition no_weights : DecoderWeights :=
  mkDecoderWeights [] [] [] [] [] [] [].

(** ** A small model to run the definitions on

    Rational stand-ins for the transcendental functions ([exp1] is
    positive), a recurrent cell that hands its input on, and a decoder over
    the one-character vocabulary "a" whose output bias favours that
    character. *)
Definition exp1 (x : Q) : Q := (1 + x * x)%Q.
Definition tanh1 (x : Q) : Q := x.
Definition ln1 (x : Q) : Q := (x - 1)%Q.

Definition echo_cell (kwargs : gmap string pyval) (x : list Q) (s : list Q)
    : list Q * list Q := (x, x).

Definition tiny_weights : DecoderWeights :=
  {| w_embed := [[0%Q]; [0%Q]];
     w_hidden := [[[[1%Q]]]];
     w_features := repeat (repeat [[1%Q]] 3) 3;
     b_features := [0%Q];
     w_attention := [[[[1%Q]]]];
     w_output := [[0%Q; 0%Q]; [0%Q; 0%Q]];
     b_output := [1%Q; 0%Q] |}.

(** A decoder for the vocabulary "a" with [max_length = 1]. *)
Definition tiny_decoder : SARDecoder := SARDecoder_init 1 1 1 1 tiny_weights.

Definition tiny_features : tens 4 := [[[[1%Q]]]].

(** The part of [s] before the first occurrence of [sep] ([s] itself when
    there is none); used to state what the post-processor returns. *)
Fixpoint before_first (sep s : string) : string :=
  match s with
  | EmptyString => EmptyString
  | String c s' =>
      if String.prefix sep s then EmptyString else String c (before_first sep s')
  end.

(** The rows of ids a decoder output holds. *)
Definition id_rows (out : decoded) : list (list Z) :=
  match out with
  | GreedyOut ids _ => ids
  | BeamOut ids _ => concat ids
  end.

(** A stand-in for the per-timestep cross-entropy of the framework. *)
Definition ce1 (labels logits : list Q) : Q := dot labels logits.

(** ** Statements about the beam *)

(** [eos] occurs in [toks] at most once, as the last token. *)
Definition eos_only_last (eos : Z) (toks : list Z) : Prop :=
  ∀ pre post, toks = (pre ++ eos :: post)%list → post = [].

(** A hypothesis after at most [n] steps: the start token followed by at
    most [n] tokens of the vocabulary, terminated exactly when the last
    token is [eos], which occurs nowhere else. *)
Definition hyp_ok (St : Type) (vocab_size : nat) (eos start : Z) (n : nat)
    (h : BeamHypothesis St) : Prop :=
  ∃ toks,
    h_ids St h = start :: toks ∧
    (length toks <= n)%nat ∧
    Forall (fun t => 0 <= t < Z.of_nat vocab_size)%Z toks ∧
    if h_finished St h then ∃ pre, toks = (pre ++ [eos])%list ∧ ¬ In eos pre
    else ¬ In eos toks.

(** Best first. *)
Definition sorted_desc (l : list Q) : Prop :=
  StronglySorted (fun a b => (b <= a)%Q) l.

Definition by_score (St : Type) (alpha : Z) (a b : BeamHypothesis St) : Prop :=
  (ranking_score St alpha b <= ranking_score St alpha a)%Q.

(** ** Further statements and code

    Predicates used to state what the rest of the code does. *)

(** [i] is the first position of a maximal entry of [row]. *)
Definition first_max (row : list Q) (i : Z) : Prop :=
  (0 <= i < Z.of_nat (length row))%Z ∧
  (∀ j, (j < length row)%nat → (nth j row 0 <= nth (Z.to_nat i) row 0)%Q) ∧
  (∀ j, (j < Z.to_nat i)%nat → (nth j row 0 < nth (Z.to_nat i) row 0)%Q).

(** The entries of the decode table a row of ids selects, joined. *)
Definition joined_entries (table : list string) (ids : list Z) : string :=
  fold_right append "" (List.map (fun i => nth (Z.to_nat i) table "") ids).

(** ** Vertical max pooling *)

(** [tf.reduce_max(f, axis=0)] on one sample of shape (H, W, D), for
    [H > 0]: the entrywise maximum of the rows. *)
Definition reduce_max_rows (f : tens 3) : tens 2 :=
  match f with
  | [] => []
  | row :: rows => fold_left (zip_with (zip_with qmax)) rows row
  end.

(** [tf.reduce_max(features, axis=1)]: shape (N, H, W, D) to (N, W, D). *)
Definition reduce_max_axis1 (features : tens 4) : tens 3 :=
  List.map reduce_max_rows features.

(** ** SAR.call *)

(** The values of the mapping [SAR.call] returns. *)
Inductive outval : Type :=
| OutScores (decoded_scores : AnyTensor)
| OutPreds (preds : predictions)
| OutLoss (loss : tens 2).

(** The scores of a decoder output, as a tensor of their rank. *)
Definition decoded_scores_of (out : decoded) : AnyTensor :=
  match out with
  | GreedyOut _ scores => mkAnyTensor 3 scores
  | BeamOut _ scores => mkAnyTensor 2 scores
  end.

Section Model.
Variable St : Type.
Variable lstm_cell : gmap string pyval → list Q → St → list Q * St.
Variable zero_state : St.
Variables exp tanh ln : Q → Q.
Variable softmax_cross_entropy_with_logits : list Q → list Q → Q.
Variable categorical_crossentropy : list Q → list Q → Q.
(** The backbone, the Keras encoder and [RecognitionModel.compute_target],
    which are defined outside this module. *)
Variable Image : Type.
Variable Encoder : Type.
Variable feat_extractor_call :
  FeatureExtractor → Image → gmap string pyval → result (tens 4).
Variable encoder_call : Encoder → tens 3 → gmap string pyval → result (tens 2).
Variable compute_target : SAR Encoder → list string → result (list (list Z) * list Z).

(** [SAR.call]; the keyword arguments in [kwargs] are those handed on to
    the layers. *)
Definition SAR_call (self : SAR Encoder) (x : Image) (target : option (list string))
    (return_model_output return_preds : pyval) (beam_width top_sequences : option Z)
    (kwargs : gmap string pyval) : result (gmap string outval) :=
  rbind (feat_extractor_call (feat_extractor Encoder self) x kwargs) (fun features =>
  let pooled_features := reduce_max_axis1 features in
  rbind (encoder_call (encoder Encoder self) pooled_features kwargs) (fun encoded =>
  rbind (match target with
         | Some target =>
             rbind (compute_target self target) (fun '(gt, seq_len) =>
             Ok (Some (gt, List.map int32 seq_len)))
         | None => Ok None
         end) (fun gt_seq_len =>
  rbind (SARDecoder_call St lstm_cell zero_state exp tanh ln (decoder Encoder self)
           features encoded (option_map fst gt_seq_len) beam_width kwargs) (fun dec =>
  let decoded_scores := decoded_scores_of dec in
  let out : gmap string outval := ∅ in
  let out :=
    if truthy return_model_output
    then <["out_map" := OutScores decoded_scores]> out else out in
  rbind (if match target with None => true | Some _ => truthy return_preds end
         then rbind (SARPostProcessor_call exp ln (postprocessor Encoder self) dec
                       top_sequences)
                (fun preds => Ok (<["preds" := OutPreds preds]> out))
         else Ok out) (fun out =>
  match gt_seq_len with
  | Some (gt, seq_len) =>
      rbind (compute_loss softmax_cross_entropy_with_logits categorical_crossentropy exp
               decoded_scores gt seq_len (uses_greedy kwargs beam_width) kwargs)
        (fun loss => Ok (<["loss" := OutLoss loss]> out))
  | None => Ok out
  end))))).
End Model.

(** A model over the vocabulary "a" with its collaborators, to run the
    call on: the backbone returns [tiny_features], the encoder one zero,
    and the target encoding one id per character position. *)
Definition tiny_model : SAR (nat * list (option nat)) :=
  {| sar_vocab := "a";
     sar_cfg := None;
     sar_max_length := 2;
     feat_extractor := resnet_like;
     encoder := (1%nat, [None; Some 32%nat; Some 512%nat]);
     decoder := tiny_decoder;
     postprocessor := SARPostProcessor_init "a" |}.

Definition tiny_call :
    option (list string) → pyval → pyval → option Z → option Z →
    gmap string pyval → result (gmap string outval) :=
  SAR_call (list Q) echo_cell [0%Q] exp1 tanh1 ln1 ce1 ce1 unit
    (nat * list (option nat))
    (fun _ _ _ => Ok tiny_features)
    (fun _ _ _ => Ok [[0%Q]])
    (fun _ target =>
       Ok (List.map (fun _ => [0%Z; 1%Z]) target,
           List.map (fun s => Z.of_nat (String.length s)) target))
    tiny_model tt.

(** The mapping the call returns without a target, with the scores asked
    for. *)
Definition tiny_out : gmap string outval :=
  match tiny_call None (PyBool true) (PyBool false) None None ∅ with
  | Ok out => out
  | Raise _ => ∅
  end.

Definition tiny_preds : outval :=
  default (OutLoss []) (tiny_out !! "preds").

(** ** Calls that bind arguments

    The interpreter's own exceptions at a call or a subscript, beside the
    exceptions the framework raises. *)
Inductive type_error : Type :=
| UnexpectedKeyword
| MultipleValues
| TooManyPositional
| MissingRequired (names : list string).

Inductive call_exn : Type :=
| TypeError (reason : type_error)
| KeyError (key : string)
| Framework (e : exn).

Inductive call_result (A : Type) : Type :=
| Returned (a : A)
| Failed (e : call_exn).
Arguments Returned {A} a.
Arguments Failed {A} e.

Definition cbind {A B} (m : call_result A) (k : A → call_result B) : call_result B :=
  match m with
  | Returned a => k a
  | Failed e => Failed e
  end.

Definition lift {A} (r : result A) : call_result A :=
  match r with
  | Ok a => Returned a
  | Raise e => Failed (Framework e)
  end.

(** The parameters of a function after [self], all positional-or-keyword:
    those without a default, then those with one. *)
Record Signature : Type := mkSignature {
  sig_required : list string;
  sig_optional : list (string * pyval)
}.

Definition sig_names (sig : Signature) : list string :=
  sig_required sig ++ List.map fst (sig_optional sig).

(** The keyword arguments of a call, in the order they are written. *)
Fixpoint bind_keywords (names : list string) (bound : gmap string pyval)
    (keywords : list (string * pyval)) : call_result (gmap string pyval) :=
  match keywords with
  | [] => Returned bound
  | (k, v) :: keywords' =>
      if bool_decide (k ∈ names) then
        match bound !! k with
        | Some _ => Failed (TypeError MultipleValues)
        | None => bind_keywords names (<[k := v]> bound) keywords'
        end
      else Failed (TypeError UnexpectedKeyword)
  end.

(** The binding of the arguments of a call to the parameters: positional
    arguments in order, then the keywords, then the check of the number
    of positional arguments, then the missing parameters, filled from the
    defaults or reported. *)
Definition bind_arguments (sig : Signature) (args : list pyval)
    (keywords : list (string * pyval)) : call_result (gmap string pyval) :=
  let names := sig_names sig in
  let positional : gmap string pyval := list_to_map (zip names args) in
  cbind (bind_keywords names positional keywords) (fun bound =>
  if (length names <? length args)%nat then Failed (TypeError TooManyPositional)
  else
    match List.filter (fun p => bool_decide (bound !! p = None)) (sig_required sig) with
    | [] =>
        Returned (fold_right (fun '(p, d) b =>
                    match b !! p with
                    | Some _ => b
                    | None => <[p := d]> b
                    end) bound (sig_optional sig))
    | missing => Failed (TypeError (MissingRequired missing))
    end).

(** [SARPostProcessor.__call__(self, ids, scores, top_sequences=None)]. *)
Definition SARPostProcessor_signature : Signature :=
  {| sig_required := ["ids"; "scores"];
     sig_optional := [("top_sequences", PyNone)] |}.

(** A call that writes out some keywords and unpacks [kwargs] after them:
    a key of [kwargs] that repeats a parameter already given is refused. *)
Definition keywords_clash (written : list string) (kwargs : gmap string pyval)
    : call_result unit :=
  if forallb (fun k => bool_decide (kwargs !! k = None)) written
  then Returned tt
  else Failed (TypeError MultipleValues).

(** ** SAR_without_lstm_encoder.call *)

(** A call of [self.postprocessor] with the positional arguments [args]
    and the keywords [keywords], through the signature of
    [SARPostProcessor.__call__]. *)
Definition postprocessor_call (self : Collaborators) (args : list pyval)
    (keywords : list (string * pyval)) : call_result pyval :=
  cbind (bind_arguments SARPostProcessor_signature args keywords) (fun bound =>
  lift (self_postprocessor self (kwargs_get bound "scores") (kwargs_get bound "ids")
          (kwargs_get bound "top_sequences"))).

Definition SAR_without_lstm_encoder_call (self : Collaborators)
    (features encoded target return_model_output return_preds beam_width
       top_sequences : pyval)
    (kwargs : gmap string pyval) : call_result pyval :=
  cbind (if is_none target then Returned None
         else
           cbind (lift (self_compute_target self target)) (fun '(gt, seq_len) =>
           cbind (lift (tf_cast_int32 self seq_len)) (fun seq_len =>
           Returned (Some (gt, seq_len))))) (fun gt_seq_len =>
  let label_smoothing_weights := kwargs_get kwargs "conf_matrix" in
  let kwargs := delete "conf_matrix" kwargs in
  cbind (keywords_clash ["features"; "holistic"; "gt"; "beam_width"] kwargs) (fun _ =>
  cbind (lift (self_decoder self features encoded
                 (match gt_seq_len with Some (gt, _) => gt | None => PyNone end)
                 beam_width kwargs)) (fun '(ids, scores) =>
  let decoded_features := PyTuple ids scores in
  let out : gmap string pyval := ∅ in
  let out :=
    if truthy return_model_output then <["out_map" := decoded_features]> out else out in
  cbind (if is_none target || truthy return_preds
         then
           cbind (postprocessor_call self [decoded_features]
                    [("top_sequences", top_sequences)]) (fun preds =>
           Returned (<["preds" := preds]> out))
         else Returned out) (fun out =>
  match gt_seq_len with
  | Some (gt, seq_len) =>
      let kwargs := <["conf_matrix" := label_smoothing_weights]> kwargs in
      let from_logits :=
        py_or (kwargs_get kwargs "training") (PyBool (is_none beam_width)) in
      cbind (keywords_clash ["from_logits"; "model_output"; "gt"; "seq_len"] kwargs)
        (fun _ =>
      cbind (lift (self_compute_loss self decoded_features gt seq_len from_logits kwargs))
        (fun loss =>
      Returned (PyDict (<["loss" := loss]> out))))
  | None => Returned (PyDict out)
  end)))).

(** ** _sar and sar_resnet31 *)

(** [a and b], [not a]. *)
Definition py_and (a b : pyval) : pyval := if truthy a then b else a.
Definition py_not (a : pyval) : pyval := PyBool (negb (truthy a)).

(** [d[key]]. *)
Definition getitem (d : gmap string pyval) (key : string) : call_result pyval :=
  match d !! key with
  | Some v => Returned v
  | None => Failed (KeyError key)
  end.

Section Factory.
(** The module-level [default_cfgs], whose entries refer to other modules
    ([resnet31], [VOCABS]); the call of the backbone stored in it, with its
    keywords [input_shape], [pretrained] and [include_top]; the call
    [SAR(feat_extractor, cfg=_cfg, **kwargs)]; and
    [load_pretrained_params(model, url)], which fills the model. *)
Variable default_cfgs : gmap string (gmap string pyval).
Variable Model : Type.
Variable backbone_call : pyval → pyval → pyval → pyval → call_result FeatureExtractor.
Variable SAR_new :
  FeatureExtractor → gmap string pyval → gmap string pyval → call_result Model.
Variable load_pretrained_params : Model → pyval → call_result Model.

(** [_cfg[key] = kwargs.get(key, _cfg[fallback])]: the default is
    evaluated before the lookup in [kwargs]. *)
Definition patch (key fallback : string) (kwargs _cfg : gmap string pyval)
    : call_result (gmap string pyval) :=
  cbind (getitem _cfg fallback) (fun d =>
  Returned (<[key := default d (kwargs !! key)]> _cfg)).

(** [kwargs[key] = _cfg[key]]. *)
Definition pass_on (key : string) (_cfg kwargs : gmap string pyval)
    : call_result (gmap string pyval) :=
  cbind (getitem _cfg key) (fun v => Returned (<[key := v]> kwargs)).

Definition _sar (arch : string) (pretrained pretrained_backbone input_shape : pyval)
    (kwargs : gmap string pyval) : call_result Model :=
  let pretrained_backbone := py_and pretrained_backbone (py_not pretrained) in
  cbind (match default_cfgs !! arch with
         | Some c => Returned c
         | None => Failed (KeyError arch)
         end) (fun default_cfg =>
  let _cfg := default_cfg in
  cbind (if truthy input_shape then Returned input_shape
         else getitem _cfg "input_shape") (fun shape =>
  let _cfg := <["input_shape" := shape]> _cfg in
  cbind (patch "vocab" "vocab" kwargs _cfg) (fun _cfg =>
  cbind (patch "rnn_units" "rnn_units" kwargs _cfg) (fun _cfg =>
  cbind (patch "attention_units" "rnn_units" kwargs _cfg) (fun _cfg =>
  cbind (patch "max_length" "max_length" kwargs _cfg) (fun _cfg =>
  cbind (patch "num_decoders" "num_decoders" kwargs _cfg) (fun _cfg =>
  cbind (getitem default_cfg "backbone") (fun backbone =>
  cbind (getitem _cfg "input_shape") (fun shape =>
  cbind (backbone_call backbone shape pretrained_backbone (PyBool false))
    (fun feat_extractor =>
  cbind (pass_on "vocab" _cfg kwargs) (fun kwargs =>
  cbind (pass_on "rnn_units" _cfg kwargs) (fun kwargs =>
  cbind (pass_on "attention_units" _cfg kwargs) (fun kwargs =>
  cbind (pass_on "max_length" _cfg kwargs) (fun kwargs =>
  cbind (pass_on "num_decoders" _cfg kwargs) (fun kwargs =>
  cbind (SAR_new feat_extractor _cfg kwargs) (fun model =>
  if truthy pretrained then
    cbind (getitem default_cfg "url") (fun url =>
    load_pretrained_params model url)
  else Returned model)))))))))))))))).

(** [sar_resnet31(pretrained, **kwargs)]: the keywords [pretrained_backbone]
    and [input_shape] reach the parameters of [_sar] of these names, the
    others its [kwargs]. *)
Definition sar_resnet31 (pretrained : pyval) (kwargs : gmap string pyval)
    : call_result Model :=
  cbind (keywords_clash ["arch"; "pretrained"] kwargs) (fun _ =>
  _sar "sar_resnet31" pretrained
    (default (PyBool true) (kwargs !! "pretrained_backbone"))
    (default PyNone (kwargs !! "input_shape"))
    (delete "pretrained_backbone" (delete "input_shape" kwargs))).
End Factory.

(** A configuration table with the keys the factory reads of the entry
    "sar_resnet31" (the shape as a list, the vocabulary "ab"), and
    collaborators that record the arguments they are called with, to run
    the factory on. *)
Definition tiny_cfgs : gmap string (gmap string pyval) :=
  {[ "sar_resnet31" :=
       list_to_map
         [ ("backbone", PyGlobal "resnet31");
           ("rnn_units", PyInt 512);
           ("max_length", PyInt 30);
           ("num_decoders", PyInt 2);
           ("input_shape", PyList [PyInt 32; PyInt 128; PyInt 3]);
           ("vocab", PyStr "ab");
           ("url", PyStr "sar_resnet31-9ee49970.zip") ] ]}.

Definition tiny_backbone (backbone input_shape pretrained include_top : pyval)
    : call_result FeatureExtractor :=
  Returned resnet_like.

Definition tiny_SAR_new (feat_extractor : FeatureExtractor)
    (cfg kwargs : gmap string pyval)
    : call_result (gmap string pyval * gmap string pyval * bool) :=
  Returned (cfg, kwargs, false).

Definition tiny_load (model : gmap string pyval * gmap string pyval * bool) (url : pyval)
    : call_result (gmap string pyval * gmap string pyval * bool) :=
  let '(cfg, kwargs, _) := model in Returned (cfg, kwargs, true).

(** A stand-in for an [exp] that underflows: zero from -1 downwards. *)
Definition exp_cut (x : Q) : Q := if Qle_bool x (-1) then 0%Q else exp1 x.

(* ===================================================================== *)
(** * Part II: properties                                                 *)
(* ===================================================================== *)

(** ** Running a call body *)

Section PyMonad.
Context {A B : Type}.
Implicit Types (l : gmap string pyval) (k : A → Py B).

Lemma step_ret (a : A) k l : py_bind (py_ret a) k l = k a l.
Proof. reflexivity. Qed.

Lemma step_call_ok (a : A) k l : py_bind (call (Ok a)) k l = k a l.
Proof. reflexivity. Qed.

Lemma step_call_raise e k l : py_bind (call (Raise e)) k l = Raise e.
Proof. reflexivity. Qed.

Lemma py_bind_assoc {C} (m : Py C) (h : C → Py A) k l :
  py_bind (py_bind m h) k l = py_bind m (fun c => py_bind (h c) k) l.
Proof. unfold py_bind. destruct (m l) as [[c l']|e]; reflexivity. Qed.
End PyMonad.

Section PySteps.
Context {B : Type}.
Implicit Types (l : gmap string pyval).

Lemma step_load x v (k : pyval → Py B) l :
  l !! x = Some v → py_bind (load x) k l = k v l.
Proof. intros H. unfold py_bind, load. rewrite H. reflexivity. Qed.

Lemma step_load_unbound x (k : pyval → Py B) l :
  l !! x = None → x ∉ module_globals → py_bind (load x) k l = Raise (NameError x).
Proof.
  intros H Hg. unfold py_bind, load. rewrite H.
  destruct (decide (x ∈ module_globals)); [contradiction | reflexivity].
Qed.

Lemma step_assign x v (k : unit → Py B) l :
  py_bind (assign x v) k l = k tt (<[x := v]> l).
Proof. reflexivity. Qed.

Lemma step_setitem x key v d (k : unit → Py B) l :
  l !! x = Some (PyDict d) →
  py_bind (setitem x key v) k l = k tt (<[x := PyDict (<[key := v]> d)]> l).
Proof.
  intros H. unfold setitem, mbind, py_mbind.
  rewrite py_bind_assoc, (step_load _ _ _ _ H). simpl.
  rewrite py_bind_assoc. reflexivity.
Qed.
End PySteps.

Lemma load_bound x v (l : gmap string pyval) : l !! x = Some v → load x l = Ok (v, l).
Proof. intros H. unfold load. rewrite H. reflexivity. Qed.

Lemma as_dict_dict d : as_dict (PyDict d) = py_ret d.
Proof. reflexivity. Qed.

Lemma when_true m : when true m = m.
Proof. reflexivity. Qed.

Lemma when_false m : when false m = py_ret tt.
Proof. reflexivity. Qed.

(** No statement at module level binds [decoded_features]. *)
Lemma decoded_features_not_global : "decoded_features" ∉ module_globals.
Proof. vm_compute. discriminate. Qed.

Ltac map_lookup :=
  repeat (rewrite ?lookup_insert_eq; rewrite ?lookup_insert_ne by discriminate);
  first [reflexivity | apply lookup_empty].

Ltac py_step :=
  first
    [ rewrite py_bind_assoc
    | rewrite step_ret
    | rewrite step_assign
    | rewrite step_call_ok
    | rewrite step_call_raise
    | erewrite step_load; [| solve [map_lookup]]
    | erewrite step_setitem; [| solve [map_lookup]]
    | rewrite as_dict_dict
    | rewrite when_true
    | rewrite when_false
    | progress cbn [negb fst snd]
    | progress cbv beta iota ].

Ltac total_absurd T E :=
  destruct T as (T1 & T2 & T3 & T4 & T5 & T6);
  match type of E with
  | ?lhs = Raise _ =>
      let H := fresh in
      assert (H : ∃ v, lhs = Ok v)
        by first [ apply T1 | apply T2 | apply T3 | apply T4 | apply T5 | apply T6 ];
      destruct H; congruence
  end.

Ltac py_call :=
  match goal with
  | |- context [py_bind (call ?r) _ _] =>
      let E := fresh "E" in
      let T := fresh "T" in
      destruct r eqn:E;
      [ | rewrite step_call_raise; simpl; intros _ T; exfalso; total_absurd T E ]
  end.

(** The body, run from the parameters: without a target it can only return
    a mapping without a "loss" entry; with a target it never returns, and
    the loss branch is reached unless a collaborator raised before. *)
Lemma body_spec (self : Collaborators) f t rmo rp bw ts kw :
  body_post self t (SAR_without_feature_extractor_body self
          (<["kwargs" := PyDict kw]>
           (<["top_sequences" := ts]>
            (<["beam_width" := bw]>
             (<["return_preds" := rp]>
              (<["return_model_output" := rmo]>
               (<["target" := t]>
                (<["features" := f]> ∅)))))))).
Proof.
  unfold SAR_without_feature_extractor_body, mbind, py_mbind.
  destruct (is_none t) eqn:Hn.
  all: repeat first
    [ py_step
    | rewrite Hn
    | py_call
    | match goal with
      | |- context [?m !! "conf_matrix"] =>
          is_var m; destruct (m !! "conf_matrix") eqn:?
      | |- context [truthy ?v] => destruct (truthy v) eqn:?
      end ].
  all: first
    [ rewrite step_load_unbound;
      [ intros _ _; reflexivity | solve [map_lookup] | apply decoded_features_not_global ]
    | erewrite load_bound; [| solve [map_lookup]];
      split; [assumption | eexists; split; [reflexivity | solve [map_lookup]]] ].
Qed.

Lemma is_none_false t : t ≠ PyNone → is_none t = false.
Proof. destruct t; [congruence | reflexivity..]. Qed.

(** C5. A call of [SAR_without_feature_extractor.call] with a target never
    returns: it raises, and when no collaborator raises before the loss
    branch the exception is the NameError of the unbound name
    [decoded_features]; so no returned mapping has a "loss" entry. *)
Theorem C5_loss_branch_raises_NameError (self : Collaborators)
    (features target return_model_output return_preds beam_width top_sequences : pyval)
    (kwargs : gmap string pyval) :
  let r := SAR_without_feature_extractor_call self features target
             return_model_output return_preds beam_width top_sequences kwargs in
  (target ≠ PyNone →
     (∃ e, r = Raise e) ∧
     (total self → r = Raise (NameError "decoded_features"))) ∧
  (∀ v, r = Ok v → ∃ out, v = PyDict out ∧ out !! "loss" = None).
Proof.
  intros r. subst r. unfold SAR_without_feature_extractor_call.
  pose proof (body_spec self features target return_model_output return_preds
                beam_width top_sequences kwargs) as H.
  unfold body_post in H.
  destruct (SAR_without_feature_extractor_body _ _) as [[v l]|e].
  - destruct H as [Hn Hout]. split.
    + intros Ht. rewrite (is_none_false _ Ht) in Hn. discriminate.
    + intros v' [= <-]. exact Hout.
  - split.
    + intros Ht. split; [eauto |]. intros T.
      rewrite (H (is_none_false _ Ht) T). reflexivity.
    + intros v' [=].
Qed.

Lemma plain_collaborators_total : total plain_collaborators.
Proof. repeat split; intros; eexists; reflexivity. Qed.

Lemma C5_witness :
  SAR_without_feature_extractor_call plain_collaborators
    (PyTensor 4 [[[[1%Q]]]]) (PyList [PyStr "a"]) (PyBool false) (PyBool true)
    PyNone PyNone ∅
  = Raise (NameError "decoded_features").
Proof.
  apply (C5_loss_branch_raises_NameError plain_collaborators
           (PyTensor 4 [[[[1%Q]]]]) (PyList [PyStr "a"]) (PyBool false) (PyBool true)
           PyNone PyNone ∅).
  - discriminate.
  - exact plain_collaborators_total.
Defined.

(** ** The decode policy *)

Lemma uses_greedy_spec (kwargs : gmap string pyval) (beam_width : option Z) :
  uses_greedy kwargs beam_width = true ↔
  truthy (kwargs_get kwargs "training") = true ∨ beam_width = None.
Proof.
  unfold uses_greedy, py_or.
  destruct (truthy (kwargs_get kwargs "training")) eqn:E.
  - rewrite E. tauto.
  - destruct beam_width; simpl; split; intros; try tauto; try discriminate.
    destruct H as [H|H]; discriminate.
Qed.

(** C1, as the code has it. The greedy/teacher-forced loop runs exactly
    when the [training] keyword is truthy or [beam_width] is [None];
    otherwise the beam search runs, with the requested width passed on
    unchanged, also when that width is zero or negative. *)
Theorem C1_policy_by_training_or_none (St : Type)
    (lstm_cell : gmap string pyval → list Q → St → list Q * St) (zero_state : St)
    (exp tanh ln : Q → Q)
    (self : SARDecoder) (features : tens 4) (holistic : tens 2)
    (gt : option (list (list Z))) (beam_width : option Z)
    (kwargs : gmap string pyval) :
  let states :=
    snd (lstm_decoder St lstm_cell kwargs holistic
           (repeat zero_state (length features))) in
  let symbol := repeat (Z.of_nat (vocab_size self + 1)) (length features) in
  (uses_greedy kwargs beam_width = true ↔
     truthy (kwargs_get kwargs "training") = true ∨ beam_width = None) ∧
  SARDecoder_call St lstm_cell zero_state exp tanh ln self features holistic gt
    beam_width kwargs =
  match beam_width with
  | Some k =>
      if truthy (kwargs_get kwargs "training") then
        rbind (greedy_decode St lstm_cell exp tanh self symbol states features gt kwargs)
          (fun '(ids, scores) => Ok (GreedyOut ids scores))
      else
        rbind (beam_decode St lstm_cell exp tanh ln self symbol states features k kwargs)
          (fun '(ids, scores) => Ok (BeamOut ids scores))
  | None =>
      rbind (greedy_decode St lstm_cell exp tanh self symbol states features gt kwargs)
        (fun '(ids, scores) => Ok (GreedyOut ids scores))
  end.
Proof.
  intros states symbol. split; [apply uses_greedy_spec |].
  unfold SARDecoder_call. subst states symbol.
  destruct (lstm_decoder St lstm_cell kwargs holistic _) as [o s]. simpl snd.
  unfold uses_greedy, py_or.
  destruct (truthy (kwargs_get kwargs "training")) eqn:E.
  - rewrite E. destruct beam_width; reflexivity.
  - destruct beam_width; reflexivity.
Qed.

(** The claim as stated fails: with no [training] keyword and
    [beam_width = 0] the claim selects the greedy loop, the code the beam
    search. *)
Lemma C1_counterexample :
  ¬ (uses_greedy ∅ (Some 0) = true ↔
       (truthy (kwargs_get ∅ "training") = true ∨ Some 0 = @None Z ∨ 0 <= 0)).
Proof.
  intros [_ H]. assert (E : uses_greedy ∅ (Some 0) = true) by (apply H; right; right; lia).
  vm_compute in E. discriminate.
Qed.

(** ** Construction *)

(** C9, as the code has it. [SAR.__init__] does not inspect the
    vocabulary: whenever the encoder builds for the feature extractor's
    output shape, construction succeeds for every vocabulary string, empty
    or with repeated characters included, and the model decodes over
    [len(vocab) + 1] classes. *)
Theorem C9_construction_accepts_any_vocab (Encoder : Type)
    (encoder_build : nat → list (option nat) → result Encoder)
    (feature_extractor : FeatureExtractor) (vocab : string)
    (rnn_units attention_units max_length num_decoders : nat)
    (cfg : option (gmap string pyval)) (weights : DecoderWeights) (enc : Encoder) :
  encoder_build rnn_units (None :: drop 2 (output_shape feature_extractor)) = Ok enc →
  ∃ model,
    SAR_init Encoder encoder_build feature_extractor vocab rnn_units attention_units
      max_length num_decoders cfg weights = Ok model ∧
    sar_vocab Encoder model = vocab ∧
    sar_max_length Encoder model = (max_length + 1)%nat ∧
    vocab_size (decoder Encoder model) = String.length vocab ∧
    units (output_dense (decoder Encoder model)) = (String.length vocab + 1)%nat ∧
    length (_embedding (postprocessor Encoder model)) = (String.length vocab + 1)%nat.
Proof.
  intros Hb. unfold SAR_init. rewrite Hb. simpl.
  eexists. split; [reflexivity |]. simpl.
  repeat split.
  unfold embedding_table. rewrite length_app, length_map. simpl.
  f_equal. clear. induction vocab; simpl; congruence.
Qed.

Lemma C9_witness :
  ∃ model,
    SAR_init _ build_always resnet_like "" 512 512 30 2 None no_weights = Ok model ∧
    sar_vocab _ model = "" ∧
    sar_max_length _ model = 31%nat ∧
    vocab_size (decoder _ model) = 0%nat ∧
    units (output_dense (decoder _ model)) = 1%nat ∧
    length (_embedding (postprocessor _ model)) = 1%nat.
Proof.
  apply (C9_construction_accepts_any_vocab _ build_always resnet_like "" 512 512 30 2
           None no_weights (512%nat, [None; Some 32%nat; Some 512%nat])).
  reflexivity.
Defined.

(** The claim as stated fails: the empty vocabulary and a vocabulary with
    a repeated character are malformed, and construction returns a model
    for both. *)
Lemma C9_counterexample :
  malformed_vocab "" = true ∧ malformed_vocab "aa" = true ∧
  (∃ model, SAR_init _ build_always resnet_like "" 512 512 30 2 None no_weights = Ok model) ∧
  (∃ model, SAR_init _ build_always resnet_like "aa" 512 512 30 2 None no_weights = Ok model).
Proof. repeat split; eexists; reflexivity. Qed.

(** ** One decoder step *)

Lemma expand_twice_axes (t : tens 2) :
  expand_twice t 1 = Ok (List.map (fun v => [[v]]) t) ∧
  expand_twice t (-2) = Ok (List.map (fun v => [[v]]) t).
Proof.
  unfold expand_twice, expand_dims. simpl.
  rewrite !List.map_map. split; reflexivity.
Qed.

(** The two spellings part on a tensor of another rank, such as the
    (B, N, rnn_units) input of [SARCellOutputLayer]. *)
Example expand_dims_rank3_differ :
  expand_dims 3 [[[1%Q]; [2%Q]]] 1 ≠ expand_dims 3 [[[1%Q]; [2%Q]]] (-2).
Proof. vm_compute. discriminate. Qed.

(** C3. One iteration of the greedy loop and one call of the beam search's
    [symbols_to_logits_fn] compute the same logits and the same new hidden
    state from the same previous tokens, hidden state and feature map, the
    recurrent cells having (as dropout-free LSTM cells have) no behaviour
    that depends on the keyword arguments; and both return. *)
Theorem C3_greedy_step_is_beam_step (St : Type)
    (lstm_cell : gmap string pyval → list Q → St → list Q * St)
    (exp tanh : Q → Q) (self : SARDecoder) (kwargs : gmap string pyval)
    (ids : list (list Z)) (i : nat) (states : list St) (features : tens 4) :
  (∀ x s, lstm_cell kwargs x s = lstm_cell ∅ x s) →
  ∃ logits states',
    greedy_step St lstm_cell exp tanh self kwargs
      (List.map (fun s => List.last s 0) ids) states features
    = Ok (logits, states') ∧
    symbols_to_logits_fn St lstm_cell exp tanh self ids i (mkCache St states features)
    = Ok (logits, mkCache St states' features).
Proof.
  intros Hkw. unfold greedy_step, symbols_to_logits_fn, embed_token.
  set (e := List.map (dense_call (embed self)) _).
  assert (E : lstm_decoder St lstm_cell kwargs e states =
              lstm_decoder St lstm_cell ∅ e states).
  { unfold lstm_decoder.
    assert (Z : zip_with (lstm_cell kwargs) e states = zip_with (lstm_cell ∅) e states).
    { clear -Hkw. revert states.
      induction e as [|x xs IH]; intros [|s ss]; simpl; try reflexivity.
      rewrite Hkw, IH. reflexivity. }
    rewrite Z. reflexivity. }
  rewrite E. simpl hidden_states. simpl cache_features.
  destruct (lstm_decoder St lstm_cell ∅ e states) as [output states'].
  destruct (expand_twice_axes output) as [-> ->].
  simpl. eauto.
Qed.


Lemma C3_witness :
  ∃ logits states',
    greedy_step _ echo_cell exp1 tanh1 tiny_decoder {["training" := PyBool false]}
      (List.map (fun s => List.last s 0) [[2; 0]]) [[0%Q]] tiny_features
    = Ok (logits, states') ∧
    symbols_to_logits_fn _ echo_cell exp1 tanh1 tiny_decoder [[2; 0]] 1
      (mkCache _ [[0%Q]] tiny_features)
    = Ok (logits, mkCache _ states' tiny_features).
Proof.
  apply (C3_greedy_step_is_beam_step _ echo_cell exp1 tanh1 tiny_decoder
           {["training" := PyBool false]} [[2; 0]] 1%nat [[0%Q]] tiny_features).
  reflexivity.
Defined.

(** ** Strings: splitting at the EOS marker *)

Lemma app_String (c : ascii) (s t : string) : String c s ++ t = String c (s ++ t).
Proof. reflexivity. Qed.

Lemma app_Empty (t : string) : "" ++ t = t.
Proof. reflexivity. Qed.

Ltac string_simpl := repeat (rewrite ?app_String, ?app_Empty; simpl).

Lemma string_app_nil_r (s : string) : s ++ "" = s.
Proof. induction s; string_simpl; congruence. Qed.

Lemma string_app_assoc (a b c : string) : (a ++ b) ++ c = a ++ (b ++ c).
Proof. induction a; string_simpl; congruence. Qed.

Lemma string_length_app (a b : string) :
  String.length (a ++ b) = (String.length a + String.length b)%nat.
Proof. induction a; string_simpl; congruence. Qed.

Lemma string_of_list_ascii_app (a b : list ascii) :
  string_of_list_ascii (a ++ b) = string_of_list_ascii a ++ string_of_list_ascii b.
Proof. induction a; string_simpl; congruence. Qed.

Lemma prefix_split (sep s : string) :
  String.prefix sep s = true → ∃ rest, s = sep ++ rest.
Proof.
  revert s. induction sep as [|a sep IH]; intros s H.
  - exists s. reflexivity.
  - destruct s as [|b s]; simpl in H; [discriminate |].
    destruct (ascii_dec a b) as [->|]; [| discriminate].
    destruct (IH _ H) as [rest ->]. exists rest. reflexivity.
Qed.

Lemma prefix_app (sep rest : string) : String.prefix sep (sep ++ rest) = true.
Proof.
  induction sep as [|a sep IH].
  - destruct rest; reflexivity.
  - rewrite app_String. simpl. destruct (ascii_dec a a); [exact IH | congruence].
Qed.

Lemma prefix_app_r (sep a r : string) :
  String.prefix sep a = true → String.prefix sep (a ++ r) = true.
Proof.
  intros H. destruct (prefix_split _ _ H) as [rest ->].
  rewrite string_app_assoc. apply prefix_app.
Qed.

Lemma prefix_nonempty (sep : string) :
  sep ≠ "" → String.prefix sep "" = false.
Proof. destruct sep; [congruence | reflexivity]. Qed.

(** Entry 0 of the pieces is the part before the first separator. *)
Lemma split_from_head (sep : string) (cur : list ascii) (s d : string) :
  nth 0 (split_from sep 0 cur s) d
  = string_of_list_ascii (rev cur) ++ before_first sep s.
Proof.
  revert cur. induction s as [|c s IH]; intros cur.
  - cbn [split_from before_first nth]. rewrite string_app_nil_r. reflexivity.
  - cbn [split_from before_first].
    destruct (String.prefix sep (String c s)).
    + cbn [nth]. rewrite string_app_nil_r. reflexivity.
    + rewrite IH. cbn [rev]. rewrite string_of_list_ascii_app, string_app_assoc.
      reflexivity.
Qed.

Lemma strings_split_head (s sep d : string) :
  nth 0 (strings_split s sep) d = before_first sep s.
Proof. unfold strings_split. rewrite split_from_head. reflexivity. Qed.

Lemma before_first_prefix (sep s : string) :
  ∃ rest, s = before_first sep s ++ rest.
Proof.
  induction s as [|c s [rest IH]]; cbn [before_first].
  - exists "". reflexivity.
  - destruct (String.prefix sep (String c s)).
    + eexists. reflexivity.
    + exists rest. rewrite app_String. congruence.
Qed.

Lemma before_first_length (sep s : string) :
  (String.length (before_first sep s) <= String.length s)%nat.
Proof.
  destruct (before_first_prefix sep s) as [rest E].
  rewrite E at 2. rewrite string_length_app. lia.
Qed.

(** The separator does not occur in the part before its first occurrence. *)
Lemma before_first_no_sep (sep s : string) :
  sep ≠ "" → occurs sep (before_first sep s) = false.
Proof.
  intros Hsep. induction s as [|c s IH].
  - cbn [before_first occurs]. rewrite prefix_nonempty by assumption. reflexivity.
  - cbn [before_first]. destruct (String.prefix sep (String c s)) eqn:E.
    + cbn [occurs]. rewrite prefix_nonempty by assumption. reflexivity.
    + cbn [occurs]. rewrite IH, orb_false_r.
      destruct (String.prefix sep (String c (before_first sep s))) eqn:E'; [| reflexivity].
      destruct (before_first_prefix sep s) as [rest Hr].
      apply (prefix_app_r _ _ rest) in E'. rewrite app_String, <- Hr in E'.
      congruence.
Qed.

(** Without an occurrence nothing is cut; with one, the separator follows
    the part returned. *)
Lemma before_first_cases (sep s : string) :
  (occurs sep s = false ∧ before_first sep s = s) ∨
  (occurs sep s = true ∧ ∃ rest, s = before_first sep s ++ sep ++ rest).
Proof.
  induction s as [|c s IH].
  - cbn [before_first occurs]. destruct (String.prefix sep "") eqn:E.
    + right. split; [reflexivity |]. destruct (prefix_split _ _ E) as [rest Hr].
      exists rest. exact Hr.
    + left. split; reflexivity.
  - cbn [before_first occurs]. destruct (String.prefix sep (String c s)) eqn:E.
    + right. split; [reflexivity |]. destruct (prefix_split _ _ E) as [rest Hr].
      exists rest. exact Hr.
    + destruct IH as [[H1 H2] | [H1 [rest H2]]].
      * left. rewrite H1, H2. split; reflexivity.
      * right. rewrite H1. split; [reflexivity |]. exists rest.
        rewrite app_String. congruence.
Qed.

(** The cut is at the first occurrence: no occurrence starts earlier. *)
Lemma before_first_shortest (sep s a b : string) :
  s = a ++ sep ++ b →
  (String.length (before_first sep s) <= String.length a)%nat.
Proof.
  revert s. induction a as [|c a IH]; intros s ->.
  - rewrite app_Empty. destruct (sep ++ b) eqn:E; cbn [before_first]; [simpl; lia |].
    rewrite <- E, prefix_app. simpl. lia.
  - rewrite app_String. cbn [before_first].
    destruct (String.prefix sep (String c (a ++ sep ++ b))); simpl; [lia |].
    specialize (IH _ eq_refl). lia.
Qed.

(** ** The post-processor *)

Lemma collect_Forall2 {A B} (f : A → result B) (l : list A) (rs : list B) :
  collect (List.map f l) = Ok rs → Forall2 (fun x r => f x = Ok r) l rs.
Proof.
  revert rs. induction l as [|x l IH]; intros rs H; simpl in H.
  - injection H as <-. constructor.
  - destruct (f x) eqn:E; simpl in H; [| discriminate].
    destruct (collect (List.map f l)) eqn:E'; simpl in H; [| discriminate].
    injection H as <-. constructor; [assumption | apply IH; reflexivity].
Qed.

Lemma collect_total {A B} (f : A → result B) (l : list A) :
  Forall (fun x => ∃ r, f x = Ok r) l → ∃ rs, collect (List.map f l) = Ok rs.
Proof.
  induction 1 as [|x l [r Hr] _ [rs IH]]; simpl.
  - eauto.
  - rewrite Hr, IH. simpl. eauto.
Qed.

Lemma slice_to_incl {A} (n : Z) (l : list A) (x : A) :
  In x (slice_to n l) → In x l.
Proof.
  unfold slice_to. intros H.
  destruct (0 <=? n)%Z;
    match type of H with
    | In _ (firstn ?k _) => rewrite <- (firstn_skipn k l)
    end; apply in_or_app; left; exact H.
Qed.

(** The entries of the decode table: one-character strings, then the EOS
    marker. *)
Lemma embedding_table_length (vocab : string) :
  length (embedding_table vocab) = (String.length vocab + 1)%nat.
Proof.
  unfold embedding_table. rewrite length_app, length_map. simpl. f_equal.
  induction vocab; simpl; congruence.
Qed.



Lemma eos_marker_nonempty : eos_marker ≠ "".
Proof. discriminate. Qed.

Lemma lookup_join_total (table : list string) (ids : list Z) :
  Forall (fun i => 0 <= i < Z.of_nat (length table))%Z ids →
  lookup_join table ids
  = Ok (fold_right append "" (List.map (fun i => nth (Z.to_nat i) table "") ids)).
Proof.
  induction 1 as [|i ids Hi _ IH]; cbn [lookup_join List.map fold_right].
  - reflexivity.
  - replace ((0 <=? i)%Z && (i <? Z.of_nat (length table))%Z) with true
      by (symmetry; apply andb_true_iff; split; [apply Z.leb_le | apply Z.ltb_lt]; lia).
    rewrite IH. reflexivity.
Qed.

Lemma lookup_join_in_range (table : list string) (ids : list Z) (joined : string) :
  lookup_join table ids = Ok joined →
  Forall (fun i => 0 <= i < Z.of_nat (length table))%Z ids.
Proof.
  revert joined. induction ids as [|i ids IH]; intros joined H; [constructor |].
  cbn [lookup_join] in H.
  destruct ((0 <=? i)%Z && (i <? Z.of_nat (length table))%Z) eqn:E; [| discriminate].
  apply andb_true_iff in E as [E1 E2]. apply Z.leb_le in E1. apply Z.ltb_lt in E2.
  destruct (lookup_join table ids) eqn:E'; [| discriminate].
  constructor; [lia | eapply IH; reflexivity].
Qed.


Lemma decode_ids_spec (vocab : string) (ids : list Z) :
  Forall (fun i => 0 <= i < Z.of_nat (length (embedding_table vocab)))%Z ids →
  decode_ids (SARPostProcessor_init vocab) ids
  = Ok (before_first eos_marker
          (fold_right append ""
             (List.map (fun i => nth (Z.to_nat i) (embedding_table vocab) "") ids))).
Proof.
  intros H. unfold decode_ids. cbn [_embedding SARPostProcessor_init].
  rewrite (lookup_join_total _ _ H). cbn [rbind].
  rewrite strings_split_head. reflexivity.
Qed.

Lemma decode_ids_in_range (vocab : string) (ids : list Z) (r : string) :
  decode_ids (SARPostProcessor_init vocab) ids = Ok r →
  Forall (fun i => 0 <= i < Z.of_nat (length (embedding_table vocab)))%Z ids.
Proof.
  unfold decode_ids. cbn [_embedding SARPostProcessor_init]. intros H.
  destruct (lookup_join _ ids) eqn:E; [| discriminate].
  eapply lookup_join_in_range. eassumption.
Qed.

(** Every string the post-processor returns is the decoding of a row of the
    ids it was given. *)
Lemma call_strings_from_rows (exp ln : Q → Q) (self : SARPostProcessor)
    (out : decoded) (top_sequences : option Z) (p : predictions) :
  SARPostProcessor_call exp ln self out top_sequences = Ok p →
  ∀ s, In s (all_strings p) → ∃ row, In row (id_rows out) ∧ decode_ids self row = Ok s.
Proof.
  unfold SARPostProcessor_call. intros H s Hs.
  destruct out as [ids scores | ids scores];
    destruct (match top_sequences with Some n => truthy (PyInt n) | None => false end);
    try discriminate.
  - destruct (collect (List.map (decode_ids self) ids)); discriminate.
  - destruct (negb (same_shape2 ids scores)); [discriminate |].
    destruct (negb (gather_in_range ids scores)); [discriminate |].
    destruct (collect (List.map (decode_ids self) ids)) as [strs|] eqn:E; [| discriminate].
    injection H as <-. simpl in Hs. apply collect_Forall2 in E.
    clear -E Hs. induction E as [|row r ids strs Hr _ IH]; [contradiction |].
    destruct Hs as [<- | Hs].
    + exists row. split; [left; reflexivity | assumption].
    + destruct (IH Hs) as (row' & Hin & Hd). exists row'. split; [right |]; assumption.
  - destruct (collect (List.map _ ids)) as [strs|] eqn:E; [| discriminate].
    injection H as <-. cbn [all_strings] in Hs.
    apply in_concat in Hs as (sl & Hsl & Hs).
    apply in_map_iff in Hsl as (full & <- & Hfull).
    apply slice_to_incl in Hs.
    apply collect_Forall2 in E. cbn [id_rows].
    clear -E Hfull Hs. induction E as [|beams rs ids strs Hr _ IH]; [contradiction |].
    destruct Hfull as [<- | Hfull].
    + apply collect_Forall2 in Hr.
      assert (∃ row, In row beams ∧ decode_ids self row = Ok s) as (row & Hin & Hd).
      { clear -Hr Hs. induction Hr as [|row r beams rs Hr _ IH]; [contradiction |].
        destruct Hs as [<- | Hs].
        - exists row. split; [left; reflexivity | assumption].
        - destruct (IH Hs) as (row' & Hin & Hd). exists row'. split; [right |]; assumption. }
      exists row. split; [| assumption]. cbn [concat]. apply in_or_app. left. assumption.
    + destruct (IH Hfull) as (row & Hin & Hd). exists row. split; [| assumption].
      cbn [concat]. apply in_or_app. right. assumption.
Qed.

Lemma collect_map_ok {A B} (f : A → result B) (g : A → B) (l : list A) :
  Forall (fun x => f x = Ok (g x)) l → collect (List.map f l) = Ok (List.map g l).
Proof.
  induction 1 as [|x l Hx _ IH]; cbn [List.map collect]; [reflexivity |].
  rewrite Hx, IH. reflexivity.
Qed.

Lemma same_shape2_Forall2 {A B} (a : list (list A)) (b : list (list B)) :
  same_shape2 a b = true ↔ Forall2 (fun ra rb => length ra = length rb) a b.
Proof.
  unfold same_shape2. split.
  - intros H. apply andb_true_iff in H as [Hl Hr]. apply Nat.eqb_eq in Hl.
    revert b Hl Hr. induction a as [|ra a IH]; intros [|rb b] Hl Hr;
      try discriminate; constructor.
    + cbn in Hr. apply andb_true_iff in Hr as [Hr _]. apply Nat.eqb_eq. exact Hr.
    + cbn in Hr. apply andb_true_iff in Hr as [_ Hr]. apply IH; [| exact Hr].
      cbn in Hl. congruence.
  - induction 1 as [|ra rb a b Hr _ IH]; [reflexivity |].
    apply andb_true_iff in IH as [Hl Hf]. apply Nat.eqb_eq in Hl.
    apply andb_true_iff. split; [apply Nat.eqb_eq; cbn; congruence |].
    cbn. apply andb_true_iff. split; [apply Nat.eqb_eq; exact Hr | exact Hf].
Qed.

(** Ids that name a class of every timestep pass the index check of
    [tf.gather]. *)
Lemma gather_in_range_classes (C : nat) (ids : list (list Z)) (scores : tens 3) :
  Forall (Forall (fun logits : list Q => length logits = C)) scores →
  Forall (Forall (fun i => 0 <= i < Z.of_nat C)%Z) ids →
  gather_in_range ids scores = true.
Proof.
  intros Hs Hi. unfold gather_in_range. apply forallb_forall.
  intros [row sample] Hin.
  pose proof (in_combine_l _ _ _ _ Hin) as Hrow.
  pose proof (in_combine_r _ _ _ _ Hin) as Hsample.
  rewrite List.Forall_forall in Hs, Hi.
  specialize (Hs _ Hsample). specialize (Hi _ Hrow).
  apply forallb_forall. intros [i logits] Hin'.
  pose proof (in_combine_l _ _ _ _ Hin') as Hi'.
  pose proof (in_combine_r _ _ _ _ Hin') as Hl'.
  rewrite List.Forall_forall in Hs, Hi.
  specialize (Hs _ Hl'). specialize (Hi _ Hi').
  rewrite Hs. apply andb_true_iff. split; [apply Z.leb_le | apply Z.ltb_lt]; lia.
Qed.

(** On ids of the shape of the scores' leading axes, all of them classes
    and entries of the decode table, the greedy call returns the decoding
    of every row, in order, with the rows' confidences. *)
Lemma call_greedy_ok (exp ln : Q → Q) (self : SARPostProcessor)
    (ids : list (list Z)) (scores : tens 3) (top_sequences : option Z)
    (dec : list Z → string) :
  match top_sequences with Some n => truthy (PyInt n) | None => false end = false →
  same_shape2 ids scores = true →
  gather_in_range ids scores = true →
  Forall (fun row => decode_ids self row = Ok (dec row)) ids →
  SARPostProcessor_call exp ln self (GreedyOut ids scores) top_sequences
  = Ok (Preds1 (List.map dec ids) (zip_with (geometric_mean exp ln) scores ids)).
Proof.
  intros Ht Hs Hg Hd. unfold SARPostProcessor_call.
  rewrite Ht, Hs, Hg. cbn [negb].
  rewrite (collect_map_ok _ _ _ Hd). reflexivity.
Qed.

(** With [top_sequences] on ids of the decode table, the call on a beam
    output returns the decoding of every beam, cut to the leading ones. *)
Lemma call_beam_ok (exp ln : Q → Q) (self : SARPostProcessor)
    (ids : list (list (list Z))) (scores : tens 2) (n : Z)
    (dec : list Z → string) :
  n ≠ 0%Z →
  Forall (Forall (fun row => decode_ids self row = Ok (dec row))) ids →
  SARPostProcessor_call exp ln self (BeamOut ids scores) (Some n)
  = Ok (Preds2 (List.map (fun beams => slice_to n (List.map dec beams)) ids)
               (List.map (fun row => slice_to n (List.map exp row)) scores)).
Proof.
  intros Hn Hd. unfold SARPostProcessor_call.
  assert (Ht : truthy (PyInt n) = true).
  { cbn [truthy]. apply negb_true_iff, Z.eqb_neq. exact Hn. }
  rewrite Ht. cbn [default from_option id].
  rewrite (collect_map_ok _ (List.map dec)).
  - cbn [rbind]. rewrite !List.map_map. reflexivity.
  - eapply List.Forall_impl; [| exact Hd]. cbv beta. intros beams Hb.
    apply collect_map_ok. exact Hb.
Qed.

(** C7. The post-processor maps every id of a row to its entry of the
    decode table (a vocabulary character, or the EOS marker for id V),
    joins the entries, and returns the part of the joined string before the
    first occurrence of the EOS marker: the marker does not occur in what
    is returned, the marker follows it whenever the joined string contains
    one, and no occurrence starts earlier. Every string of the result of
    [__call__] is obtained this way from a row of ids. On a batch of
    (N, T) ids in [0, V] with (N, T, V + 1) scores, N > 0, the call
    returns, and its strings are the decodings of the rows, one per row and
    in the order of the rows, with one confidence per row; with
    [top_sequences = n], on (N, B, L) ids in [0, V], N > 0 and B > 0, it
    returns the decodings of the beams of every sample, cut to [[:n]]. *)
Theorem C7_decoded_is_prefix_before_first_eos (exp ln : Q → Q) (vocab : string) :
  let decoded := fun ids : list Z =>
    before_first eos_marker
      (fold_right append ""
         (List.map (fun i => nth (Z.to_nat i) (embedding_table vocab) "") ids)) in
  (∀ ids : list Z,
     Forall (fun i => 0 <= i <= Z.of_nat (String.length vocab))%Z ids →
     let joined :=
       fold_right append ""
         (List.map (fun i => nth (Z.to_nat i) (embedding_table vocab) "") ids) in
     ∃ r,
       decode_ids (SARPostProcessor_init vocab) ids = Ok r ∧
       occurs eos_marker r = false ∧
       ((occurs eos_marker joined = false ∧ r = joined) ∨
        (occurs eos_marker joined = true ∧ ∃ rest, joined = r ++ eos_marker ++ rest)) ∧
       (∀ a b, joined = a ++ eos_marker ++ b → (String.length r <= String.length a)%nat)) ∧
  (∀ out top_sequences p,
     SARPostProcessor_call exp ln (SARPostProcessor_init vocab) out top_sequences = Ok p →
     ∀ s, In s (all_strings p) →
       ∃ row, In row (id_rows out) ∧
              decode_ids (SARPostProcessor_init vocab) row = Ok s ∧
              Forall (fun i => 0 <= i <= Z.of_nat (String.length vocab))%Z row) ∧
  (∀ (ids : list (list Z)) (scores : tens 3),
     ids ≠ [] →
     same_shape2 ids scores = true →
     Forall (Forall (fun logits : list Q =>
                       length logits = (String.length vocab + 1)%nat)) scores →
     Forall (Forall (fun i => 0 <= i <= Z.of_nat (String.length vocab))%Z) ids →
     ∃ probs,
       SARPostProcessor_call exp ln (SARPostProcessor_init vocab) (GreedyOut ids scores) None
       = Ok (Preds1 (List.map decoded ids) probs) ∧
       length probs = length ids) ∧
  (∀ (ids : list (list (list Z))) (scores : tens 2) (n : Z),
     n ≠ 0%Z →
     ids ≠ [] → Forall (fun beams => beams ≠ []) ids →
     Forall (Forall (Forall (fun i => 0 <= i <= Z.of_nat (String.length vocab))%Z)) ids →
     SARPostProcessor_call exp ln (SARPostProcessor_init vocab) (BeamOut ids scores) (Some n)
     = Ok (Preds2 (List.map (fun beams => slice_to n (List.map decoded beams)) ids)
                  (List.map (fun row => slice_to n (List.map exp row)) scores))).
Proof.
  intros decoded.
  assert (Hrange : ∀ ids : list Z,
            Forall (fun i => 0 <= i <= Z.of_nat (String.length vocab))%Z ids →
            Forall (fun i => 0 <= i < Z.of_nat (length (embedding_table vocab)))%Z ids).
  { intros ids Hids. rewrite embedding_table_length.
    eapply List.Forall_impl; [| exact Hids]. simpl. intros. lia. }
  split; [| split; [| split]].
  - intros ids Hids joined.
    exists (before_first eos_marker joined).
    split; [apply decode_ids_spec, Hrange, Hids |].
    split; [apply before_first_no_sep, eos_marker_nonempty |].
    split; [apply before_first_cases |].
    intros a b E. eapply before_first_shortest. exact E.
  - intros out top p H s Hs.
    destruct (call_strings_from_rows _ _ _ _ _ _ H s Hs) as (row & Hin & Hd).
    exists row. split; [assumption |]. split; [assumption |].
    pose proof (decode_ids_in_range _ _ _ Hd) as Hr.
    rewrite embedding_table_length in Hr.
    eapply List.Forall_impl; [| exact Hr]. simpl. intros. lia.
  - intros ids scores _ Hshape Hscores Hids.
    exists (zip_with (geometric_mean exp ln) scores ids). split.
    + apply call_greedy_ok; [reflexivity | exact Hshape | |].
      * apply (gather_in_range_classes (String.length vocab + 1)); [exact Hscores |].
        eapply List.Forall_impl; [| exact Hids]. cbv beta. intros row Hrow.
        eapply List.Forall_impl; [| exact Hrow]. cbv beta. intros. lia.
      * eapply List.Forall_impl; [| exact Hids]. cbv beta. intros row Hrow.
        apply decode_ids_spec, Hrange, Hrow.
    + apply same_shape2_Forall2, Forall2_length in Hshape.
      rewrite length_zip_with. lia.
  - intros ids scores n Hn _ _ Hids.
    apply call_beam_ok; [exact Hn |].
    eapply List.Forall_impl; [| exact Hids]. cbv beta. intros beams Hb.
    eapply List.Forall_impl; [| exact Hb]. cbv beta. intros row Hrow.
    apply decode_ids_spec, Hrange, Hrow.
Qed.

Lemma C7_witness :
  ∃ probs,
    SARPostProcessor_call exp1 ln1 (SARPostProcessor_init "ab")
      (GreedyOut [[0; 1; 2; 0]; [2; 1; 1; 0]; [1; 1; 0; 1]]%Z
         [[[1; 0; 0]; [0; 1; 0]; [0; 0; 1]; [1; 0; 0]];
          [[0; 0; 1]; [0; 1; 0]; [0; 1; 0]; [1; 0; 0]];
          [[0; 1; 0]; [0; 1; 0]; [1; 0; 0]; [0; 1; 0]]]%Q) None
    = Ok (Preds1 ["ab"; ""; "bbab"] probs) ∧
    length probs = 3%nat.
Proof.
  apply (proj1 (proj2 (proj2 (C7_decoded_is_prefix_before_first_eos exp1 ln1 "ab")))
           [[0; 1; 2; 0]; [2; 1; 1; 0]; [1; 1; 0; 1]]%Z).
  - discriminate.
  - reflexivity.
  - repeat (apply List.Forall_cons || apply List.Forall_nil); reflexivity.
  - repeat (apply List.Forall_cons || apply List.Forall_nil); vm_compute;
      (split; discriminate).
Defined.

Example SARPostProcessor_call_shape_run :
  SARPostProcessor_call exp1 ln1 (SARPostProcessor_init "ab")
    (GreedyOut [[0; 1]; [2; 0]]%Z [[[1; 0; 0]; [0; 1; 0]]]%Q) None
  = Raise (InvalidArgumentError "batch dimensions of params and indices differ").
Proof. reflexivity. Qed.

Example SARPostProcessor_call_class_run :
  SARPostProcessor_call exp1 ln1 (SARPostProcessor_init "ab")
    (GreedyOut [[0; 2]]%Z [[[1; 0]; [0; 1]]]%Q) None
  = Raise (InvalidArgumentError "indices out of range").
Proof. reflexivity. Qed.

Example decode_ids_run :
  decode_ids (SARPostProcessor_init "ab") [0; 1; 2; 0]%Z = Ok "ab".
Proof. reflexivity. Qed.

Example strings_split_run :
  strings_split "ab<eos>a<eos>" "<eos>" = ["ab"; "a"; ""].
Proof. reflexivity. Qed.

(** ** The greedy loop *)



Lemma min3_stable (a f : nat) :
  Nat.min (Nat.min (Nat.min a f) a) f = Nat.min a f.
Proof. lia. Qed.

Section GreedyFacts.
Variable St : Type.
Variable lstm_cell : gmap string pyval → list Q → St → list Q * St.
Variables exp tanh : Q → Q.
Variable self : SARDecoder.
Variable kwargs : gmap string pyval.
Variable features : tens 4.

Local Abbreviation step := (greedy_step St lstm_cell exp tanh self kwargs).
Local Abbreviation loop := (greedy_loop St lstm_cell exp tanh self kwargs features).

(** A step always returns, and every row of logits it returns has one
    entry per unit of the output layer. *)
Lemma greedy_step_returns symbol states :
  ∃ logits states',
    step symbol states features = Ok (logits, states') ∧
    Forall (fun row => length row = units (output_dense self)) logits.
Proof.
  unfold greedy_step.
  destruct (lstm_decoder St lstm_cell kwargs _ states) as [logits states'].
  destruct (expand_twice_axes logits) as [-> _]. cbn [rbind].
  eexists _, _. split; [reflexivity |].
  apply List.Forall_forall. intros row Hrow.
  apply in_map_iff in Hrow as (x & <- & _).
  unfold dense_call. rewrite length_map, length_seq. reflexivity.
Qed.

(** The rows of a step: as many rows of logits as the shortest of the
    three inputs. *)
Lemma greedy_step_rows symbol states logits states' :
  step symbol states features = Ok (logits, states') →
  length logits = Nat.min (Nat.min (length symbol) (length states)) (length features) ∧
  length states' = Nat.min (length symbol) (length states).
Proof.
  unfold greedy_step, lstm_decoder.
  set (r := zip_with (lstm_cell kwargs) _ states).
  assert (Hr : length r = Nat.min (length symbol) (length states)).
  { unfold r. rewrite length_zip_with, !length_map. reflexivity. }
  destruct (expand_twice_axes (List.map fst r)) as [-> _]. cbn [rbind].
  intros [= <- <-]. rewrite !length_map, length_zip_with, length_map.
  unfold AttentionModule_call. rewrite length_zip_with, !length_map, Hr.
  split; [| reflexivity].
  generalize (Nat.min (length symbol) (length states)) as k. intros k.
  rewrite (Nat.min_comm _ k), Nat.min_assoc, Nat.min_id. reflexivity.
Qed.

Lemma gt_column_length gt t col :
  gt_column gt t = Ok col → length col = length gt.
Proof.
  revert col. induction gt as [|row gt IH]; intros col H; simpl in H.
  - injection H as <-. reflexivity.
  - destruct (nth_error row t); [| discriminate].
    destruct (gt_column gt t) eqn:E; [| discriminate].
    injection H as <-. simpl. f_equal. apply IH. reflexivity.
Qed.

Lemma teacher_symbol_length column batch symbol :
  teacher_symbol column batch = Ok symbol → length symbol = batch.
Proof.
  unfold teacher_symbol. destruct (Nat.eqb_spec (length column) batch) as [E | _].
  - intros [= <-]. exact E.
  - destruct (length column =? 1)%nat; [| discriminate].
    intros [= <-]. apply repeat_length.
Qed.

(** A symbol on which a further step runs has one row per row of logits. *)
Lemma next_symbol_length gt t logits symbol :
  next_symbol gt t true logits = Ok symbol → length symbol = length logits.
Proof.
  unfold next_symbol. destruct gt as [g|].
  - destruct (gt_column g t) as [col|]; [| discriminate]. cbn [rbind].
    apply teacher_symbol_length.
  - intros [= <-]. apply length_map.
Qed.

Lemma greedy_loop_spec gt ts : ∀ symbol states acc logits_list,
  loop gt ts symbol states acc = Ok logits_list →
  length logits_list = (length acc + length ts)%nat ∧
  (Forall (Forall (fun row => length row = units (output_dense self))) acc →
   Forall (Forall (fun row => length row = units (output_dense self))) logits_list).
Proof.
  induction ts as [|t ts IH]; intros symbol states acc logits_list H;
    cbn [greedy_loop] in H.
  - injection H as <-. split; [simpl; lia | tauto].
  - destruct (greedy_step_returns symbol states) as (logits & states' & E & Hrows).
    rewrite E in H. cbn [rbind] in H.
    destruct (next_symbol gt t _ logits) as [symbol'|]; [| discriminate].
    cbn [rbind] in H. apply IH in H as [Hlen Hall].
    rewrite length_app in Hlen. simpl in Hlen. split; [simpl; lia |].
    intros Hacc. apply Hall. apply List.Forall_app. split; [exact Hacc |].
    constructor; [exact Hrows | constructor].
Qed.

(** Without ground truth the loop always returns. *)
Lemma greedy_loop_total ts : ∀ symbol states acc,
  ∃ logits_list, loop None ts symbol states acc = Ok logits_list.
Proof.
  induction ts as [|t ts IH]; intros symbol states acc; cbn [greedy_loop].
  - eauto.
  - destruct (greedy_step_returns symbol states) as (logits & states' & E & _).
    rewrite E. cbn [rbind next_symbol]. apply IH.
Qed.

(** Every step of a run returns the same number of rows of logits. *)
Lemma greedy_loop_uniform gt ts : ∀ symbol states acc logits_list (k : nat),
  Nat.min (Nat.min (length symbol) (length states)) (length features) = k →
  loop gt ts symbol states acc = Ok logits_list →
  Forall (fun m => length m = k) acc → Forall (fun m => length m = k) logits_list.
Proof.
  induction ts as [|t ts IH]; intros symbol states acc logits_list k Hk H Hacc;
    cbn [greedy_loop] in H.
  - injection H as <-. exact Hacc.
  - destruct (step symbol states features) as [[logits states']|] eqn:E; [| discriminate].
    cbn [rbind] in H. apply greedy_step_rows in E as [Hl Hst]. rewrite Hk in Hl.
    assert (Hacc' : Forall (fun m => length m = k) (acc ++ [logits])).
    { apply List.Forall_app. split; [exact Hacc | constructor; [exact Hl | constructor]]. }
    destruct ts as [|t' ts'].
    + destruct (next_symbol gt t false logits) as [symbol'|]; [| discriminate].
      cbn [rbind greedy_loop] in H. injection H as <-. exact Hacc'.
    + destruct (next_symbol gt t true logits) as [symbol'|] eqn:En; [| discriminate].
      cbn [rbind] in H. apply next_symbol_length in En.
      eapply (IH symbol' states'); [| exact H | exact Hacc'].
      rewrite En, Hl, Hst, <- Hk. apply min3_stable.
Qed.


(** The stacked scores of steps that all returned [N] rows: [N] samples,
    one row per step, each row one of the rows the steps returned. *)
Lemma stack_axis1_batch (N n : nat) (L : list (tens 2)) :
  Forall (fun m => length m = N) L →
  Forall (Forall (fun row => length row = n)) L →
  Forall (fun sample => length sample = length L ∧
                        Forall (fun row => length row = n) sample) (stack_axis1 L) ∧
  (L ≠ [] → length (stack_axis1 L) = N).
Proof.
  intros HN Hrows. unfold stack_axis1. split.
  - apply List.Forall_forall. intros sample Hs.
    apply in_map_iff in Hs as (k & <- & Hk). apply in_seq in Hk.
    rewrite length_map. split; [reflexivity |].
    apply List.Forall_forall. intros row Hrow.
    apply in_map_iff in Hrow as (m & <- & Hm).
    rewrite List.Forall_forall in HN, Hrows.
    pose proof (Hrows m Hm) as Hr. rewrite List.Forall_forall in Hr. apply Hr.
    apply nth_In. rewrite (HN m Hm).
    destruct L as [|m0 L']; [contradiction |]. cbn [hd] in Hk.
    rewrite (HN m0 (or_introl eq_refl)) in Hk. lia.
  - intros Hne. rewrite length_map, length_seq.
    destruct L as [|m0 L']; [exfalso; apply Hne; reflexivity |].
    exact (List.Forall_inv HN).
Qed.


(** The scores of the greedy decode: [max_length + 1] rows per sample,
    each with one entry per unit of the output layer; the ids are their
    argmax. *)
Lemma greedy_decode_scores symbol states gt ids scores :
  greedy_decode St lstm_cell exp tanh self symbol states features gt kwargs
  = Ok (ids, scores) →
  ids = List.map (List.map argmax) scores ∧
  length scores = Nat.min (Nat.min (length symbol) (length states)) (length features) ∧
  Forall (fun sample =>
            length sample = (max_length self + 1)%nat ∧
            Forall (fun row => length row = units (output_dense self)) sample) scores.
Proof.
  unfold greedy_decode. intros H.
  destruct (loop gt _ symbol states []) as [L|] eqn:E; [| discriminate].
  cbn [rbind] in H. injection H as <- <-. split; [reflexivity |].
  pose proof (greedy_loop_uniform _ _ _ _ _ _ _ eq_refl E (List.Forall_nil _)) as HN.
  apply greedy_loop_spec in E as [Hlen Hrows]. specialize (Hrows (List.Forall_nil _)).
  rewrite length_seq in Hlen. simpl in Hlen.
  destruct (stack_axis1_batch _ _ L HN Hrows) as [H1 H2].
  split; [apply H2; intros ->; simpl in Hlen; lia |].
  eapply List.Forall_impl; [| exact H1]. cbv beta. intros sample [Hs Hr].
  split; [exact (eq_trans Hs Hlen) | exact Hr].
Qed.

Lemma greedy_decode_total symbol states :
  ∃ ids scores,
    greedy_decode St lstm_cell exp tanh self symbol states features None kwargs
    = Ok (ids, scores).
Proof.
  unfold greedy_decode.
  destruct (greedy_loop_total (seq 0 (max_length self + 1)) symbol states [])
    as [logits_list ->].
  cbn [rbind]. eauto.
Qed.
End GreedyFacts.

(** ** Decoded strings from the greedy decode *)






(** ** The start token *)



(** ** The masked loss *)

Lemma int32_small (z : Z) : (- 2 ^ 31 <= z < 2 ^ 31)%Z → int32 z = z.
Proof. intros H. unfold int32. rewrite Z.mod_small; lia. Qed.

(** The sum of a masked row is the sum of its first [len] entries. *)
Lemma masked_row_sum (len : Z) (row : list Q) : ∀ k,
  (Qsum (zip_with (fun (m : bool) '(a, b) => if m then a else b)
           (List.map (fun t => Z.of_nat t <? len)%Z (seq k (length row)))
           (combine row (List.map (fun _ => 0%Q) row)))
   == Qsum (firstn (Z.to_nat len - k) row))%Q.
Proof.
  induction row as [|x row IH]; intros k.
  - simpl. rewrite firstn_nil. reflexivity.
  - cbn [length seq List.map combine zip_with Qsum fold_right].
    fold (Qsum (zip_with (fun (m : bool) '(a, b) => if m then a else b)
           (List.map (fun t => Z.of_nat t <? len)%Z (seq (S k) (length row)))
           (combine row (List.map (fun _ => 0%Q) row)))).
    rewrite IH. destruct (Z.of_nat k <? len)%Z eqn:E.
    + apply Z.ltb_lt in E.
      replace (Z.to_nat len - k)%nat with (S (Z.to_nat len - S k)) by lia.
      reflexivity.
    + apply Z.ltb_ge in E.
      replace (Z.to_nat len - k)%nat with 0%nat by lia.
      replace (Z.to_nat len - S k)%nat with 0%nat by lia.
      simpl. ring.
Qed.

(** A masked row is exactly zero from position [len] on. *)
Lemma masked_row_zero (len : Z) (row : list Q) : ∀ k t,
  (len <= Z.of_nat (k + t))%Z →
  nth t (zip_with (fun (m : bool) '(a, b) => if m then a else b)
           (List.map (fun t => Z.of_nat t <? len)%Z (seq k (length row)))
           (combine row (List.map (fun _ => 0%Q) row))) 0%Q = 0%Q.
Proof.
  induction row as [|x row IH]; intros k t H.
  - destruct t; reflexivity.
  - cbn [length seq List.map combine zip_with]. destruct t as [|t].
    + simpl. replace (Z.of_nat k <? len)%Z with false; [reflexivity |].
      symmetry. apply Z.ltb_ge. lia.
    + cbn [nth]. apply IH. lia.
Qed.

Lemma bcast_dim_same (n : nat) : bcast_dim n n = Some n.
Proof. unfold bcast_dim. rewrite Nat.eqb_refl. reflexivity. Qed.

Lemma bcast_axis_same {A} (n m : nat) (l : list A) : n = m → bcast_axis n m l = l.
Proof. intros ->. unfold bcast_axis. rewrite Nat.eqb_refl. reflexivity. Qed.

Lemma firstn_zip_with {A B C} (f : A → B → C) (k : nat) (l : list A) (m : list B) :
  firstn k (zip_with f l m) = zip_with f (firstn k l) (firstn k m).
Proof.
  revert k m. induction l as [|x l IH]; intros [|k] [|y m]; simpl; try reflexivity.
  rewrite IH. reflexivity.
Qed.

Lemma zip_with_map_l {A A' B C} (f : A' → B → C) (g : A → A') (l : list A) (m : list B) :
  zip_with f (List.map g l) m = zip_with (fun x y => f (g x) y) l m.
Proof.
  revert m. induction l as [|x l IH]; intros [|y m]; simpl; try reflexivity.
  rewrite IH. reflexivity.
Qed.

Lemma zip_with_map_r {A B B' C} (f : A → B' → C) (g : B → B') (l : list A) (m : list B) :
  zip_with f l (List.map g m) = zip_with (fun x y => f x (g y)) l m.
Proof.
  revert m. induction l as [|x l IH]; intros [|y m]; simpl; try reflexivity.
  rewrite IH. reflexivity.
Qed.

(** Cutting both arguments to the length of the second changes nothing. *)
Lemma zip_with_firstn_length {A B C} (f : A → B → C) (l : list A) (m : list B) :
  zip_with f (firstn (length m) l) (firstn (length m) m) = zip_with f l m.
Proof.
  revert l. induction m as [|y m IH]; intros [|x l]; simpl; try reflexivity.
  rewrite IH. reflexivity.
Qed.

Lemma zip_rows_combine {A B C} (f : list A → list B → C) (l : list (list A))
    (m : list (list B)) :
  zip_with f l m = List.map (fun '(a, b) => f a b) (combine l m).
Proof.
  revert m. induction l as [|a l IH]; intros [|b m]; simpl; try reflexivity.
  rewrite IH. reflexivity.
Qed.

Lemma concat_length_rows {A B} (a : list (list A)) (b : list (list B)) :
  Forall2 (fun ra rb => length ra = length rb) a b →
  length (concat a) = length (concat b).
Proof.
  induction 1 as [|ra rb a b Hr _ IH]; [reflexivity |].
  cbn [concat]. rewrite !length_app. congruence.
Qed.

(** Flattening two tensors of one shape, combining them row by row and
    reshaping the result is the row-wise combination. *)
Lemma reshape_like_zip {A B C} (f : A → B → C) (a : list (list A)) (b : list (list B)) :
  Forall2 (fun ra rb => length ra = length rb) a b →
  reshape_like b (zip_with f (concat a) (concat b)) = zip_with (zip_with f) a b.
Proof.
  induction 1 as [|ra rb a b Hr _ IH]; [reflexivity |].
  cbn [concat reshape_like zip_with].
  assert (E : zip_with f (ra ++ concat a)%list (rb ++ concat b)%list
              = (zip_with f ra rb ++ zip_with f (concat a) (concat b))%list).
  { clear IH. revert rb Hr. induction ra as [|x ra IHr]; intros [|y rb] Hr;
      try discriminate; [reflexivity |].
    cbn [app zip_with]. f_equal. apply IHr. simpl in Hr. congruence. }
  rewrite E.
  assert (L : length rb = length (zip_with f ra rb)).
  { rewrite length_zip_with. lia. }
  rewrite L at 1. rewrite firstn_app, Nat.sub_diag, firstn_all, firstn_O, app_nil_r.
  f_equal. rewrite L, skipn_app, Nat.sub_diag, skipn_all. exact IH.
Qed.

(** Labels of the shape of the logits, with as many classes: no
    broadcasting takes place. *)
Lemma softmax_cross_entropy_same_shape (sce : list Q → list Q → Q) (C : nat)
    (labels logits : tens 3) :
  same_shape2 labels logits = true →
  softmax_cross_entropy sce C C labels logits = Ok (zip_with (zip_with sce) labels logits).
Proof.
  intros Hs. apply same_shape2_Forall2 in Hs. unfold softmax_cross_entropy.
  rewrite (concat_length_rows _ _ Hs), !bcast_dim_same, Nat.eqb_refl.
  rewrite !bcast_axis_same by reflexivity.
  assert (Hid : ∀ l : list (list Q), List.map (bcast_axis C C) l = l).
  { intros l. rewrite <- (List.map_id l) at 2. apply List.map_ext. intros v.
    apply bcast_axis_same. reflexivity. }
  rewrite !Hid. f_equal. apply reshape_like_zip. exact Hs.
Qed.

Lemma same_shape2_map_l {A B C} (f : A → C) (a : list (list A)) (b : list (list B)) :
  same_shape2 (List.map (List.map f) a) b = same_shape2 a b.
Proof.
  unfold same_shape2. rewrite length_map. f_equal.
  revert b. induction a as [|ra a IH]; intros [|rb b]; simpl; try reflexivity.
  rewrite length_map, IH. reflexivity.
Qed.

(** The per-timestep terms of the logits path on labels of the shape of the
    logits: the cross-entropy of every timestep's logits with the label of
    its ground-truth id. *)
Lemma per_timestep_loss_logits
    (sce cce : list Q → list Q → Q) (exp : Q → Q) (logits : tens 3)
    (gt : list (list Z)) (kwargs : gmap string pyval) :
  let C := length (hd [] (hd [] logits)) in
  let label := fun i : Z =>
    match kwargs_get kwargs "conf_matrix" with
    | PyTensor 2 conf_matrix => vecmat (one_hot C i) conf_matrix
    | _ => one_hot C i
    end in
  match kwargs_get kwargs "conf_matrix" with
  | PyNone => True
  | PyTensor 2 conf_matrix =>
      length conf_matrix = C ∧ Forall (fun row => length row = C) conf_matrix
  | _ => False
  end →
  same_shape2 gt logits = true →
  per_timestep_loss sce cce exp (mkAnyTensor 3 logits) gt true kwargs
  = Ok (List.map (fun '(ids, sample) => zip_with (fun i l => sce (label i) l) ids sample)
          (combine gt logits),
        length (hd [] logits)).
Proof.
  intros C label Hconf Hs. cbn [per_timestep_loss]. fold C.
  assert (Hrows : ∀ (g : Z → list Q),
            zip_with (zip_with sce) (List.map (List.map g) gt) logits
            = List.map (fun '(ids, sample) => zip_with (fun i l => sce (g i) l) ids sample)
                (combine gt logits)).
  { intros g. rewrite zip_rows_combine.
    clear. revert logits. induction gt as [|ids gt IH]; intros [|sample logits];
      cbn [List.map combine]; try reflexivity.
    rewrite zip_with_map_l, IH. reflexivity. }
  subst label.
  destruct (kwargs_get kwargs "conf_matrix") as [| | | | | | |[|[|[|r]]] m| |];
    try contradiction; cbn [smooth_labels rbind].
  - rewrite softmax_cross_entropy_same_shape by (rewrite same_shape2_map_l; exact Hs).
    cbn [rbind]. rewrite Hrows. reflexivity.
  - destruct Hconf as [Hm Hrows']. rewrite Hm, Nat.eqb_refl. cbn [rbind].
    assert (Hk : length (hd [] m) = C).
    { destruct m as [|r0 m']; [exact Hm | exact (List.Forall_inv Hrows')]. }
    rewrite Hk.
    rewrite List.map_map.
    rewrite (List.map_ext (fun x => List.map (fun v => vecmat v m) (List.map (one_hot C) x))
               (List.map (fun i => vecmat (one_hot C i) m)))
      by (intros x; apply List.map_map).
    rewrite softmax_cross_entropy_same_shape by (rewrite same_shape2_map_l; exact Hs).
    cbn [rbind]. rewrite Hrows. reflexivity.
Qed.

Lemma probability_rows (cce : list Q → list Q → Q) (exp : Q → Q) (T C : nat)
    (gt : list (list Z)) (scores : list (list (list (list Q)))) :
  length gt = length scores →
  Forall (fun sample => length (nth 0 sample []) = T) scores →
  Forall (fun ids => (T <= length ids)%nat) gt →
  let y_true := List.map (firstn T) (List.map (List.map (one_hot C)) gt) in
  let y_pred :=
    List.map (firstn T)
      (List.map (List.map (List.map exp))
         (List.map (fun s : list (list (list Q)) => nth 0 s []) scores)) in
  same_shape2 y_true y_pred = true ∧
  zip_with (zip_with cce) y_true y_pred
  = List.map (fun '(ids, sample) =>
                zip_with (fun i p => cce (one_hot C i) (List.map exp p))
                         ids (nth 0 sample []))
      (combine gt scores).
Proof.
  intros Hlen Hsc Hgt y_true y_pred. subst y_true y_pred.
  rewrite same_shape2_Forall2, zip_rows_combine.
  revert scores Hlen Hsc.
  induction Hgt as [|ids gt Hids _ IH]; intros [|sample scores] Hlen Hsc;
    try discriminate; cbn [List.map combine]; [split; [constructor | reflexivity] |].
  pose proof (List.Forall_inv Hsc) as Hs. cbv beta in Hs.
  destruct (IH scores) as [IH1 IH2];
    [simpl in Hlen; congruence | exact (List.Forall_inv_tail Hsc) |].
  split.
  - constructor; [| exact IH1]. rewrite !length_firstn, !length_map, Hs. lia.
  - f_equal; [| exact IH2].
    rewrite !firstn_map, zip_with_map_l, zip_with_map_r. rewrite <- Hs.
    apply zip_with_firstn_length.
Qed.

(** The per-timestep terms of the probability path: the top sequence of
    every sample against the first [T] labels. *)
Lemma per_timestep_loss_probabilities
    (sce cce : list Q → list Q → Q) (exp : Q → Q) (scores : tens 4)
    (gt : list (list Z)) (kwargs : gmap string pyval) :
  let T := length (hd [] (hd [] scores)) in
  let C := length (hd [] (hd [] (hd [] scores))) in
  length gt = length scores →
  Forall (fun sample => (0 < length sample)%nat ∧ length (nth 0 sample []) = T) scores →
  Forall (fun ids => (T <= length ids)%nat) gt →
  per_timestep_loss sce cce exp (mkAnyTensor 4 scores) gt false kwargs
  = Ok (List.map (fun '(ids, sample) =>
                    zip_with (fun i p => cce (one_hot C i) (List.map exp p))
                             ids (nth 0 sample []))
          (combine gt scores), T).
Proof.
  intros T C Hlen Hsc Hgt. cbn [per_timestep_loss]. fold T C.
  assert (Hne : forallb (fun s : list (list (list Q)) => negb (Nat.eqb (length s) 0)) scores
                = true).
  { apply forallb_forall. intros s Hin. rewrite List.Forall_forall in Hsc.
    destruct (Hsc _ Hin) as [Hpos _]. apply negb_true_iff, Nat.eqb_neq. lia. }
  rewrite Hne.
  destruct (probability_rows cce exp T C gt scores Hlen) as [Hshape Hrows];
    [eapply List.Forall_impl; [| exact Hsc]; cbv beta; tauto | exact Hgt |].
  rewrite Hshape, Hrows. reflexivity.
Qed.

Lemma Forall2_in_combine {A B} (R : A → B → Prop) (l : list A) (m : list B) (a : A) (b : B) :
  Forall2 R l m → In (a, b) (combine l m) → R a b.
Proof.
  induction 1 as [|x y l m Hxy _ IH]; [contradiction |].
  intros [[= -> ->] | Hin]; [exact Hxy | exact (IH Hin)].
Qed.

(** What [compute_loss] returns for one sample, from the per-timestep
    terms [term i l] of its ids and rows of scores: a single number, the
    sum of the terms of the first [s + 1] timesteps over [s + 1]; this is
    the sum of the masked terms, which are zero from timestep [s + 1] on;
    for [s = 0] it is the term of timestep 0. *)
Lemma masked_mean_rows {X : Type} (g : X → list Q) (xs : list X) (T : nat)
    (seq_len : list Z) :
  length xs = length seq_len →
  Forall (fun x => length (g x) = T) xs →
  Forall (fun s => 0 <= s < 2 ^ 31 - 1)%Z seq_len →
  ∃ out,
    masked_mean (List.map g xs) T seq_len = Ok out ∧
    Forall2 (fun '(x, s) o =>
      let masked := where1 (mask_row (s + 1) T) (g x) (List.map (fun _ => 0%Q) (g x)) in
      ∃ v, o = [v] ∧
        (v == Qsum (firstn (Z.to_nat (s + 1)) (g x)) / inject_Z (s + 1))%Q ∧
        (v == Qsum masked / inject_Z (s + 1))%Q ∧
        (∀ t, (s + 1 <= Z.of_nat t)%Z → nth t masked 0%Q = 0%Q))
      (combine xs seq_len) out.
Proof.
  intros Hlen Hrows Hseq. unfold masked_mean.
  assert (Hm : length (sequence_mask (List.map (fun s => int32 (s + 1)) seq_len) T)
               = length (List.map g xs)).
  { unfold sequence_mask. rewrite !length_map. congruence. }
  rewrite Hm, bcast_dim_same.
  assert (Hcols : forallb (fun row : list Q => Nat.eqb (length row) T) (List.map g xs) = true).
  { apply forallb_forall. intros row Hin. apply in_map_iff in Hin as (x & <- & Hx).
    rewrite List.Forall_forall in Hrows. apply Nat.eqb_eq. auto. }
  rewrite Hcols.
  rewrite !bcast_axis_same by (rewrite ?length_map; congruence).
  eexists. split; [reflexivity |]. clear Hm Hcols.
  unfold where2, sequence_mask. rewrite !List.map_map.
  revert seq_len Hlen Hseq.
  induction Hrows as [|x xs Hrow _ IH]; intros [|s seq_len] Hlen Hseq; try discriminate.
  - constructor.
  - pose proof (List.Forall_inv Hseq) as Hs. pose proof (List.Forall_inv_tail Hseq) as Hseq'.
    cbn beta in Hs. simpl in Hlen. injection Hlen as Hlen.
    cbn [List.map combine zip_with].
    constructor; [| exact (IH _ Hlen Hseq')].
    rewrite (int32_small (s + 1)) by lia. cbv zeta.
    eexists. split; [reflexivity |].
    unfold where1, mask_row. rewrite <- Hrow.
    split; [| split].
    + rewrite masked_row_sum. rewrite Nat.sub_0_r. reflexivity.
    + reflexivity.
    + intros t Ht. apply masked_row_zero. simpl. exact Ht.
Qed.

(** The mean over the first timestep alone is its term. *)
Lemma first_term_mean {A B} (term : A → B → Q) (ids : list A) (rows : list B)
    (i : A) (l : B) (v : Q) :
  (v == Qsum (zip_with term (firstn 1 ids) (firstn 1 rows)) / 1)%Q →
  hd_error ids = Some i → hd_error rows = Some l → (v == term i l)%Q.
Proof.
  intros Hv Hi Hl. destruct ids as [|i' ids]; [discriminate |].
  destruct rows as [|l' rows]; [discriminate |].
  injection Hi as ->. injection Hl as ->. rewrite Hv.
  cbn [firstn zip_with Qsum fold_right]. rewrite firstn_O.
  destruct (firstn 0 rows); cbn [zip_with fold_right]; field.
Qed.

(** C2. [compute_loss] returns one entry per sample, each a single number:
    the sum of the per-timestep cross-entropy terms of the first
    [seq_len[n] + 1] timesteps divided by [seq_len[n] + 1]. The terms of
    the later timesteps are masked to exactly zero before the sum, so the
    loss is a function of the ids and scores of the first [seq_len[n] + 1]
    timesteps alone; for [seq_len[n] = 0] it is the term of timestep 0.
    This holds on (N, T, C) logits, C > 0, with (N, T) ids, where the term
    of a timestep is the cross-entropy of its logits with the one-hot label
    of its id (its row of [conf_matrix] under label smoothing), and on
    (N, B, T, C) beam scores with (N, T') ids, T <= T', without
    [from_logits], where the terms are those of the top sequence. *)
Theorem C2_loss_is_masked_mean
    (softmax_cross_entropy_with_logits categorical_crossentropy : list Q → list Q → Q)
    (exp : Q → Q) (gt : list (list Z)) (seq_len : list Z) :
  length seq_len = length gt →
  Forall (fun s => 0 <= s < 2 ^ 31 - 1)%Z seq_len →
  let sample_loss :=
    fun (T : nat) (term : Z → list Q → Q) (ids : list Z) (rows : list (list Q)) (s : Z)
        (o : list Q) =>
      let k := Z.to_nat (s + 1) in
      let terms := zip_with term ids rows in
      let masked := where1 (mask_row (s + 1) T) terms (List.map (fun _ => 0%Q) terms) in
      ∃ v, o = [v] ∧
        (v == Qsum (zip_with term (firstn k ids) (firstn k rows)) / inject_Z (s + 1))%Q ∧
        (v == Qsum masked / inject_Z (s + 1))%Q ∧
        (∀ t, (s + 1 <= Z.of_nat t)%Z → nth t masked 0%Q = 0%Q) ∧
        (s = 0%Z → ∀ i l, hd_error ids = Some i → hd_error rows = Some l →
                   (v == term i l)%Q) in
  (∀ (logits : tens 3) (kwargs : gmap string pyval),
     let T := length (hd [] logits) in
     let C := length (hd [] (hd [] logits)) in
     let label := fun i : Z =>
       match kwargs_get kwargs "conf_matrix" with
       | PyTensor 2 conf_matrix => vecmat (one_hot C i) conf_matrix
       | _ => one_hot C i
       end in
     match kwargs_get kwargs "conf_matrix" with
     | PyNone => True
     | PyTensor 2 conf_matrix =>
         length conf_matrix = C ∧ Forall (fun row => length row = C) conf_matrix
     | _ => False
     end →
     same_shape2 gt logits = true →
     Forall (fun sample => length sample = T) logits →
     Forall (Forall (fun l : list Q => l ≠ [])) logits →
     ∃ out,
       compute_loss softmax_cross_entropy_with_logits categorical_crossentropy exp
         (mkAnyTensor 3 logits) gt seq_len true kwargs = Ok out ∧
       length out = length logits ∧
       Forall2 (fun '(ids, sample, s) o =>
                  sample_loss T (fun i l => softmax_cross_entropy_with_logits (label i) l)
                    ids sample s o)
               (combine (combine gt logits) seq_len) out) ∧
  (∀ (scores : tens 4) (kwargs : gmap string pyval),
     let T := length (hd [] (hd [] scores)) in
     let C := length (hd [] (hd [] (hd [] scores))) in
     length scores = length gt →
     Forall (fun sample => (0 < length sample)%nat ∧ length (nth 0 sample []) = T) scores →
     Forall (fun ids => (T <= length ids)%nat) gt →
     ∃ out,
       compute_loss softmax_cross_entropy_with_logits categorical_crossentropy exp
         (mkAnyTensor 4 scores) gt seq_len false kwargs = Ok out ∧
       length out = length scores ∧
       Forall2 (fun '(ids, sample, s) o =>
                  sample_loss T
                    (fun i p => categorical_crossentropy (one_hot C i) (List.map exp p))
                    ids (nth 0 sample []) s o)
               (combine (combine gt scores) seq_len) out).
Proof.
  intros Hlen Hseq sample_loss.
  assert (Hfinish : ∀ (S : Type) (T : nat) (term : Z → list Q → Q)
                      (top : S → list (list Q)) (xs : list (list Z * S))
                      (out : list (list Q)),
            Forall2 (fun '(x, s) o =>
              let g := fun '(ids, sample) => zip_with term ids (top sample) in
              let masked := where1 (mask_row (s + 1) T) (g x) (List.map (fun _ => 0%Q) (g x)) in
              ∃ v, o = [v] ∧
                (v == Qsum (firstn (Z.to_nat (s + 1)) (g x)) / inject_Z (s + 1))%Q ∧
                (v == Qsum masked / inject_Z (s + 1))%Q ∧
                (∀ t, (s + 1 <= Z.of_nat t)%Z → nth t masked 0%Q = 0%Q))
              (combine xs seq_len) out →
            Forall2 (fun '(ids, sample, s) o => sample_loss T term ids (top sample) s o)
              (combine xs seq_len) out).
  { intros S T term top xs out H. eapply Forall2_impl; [exact H |].
    intros [[ids sample] s] o (v & Ho & Hv & Hm & Hz). cbv zeta in *.
    rewrite firstn_zip_with in Hv.
    exists v. split; [exact Ho |]. split; [exact Hv |]. split; [exact Hm |].
    split; [exact Hz |]. intros ->. intros i l Hi Hl.
    exact (first_term_mean term ids (top sample) i l v Hv Hi Hl). }
  split.
  - intros logits kwargs T C label Hconf Hshape Hrows _.
    pose proof (proj1 (same_shape2_Forall2 _ _) Hshape) as HF.
    pose proof (Forall2_length _ _ _ HF) as HN.
    unfold compute_loss.
    rewrite (per_timestep_loss_logits _ _ _ _ _ _ Hconf Hshape). cbn [rbind].
    fold T C label.
    destruct (masked_mean_rows
                (fun '(ids, sample) =>
                   zip_with (fun i l => softmax_cross_entropy_with_logits (label i) l)
                     ids sample)
                (combine gt logits) T seq_len) as (out & Hout & Hall).
    + rewrite length_combine. lia.
    + apply List.Forall_forall. intros [ids sample] Hin.
      rewrite length_zip_with.
      pose proof (in_combine_r _ _ _ _ Hin) as Hsample.
      rewrite List.Forall_forall in Hrows. rewrite (Hrows _ Hsample).
      pose proof (Forall2_in_combine _ _ _ _ _ HF Hin) as Hi. cbv beta in Hi.
      rewrite Hi, (Hrows _ Hsample). apply Nat.min_id.
    + exact Hseq.
    + exists out. split; [exact Hout |]. split.
      * apply Forall2_length in Hall. rewrite <- Hall, length_combine, length_combine. lia.
      * apply (Hfinish _ T _ (fun sample => sample)). exact Hall.
  - intros scores kwargs T C Hscores Hsc Hgt.
    unfold compute_loss.
    rewrite (per_timestep_loss_probabilities _ _ _ _ _ kwargs (eq_sym Hscores) Hsc Hgt).
    cbn [rbind]. fold T C.
    destruct (masked_mean_rows
                (fun '(ids, sample) =>
                   zip_with (fun i p => categorical_crossentropy (one_hot C i) (List.map exp p))
                     ids (nth 0 sample []))
                (combine gt scores) T seq_len) as (out & Hout & Hall).
    + rewrite length_combine. lia.
    + apply List.Forall_forall. intros [ids sample] Hin.
      rewrite length_zip_with.
      pose proof (in_combine_l _ _ _ _ Hin) as Hi.
      pose proof (in_combine_r _ _ _ _ Hin) as Hs.
      rewrite List.Forall_forall in Hsc, Hgt.
      destruct (Hsc _ Hs) as [_ Ht]. specialize (Hgt _ Hi). lia.
    + exact Hseq.
    + exists out. split; [exact Hout |]. split.
      * apply Forall2_length in Hall. rewrite <- Hall, length_combine, length_combine. lia.
      * apply (Hfinish _ T _ (fun sample => nth 0 sample [])). exact Hall.
Qed.

Lemma C2_witness :
  ∃ out,
    compute_loss ce1 ce1 exp1
      (mkAnyTensor 3 [[[1; 0]; [0; 1]; [1; 5]]; [[2; 3]; [0; 1]; [4; 4]]]%Q)
      [[0; 1; 1]; [1; 0; 0]]%Z [1; 0]%Z true ∅ = Ok out ∧
    length out = 2%nat ∧
    Forall2 (fun '(ids, sample, s) o =>
               ∃ v, o = [v] ∧
                 (v == Qsum (zip_with (fun i l => ce1 (one_hot 2 i) l)
                               (firstn (Z.to_nat (s + 1)) ids)
                               (firstn (Z.to_nat (s + 1)) sample))
                       / inject_Z (s + 1))%Q ∧
                 (s = 0%Z → ∀ i l, hd_error ids = Some i → hd_error sample = Some l →
                            (v == ce1 (one_hot 2 i) l)%Q))
            (combine (combine [[0; 1; 1]; [1; 0; 0]]%Z
                        [[[1; 0]; [0; 1]; [1; 5]]; [[2; 3]; [0; 1]; [4; 4]]]%Q)
                     [1; 0]%Z) out.
Proof.
  assert (Hseq : Forall (fun s => 0 <= s < 2 ^ 31 - 1)%Z [1; 0]%Z)
    by (repeat constructor; lia).
  assert (Hrows : Forall (fun sample : list (list Q) => length sample = 3%nat)
                    [[[1; 0]; [0; 1]; [1; 5]]; [[2; 3]; [0; 1]; [4; 4]]]%Q)
    by (repeat constructor).
  assert (Hcls : Forall (Forall (fun l : list Q => l ≠ []))
                   [[[1; 0]; [0; 1]; [1; 5]]; [[2; 3]; [0; 1]; [4; 4]]]%Q)
    by (repeat constructor; discriminate).
  pose proof (proj1 (C2_loss_is_masked_mean ce1 ce1 exp1 [[0; 1; 1]; [1; 0; 0]]%Z [1; 0]%Z
                       eq_refl Hseq)
                [[[1; 0]; [0; 1]; [1; 5]]; [[2; 3]; [0; 1]; [4; 4]]]%Q ∅) as H.
  cbv zeta in H.
  destruct H as (out & Hout & Hlen & Hall);
    [vm_compute; exact I | reflexivity | exact Hrows | exact Hcls |].
  exists out. split; [exact Hout |]. split; [exact Hlen |].
  eapply Forall2_impl; [exact Hall |].
  intros [[ids sample] s] o (v & Ho & Hv & _ & _ & H0).
  exists v. split; [exact Ho |]. split; [exact Hv | exact H0].
Defined.

Example compute_loss_run :
  compute_loss ce1 ce1 exp1
    (mkAnyTensor 3 [[[1; 0]; [0; 1]; [1; 5]]; [[2; 3]; [0; 1]; [4; 4]]]%Q)
    [[0; 1; 1]; [1; 0; 0]]%Z [1; 0]%Z true ∅ = Ok [[2 # 2]; [3]]%Q.
Proof. vm_compute. reflexivity. Qed.

(** The top sequence of beam scores against labels cut to its length. *)
Example compute_loss_probabilities_run :
  compute_loss ce1 ce1 exp1
    (mkAnyTensor 4 [[[[1; 0]; [0; 1]]; [[7; 7]; [7; 7]]];
                    [[[2; 3]; [0; 1]]; [[7; 7]; [7; 7]]]]%Q)
    [[0; 1; 0]; [1; 1; 0]]%Z [1; 0]%Z false ∅ = Ok [[4 # 2]; [10]]%Q.
Proof. vm_compute. reflexivity. Qed.

(** A single label is broadcast over the timesteps of the logits, and a
    single length over the samples. *)
Example compute_loss_broadcast_labels_run :
  compute_loss ce1 ce1 exp1 (mkAnyTensor 3 [[[1; 0]; [0; 1]]; [[2; 3]; [0; 1]]]%Q)
    [[0]]%Z [1; 0]%Z true ∅ = Ok [[1 # 2]; [2]]%Q.
Proof. vm_compute. reflexivity. Qed.

Example compute_loss_broadcast_lengths_run :
  compute_loss ce1 ce1 exp1 (mkAnyTensor 3 [[[1; 0]; [0; 1]]; [[2; 3]; [0; 1]]]%Q)
    [[0; 1]; [1; 1]]%Z [1]%Z true ∅ = Ok [[2 # 2]; [4 # 2]]%Q.
Proof. vm_compute. reflexivity. Qed.

(** Labels that cannot be broadcast against the logits, and lengths that
    cannot be broadcast against the samples, are rejected by the framework;
    labels shorter than the top sequence by Keras. *)
Example compute_loss_labels_mismatch_run :
  compute_loss ce1 ce1 exp1 (mkAnyTensor 3 [[[1; 0]; [0; 1]]; [[2; 3]; [0; 1]]]%Q)
    [[0; 1]]%Z [1; 0]%Z true ∅
  = Raise (InvalidArgumentError "logits and labels must be broadcastable").
Proof. vm_compute. reflexivity. Qed.

Example compute_loss_lengths_mismatch_run :
  compute_loss ce1 ce1 exp1 (mkAnyTensor 3 [[[1; 0]; [0; 1]]; [[2; 3]; [0; 1]]]%Q)
    [[0; 1]; [1; 1]]%Z [1; 0; 0]%Z true ∅
  = Raise (InvalidArgumentError "incompatible shapes").
Proof. vm_compute. reflexivity. Qed.

Example compute_loss_keras_mismatch_run :
  compute_loss ce1 ce1 exp1
    (mkAnyTensor 4 [[[[1; 0]; [0; 1]]; [[7; 7]; [7; 7]]];
                    [[[2; 3]; [0; 1]]; [[7; 7]; [7; 7]]]]%Q)
    [[0]; [1]]%Z [1; 0]%Z false ∅ = Raise (ValueError "Shapes are incompatible").
Proof. vm_compute. reflexivity. Qed.

(** ** Attention over a zero feature map *)

Lemma map_seq_const {A} (f : nat → A) (c : A) (k n : nat) :
  (∀ i, (k <= i < k + n)%nat → f i = c) → List.map f (seq k n) = repeat c n.
Proof.
  revert k. induction n as [|n IH]; intros k H; simpl; [reflexivity |].
  rewrite H by lia. rewrite IH; [reflexivity |]. intros i Hi. apply H. lia.
Qed.

Lemma nth_repeat_lt {A} (a d : A) (n i : nat) : (i < n)%nat → nth i (repeat a n) d = a.
Proof.
  revert i. induction n as [|n IH]; intros [|i] H; simpl; try lia; try reflexivity.
  apply IH. lia.
Qed.

Lemma zip_with_repeat {A B C} (f : A → B → C) (a : A) (b : B) (n : nat) :
  zip_with f (repeat a n) (repeat b n) = repeat (f a b) n.
Proof. induction n as [|n IH]; simpl; congruence. Qed.

Lemma concat_repeat {A} (a : A) (W H : nat) :
  concat (repeat (repeat a W) H) = repeat a (H * W).
Proof.
  induction H as [|H IH]; simpl; [reflexivity |].
  rewrite IH, repeat_app. reflexivity.
Qed.

Lemma concat_repeat_singleton {A} (a : A) (n : nat) :
  concat (repeat [a] n) = repeat a n.
Proof. induction n as [|n IH]; simpl; congruence. Qed.

Lemma Qsum_repeat (e : Q) (n : nat) :
  (Qsum (repeat e n) == inject_Z (Z.of_nat n) * e)%Q.
Proof.
  induction n as [|n IH].
  - simpl. ring.
  - cbn [repeat Qsum fold_right]. fold (Qsum (repeat e n)). rewrite IH.
    rewrite Nat2Z.inj_succ. unfold Z.succ. rewrite inject_Z_plus. ring.
Qed.

Lemma Qsum_zero (l : list Q) : Forall (fun x => x == 0)%Q l → (Qsum l == 0)%Q.
Proof.
  induction 1 as [|x l Hx _ IH]; simpl; [reflexivity |].
  fold (Qsum l). rewrite Hx, IH. ring.
Qed.

Section ConstantMaps.
Variables H W : nat.
Hypothesis HH : (0 < H)%nat.
Hypothesis HW : (0 < W)%nat.

(** A map with the same pixel [p] at every location. *)
Local Abbreviation const_map p := (repeat (repeat p W) H : tens 3).

Lemma const_map_dims (p : list Q) :
  height (const_map p) = H ∧ width (const_map p) = W ∧
  channels (const_map p) = length p.
Proof.
  unfold height, width, channels. rewrite repeat_length.
  destruct H as [|H']; [lia |]. destruct W as [|W']; [lia |]. simpl.
  rewrite repeat_length. auto.
Qed.

Lemma pixel_const_in (p : list Q) (h w : Z) :
  (0 <= h < Z.of_nat H)%Z → (0 <= w < Z.of_nat W)%Z → pixel (const_map p) h w = p.
Proof.
  intros Hh Hw. unfold pixel.
  destruct (const_map_dims p) as (-> & -> & _).
  replace ((0 <=? h)%Z && (h <? Z.of_nat H)%Z && (0 <=? w)%Z && (w <? Z.of_nat W)%Z)
    with true.
  - rewrite (nth_repeat_lt _ _ H) by lia. apply nth_repeat_lt. lia.
  - symmetry. rewrite !andb_true_iff, !Z.leb_le, !Z.ltb_lt. lia.
Qed.

(** Zero padding around a zero map: every pixel read is the zero vector. *)
Lemma pixel_zero (D : nat) (h w : Z) :
  pixel (const_map (repeat 0%Q D)) h w = repeat 0%Q D.
Proof.
  unfold pixel. destruct (const_map_dims (repeat 0%Q D)) as (E1 & E2 & E3).
  rewrite E1, E2, E3, repeat_length.
  destruct ((0 <=? h)%Z && (h <? Z.of_nat H)%Z && (0 <=? w)%Z && (w <? Z.of_nat W)%Z)
    eqn:E; [| reflexivity].
  rewrite !andb_true_iff, !Z.leb_le, !Z.ltb_lt in E.
  rewrite (nth_repeat_lt _ _ H) by lia. apply nth_repeat_lt. lia.
Qed.

(** A convolution of the zero map is the same at every location. *)
Lemma conv_zero_const (L : Conv2D) (D : nat) :
  conv2d_call L (const_map (repeat 0%Q D))
  = const_map (conv_at L (const_map (repeat 0%Q D)) 0 0).
Proof.
  unfold conv2d_call. destruct (const_map_dims (repeat 0%Q D)) as (-> & -> & _).
  apply map_seq_const. intros h _. apply map_seq_const. intros w _.
  unfold conv_at. apply map_ext. intros a.
  assert (E : ∀ h w,
    Qsum (List.map (fun i => Qsum (List.map (fun j =>
      dot (pixel (const_map (repeat 0%Q D))
             (Z.of_nat h + Z.of_nat i - Z.of_nat ((kernel_size L - 1) / 2))
             (Z.of_nat w + Z.of_nat j - Z.of_nat ((kernel_size L - 1) / 2)))
          (column a (nth j (nth i (conv_kernel L) []) [])))
      (seq 0 (kernel_size L)))) (seq 0 (kernel_size L)))
    = Qsum (List.map (fun i => Qsum (List.map (fun j =>
      dot (repeat 0%Q D) (column a (nth j (nth i (conv_kernel L) []) [])))
      (seq 0 (kernel_size L)))) (seq 0 (kernel_size L)))).
  { intros h' w'. f_equal. apply map_ext. intros i. f_equal. apply map_ext. intros j.
    rewrite pixel_zero. reflexivity. }
  cbv zeta. rewrite (E h w), (E 0%nat 0%nat). reflexivity.
Qed.

(** A 1x1 convolution of a constant map is constant. *)
Lemma conv1x1_const (L : Conv2D) (p : list Q) :
  kernel_size L = 1%nat →
  conv2d_call L (const_map p) = const_map (conv_at L (const_map p) 0 0).
Proof.
  intros Hk. unfold conv2d_call. destruct (const_map_dims p) as (-> & -> & _).
  apply map_seq_const. intros h Hh. apply map_seq_const. intros w Hw.
  unfold conv_at. rewrite Hk. change ((1 - 1) / 2)%nat with 0%nat.
  cbn [seq List.map]. apply map_ext. intros a.
  cbv zeta. rewrite !pixel_const_in by lia. reflexivity.
Qed.

Lemma broadcast_add_const (hv p : list Q) :
  broadcast_add [[hv]] (const_map p) = const_map (zip_with Qplus hv p).
Proof.
  unfold broadcast_add. rewrite repeat_length. cbn [length].
  replace (Nat.max 1 H) with H by lia.
  apply map_seq_const. intros h Hh.
  assert (Eb : bget (const_map p) h [] = repeat p W).
  { unfold bget. rewrite repeat_length.
    destruct (H =? 1)%nat; apply nth_repeat_lt; lia. }
  cbv zeta. rewrite Eb. change (bget [[hv]] h []) with [hv].
  rewrite repeat_length. cbn [length]. replace (Nat.max 1 W) with W by lia.
  apply map_seq_const. intros w Hw. change (bget [hv] w []) with hv.
  f_equal. unfold bget. rewrite repeat_length.
  destruct (W =? 1)%nat; apply nth_repeat_lt; lia.
Qed.

Lemma map_const_map (f : list Q → list Q) (p : list Q) :
  List.map (List.map f) (const_map p) = const_map (f p).
Proof. rewrite !map_repeat. reflexivity. Qed.

Lemma reshape_hw1_const (a : Q) :
  reshape_hw1 H W (repeat a (H * W)) = const_map [a].
Proof.
  unfold reshape_hw1. apply map_seq_const. intros h Hh.
  apply map_seq_const. intros w Hw. f_equal. apply nth_repeat_lt. nia.
Qed.

Lemma multiply_map_const (p : list Q) (a : Q) :
  multiply_map (const_map p) (const_map [a])
  = const_map (List.map (fun x => (x * a)%Q) p).
Proof. unfold multiply_map. rewrite !zip_with_repeat. reflexivity. Qed.

Lemma reduce_sum_zero (D : nat) (p : list Q) :
  Forall (fun x => x == 0)%Q p →
  Forall (fun x => x == 0)%Q (reduce_sum_hw D (const_map p)).
Proof.
  intros Hp. unfold reduce_sum_hw. apply List.Forall_forall. intros x Hx.
  apply in_map_iff in Hx as (d & <- & _).
  apply Qsum_zero. apply List.Forall_forall. intros y Hy.
  apply in_map_iff in Hy as (row & <- & Hrow). apply repeat_spec in Hrow. subst row.
  apply Qsum_zero. apply List.Forall_forall. intros z Hz.
  apply in_map_iff in Hz as (px & <- & Hpx). apply repeat_spec in Hpx. subst px.
  destruct (Nat.lt_ge_cases d (length p)) as [Hd | Hd].
  - rewrite List.Forall_forall in Hp. apply Hp. apply nth_In. exact Hd.
  - rewrite nth_overflow by exact Hd. reflexivity.
Qed.
End ConstantMaps.

Lemma Forall2_Qeq_zero (l l' : list Q) :
  length l = length l' →
  Forall (fun x => x == 0)%Q l → Forall (fun x => x == 0)%Q l' →
  Forall2 Qeq l l'.
Proof.
  revert l'. induction l as [|x l IH]; intros [|y l'] Hl H1 H2; try discriminate.
  - constructor.
  - pose proof (List.Forall_inv H1) as Hx. pose proof (List.Forall_inv H2) as Hy.
    cbn beta in Hx, Hy. constructor.
    + rewrite Hx, Hy. reflexivity.
    + apply IH; [simpl in Hl; lia | eapply List.Forall_inv_tail; eassumption
                | eapply List.Forall_inv_tail; eassumption].
Qed.

Lemma reduce_sum_hw_length (D : nat) (g : tens 3) : length (reduce_sum_hw D g) = D.
Proof. unfold reduce_sum_hw. rewrite length_map, length_seq. reflexivity. Qed.

(** C10. For one sample whose H x W feature map is entirely zero, the
    attention scores are the same at every location, the softmax weights
    are all equal to 1 / (H * W), and the glimpse is the mean feature
    vector, which is the zero vector. *)
Theorem C10_zero_features_uniform_attention (exp tanh : Q → Q) (attention_units : nat)
    (Wh Wf Wa : list (list (list (list Q)))) (bf : list Q)
    (H W D : nat) (hidden : list Q) :
  (∀ x, ¬ (exp x == 0)%Q) → (0 < H)%nat → (0 < W)%nat →
  let M := AttentionModule_init attention_units Wh Wf Wa bf in
  let features := zero_features H W D in
  let hidden_state : tens 3 := [[hidden]] in
  (∃ c, flatten3 (attention_scores tanh M features hidden_state) = repeat c (H * W)) ∧
  length (attention_weights exp tanh M features hidden_state) = (H * W)%nat ∧
  Forall (fun a => a == 1 / inject_Z (Z.of_nat (H * W)))%Q
         (attention_weights exp tanh M features hidden_state) ∧
  length (attention_sample exp tanh M features hidden_state) = D ∧
  Forall2 Qeq (attention_sample exp tanh M features hidden_state) (mean_feature features) ∧
  Forall (fun x => x == 0)%Q (attention_sample exp tanh M features hidden_state).
Proof.
  intros Hexp HH HW M features hidden_state.
  destruct (const_map_dims H W HH HW (repeat 0%Q D)) as (Eh & Ew & Ec).
  rewrite repeat_length in Ec.
  assert (Es : ∃ c, attention_scores tanh M features hidden_state = repeat (repeat [c] W) H).
  { unfold attention_scores, M, features, hidden_state, zero_features.
    cbn [AttentionModule_init hidden_state_projector features_projector attention_projector].
    change (conv2d_call (mkConv2D attention_units 1 Wh None) [[hidden]])
      with [[conv_at (mkConv2D attention_units 1 Wh None) [[hidden]] 0 0]].
    rewrite (conv_zero_const H W HH HW).
    rewrite (broadcast_add_const H W HH HW).
    rewrite (map_const_map H W).
    rewrite (conv1x1_const H W HH HW) by reflexivity.
    eexists. unfold conv_at at 1. cbn [filters seq List.map]. reflexivity. }
  destruct Es as [c Es].
  assert (Ef : flatten3 (attention_scores tanh M features hidden_state) = repeat c (H * W)).
  { rewrite Es. unfold flatten3. rewrite concat_repeat, concat_repeat_singleton. reflexivity. }
  set (e := exp (c - maximum (repeat c (H * W)))%Q).
  assert (Ew' : attention_weights exp tanh M features hidden_state
                = repeat (e / Qsum (repeat e (H * W)))%Q (H * W)).
  { unfold attention_weights. rewrite Ef. unfold softmax. cbv zeta.
    rewrite !map_repeat. reflexivity. }
  assert (Hn : ¬ (inject_Z (Z.of_nat (H * W)) == 0)%Q).
  { intros E0. apply (Qeq_bool_neq (inject_Z (Z.of_nat (H * W))) 0); [| exact E0].
    unfold Qeq_bool. simpl. apply Z.eqb_neq. nia. }
  assert (Ea : (e / Qsum (repeat e (H * W)) == 1 / inject_Z (Z.of_nat (H * W)))%Q).
  { rewrite Qsum_repeat. field. split; first [exact Hn | apply Hexp]. }
  assert (Eg : attention_sample exp tanh M features hidden_state
               = reduce_sum_hw D
                   (repeat (repeat (List.map (fun x => x * (e / Qsum (repeat e (H * W))))%Q
                                      (repeat 0%Q D)) W) H)).
  { unfold attention_sample. rewrite Ew'. unfold features, zero_features.
    rewrite Eh, Ew, Ec. rewrite (reshape_hw1_const H W), (multiply_map_const H W).
    all: first [reflexivity | assumption]. }
  assert (Hg : Forall (fun x => x == 0)%Q (attention_sample exp tanh M features hidden_state)).
  { rewrite Eg. apply (reduce_sum_zero H W).
    apply List.Forall_forall. intros x Hx. apply in_map_iff in Hx as (y & <- & Hy).
    apply repeat_spec in Hy. subst y. ring. }
  assert (Hm : Forall (fun x => x == 0)%Q (mean_feature features)).
  { unfold mean_feature, features, zero_features. rewrite Eh, Ew, Ec.
    apply List.Forall_forall. intros x Hx. apply in_map_iff in Hx as (y & <- & Hy).
    assert (Hz : Forall (fun x => x == 0)%Q (reduce_sum_hw D (repeat (repeat (repeat 0%Q D) W) H))).
    { apply (reduce_sum_zero H W). apply List.Forall_forall. intros z Hz'.
      apply repeat_spec in Hz'. subst z. reflexivity. }
    rewrite List.Forall_forall in Hz. rewrite (Hz y Hy). field. exact Hn. }
  split; [exists c; exact Ef |].
  split; [rewrite Ew'; apply repeat_length |].
  split.
  { rewrite Ew'. apply List.Forall_forall. intros a Ha. apply repeat_spec in Ha. subst a.
    exact Ea. }
  split; [rewrite Eg; apply reduce_sum_hw_length |].
  split; [| exact Hg].
  apply Forall2_Qeq_zero; [| exact Hg | exact Hm].
  rewrite Eg, reduce_sum_hw_length. unfold mean_feature.
  rewrite length_map, reduce_sum_hw_length. unfold features, zero_features. rewrite Ec.
  reflexivity.
Qed.

Lemma exp1_nonzero (x : Q) : ¬ (exp1 x == 0)%Q.
Proof.
  destruct x as [n d]. unfold exp1, Qeq. simpl. nia.
Qed.

Lemma C10_witness :
  let M := AttentionModule_init 1 [[[[1%Q]]]] (repeat (repeat [[1%Q]] 3) 3) [[[[1%Q]]]] [0%Q] in
  let features := zero_features 2 3 1 in
  let hidden_state : tens 3 := [[[1%Q]]] in
  (∃ c, flatten3 (attention_scores tanh1 M features hidden_state) = repeat c (2 * 3)) ∧
  length (attention_weights exp1 tanh1 M features hidden_state) = (2 * 3)%nat ∧
  Forall (fun a => a == 1 / inject_Z (Z.of_nat (2 * 3)))%Q
         (attention_weights exp1 tanh1 M features hidden_state) ∧
  length (attention_sample exp1 tanh1 M features hidden_state) = 1%nat ∧
  Forall2 Qeq (attention_sample exp1 tanh1 M features hidden_state) (mean_feature features) ∧
  Forall (fun x => x == 0)%Q (attention_sample exp1 tanh1 M features hidden_state).
Proof.
  apply (C10_zero_features_uniform_attention exp1 tanh1 1 [[[[1%Q]]]]
           (repeat (repeat [[1%Q]] 3) 3) [[[[1%Q]]]] [0%Q] 2 3 1 [1%Q]).
  - exact exp1_nonzero.
  - lia.
  - lia.
Defined.

Example attention_weights_run :
  Forall2 Qeq
    (attention_weights exp1 tanh1
       (AttentionModule_init 1 [[[[1%Q]]]] (repeat (repeat [[1%Q]] 3) 3) [[[[1%Q]]]] [0%Q])
       (zero_features 1 2 1) [[[1%Q]]])
    [1 # 2; 1 # 2]%Q.
Proof. vm_compute. repeat constructor. Qed.

(** ** Beam search *)

Section BeamFacts.
Variable St : Type.
Variables exp ln : Q → Q.
Variable alpha : Z.

Local Abbreviation score := (ranking_score St alpha).
Local Abbreviation R := (by_score St alpha).

Lemma insert_by_score_In (h x : BeamHypothesis St) (l : list (BeamHypothesis St)) :
  In x (insert_by_score St alpha h l) ↔ x = h ∨ In x l.
Proof.
  induction l as [|y l IH]; simpl.
  - intuition.
  - destruct (Qle_bool (score y) (score h)); simpl; [intuition |].
    rewrite IH. intuition.
Qed.

Lemma insert_by_score_length (h : BeamHypothesis St) (l : list (BeamHypothesis St)) :
  length (insert_by_score St alpha h l) = S (length l).
Proof.
  induction l as [|y l IH]; simpl; [reflexivity |].
  destruct (Qle_bool (score y) (score h)); simpl; congruence.
Qed.

Lemma insert_by_score_sorted (h : BeamHypothesis St) (l : list (BeamHypothesis St)) :
  StronglySorted R l → StronglySorted R (insert_by_score St alpha h l).
Proof.
  induction 1 as [|y l Hs IH Hy]; simpl.
  - constructor; constructor.
  - destruct (Qle_bool (score y) (score h)) eqn:E.
    + apply Qle_bool_iff in E. constructor; [constructor; assumption |].
      constructor; [exact E |].
      eapply List.Forall_impl; [| exact Hy]. intros z Hz. unfold by_score in *.
      eapply Qle_trans; eassumption.
    + constructor; [exact IH |].
      apply List.Forall_forall. intros z Hz. apply insert_by_score_In in Hz as [-> | Hz].
      * unfold by_score. apply Qlt_le_weak. apply Qnot_le_lt. intros Hle.
        apply Qle_bool_iff in Hle. congruence.
      * rewrite List.Forall_forall in Hy. apply Hy. exact Hz.
Qed.

Lemma sort_by_score_In (x : BeamHypothesis St) (l : list (BeamHypothesis St)) :
  In x (sort_by_score St alpha l) ↔ In x l.
Proof.
  induction l as [|y l IH]; simpl; [tauto |].
  rewrite insert_by_score_In, IH. intuition.
Qed.

Lemma sort_by_score_length (l : list (BeamHypothesis St)) :
  length (sort_by_score St alpha l) = length l.
Proof.
  induction l as [|y l IH]; simpl; [reflexivity |].
  rewrite insert_by_score_length, IH. reflexivity.
Qed.

Lemma sort_by_score_sorted (l : list (BeamHypothesis St)) :
  StronglySorted R (sort_by_score St alpha l).
Proof.
  induction l as [|y l IH]; simpl; [constructor |].
  apply insert_by_score_sorted. exact IH.
Qed.

Lemma firstn_sorted {A} (P : A → A → Prop) (k : nat) (l : list A) :
  StronglySorted P l → StronglySorted P (firstn k l).
Proof.
  intros Hl. revert k. induction Hl as [|y l Hs IH Hy]; intros [|k]; simpl; try constructor.
  - apply IH.
  - apply List.Forall_forall. intros z Hz. rewrite List.Forall_forall in Hy. apply Hy.
    rewrite <- (firstn_skipn k l). apply in_or_app. left. exact Hz.
Qed.

(** The [k] best candidates: [k] of them when there are as many, best
    first, each one of the candidates. *)
Lemma top_k_spec (k : nat) (l : list (BeamHypothesis St)) :
  length (top_k St alpha k l) = Nat.min k (length l) ∧
  StronglySorted R (top_k St alpha k l) ∧
  (∀ x, In x (top_k St alpha k l) → In x l).
Proof.
  unfold top_k. split; [| split].
  - rewrite length_firstn, sort_by_score_length. reflexivity.
  - apply firstn_sorted, sort_by_score_sorted.
  - intros x Hx. apply sort_by_score_In.
    rewrite <- (firstn_skipn k (sort_by_score St alpha l)). apply in_or_app. left. exact Hx.
Qed.
End BeamFacts.

Section SearchFacts.
Variable St : Type.
Variables exp ln : Q → Q.
Variable symbols_to_logits_fn :
  list (list Z) → nat → Cache St → result (tens 2 * Cache St).
Hypothesis fn_returns : ∀ ids i cache, ∃ r, symbols_to_logits_fn ids i cache = Ok r.
Variables (V : nat) (k : nat) (alpha : Z).
Hypothesis V_pos : (1 <= V)%nat.

(** The end-of-sequence id is a token of the vocabulary. *)
Variable eos : nat.
Variable start : Z.

Local Abbreviation ok := (hyp_ok St V (Z.of_nat eos) start).
Local Abbreviation R := (by_score St alpha).

Lemma hyp_ok_mono (n m : nat) (h : BeamHypothesis St) :
  (n <= m)%nat → ok n h → ok m h.
Proof.
  intros Hnm (toks & E & Hl & Hr & Hf). exists toks. repeat split; try assumption. lia.
Qed.

Lemma expand_hypothesis_ok (n : nat) (h : BeamHypothesis St) (lp : list Q) (s : St) :
  ok n h → h_finished St h = false →
  Forall (ok (S n)) (expand_hypothesis St V (Z.of_nat eos) h lp s).
Proof.
  intros (toks & E & Hl & Hr & Hf) Hlive. rewrite Hlive in Hf.
  unfold expand_hypothesis. apply List.Forall_forall. intros h' Hh'.
  apply in_map_iff in Hh' as (tok & <- & Htok). apply in_seq in Htok.
  exists (toks ++ [Z.of_nat tok])%list. cbn [h_ids h_finished].
  split; [rewrite E; reflexivity |].
  split; [rewrite length_app; simpl; lia |].
  split; [apply List.Forall_app; split; [exact Hr | constructor; [lia | constructor]] |].
  destruct (Z.of_nat tok =? Z.of_nat eos)%Z eqn:Et.
  - apply Z.eqb_eq in Et. exists toks. rewrite Et. split; [reflexivity | exact Hf].
  - apply Z.eqb_neq in Et. intros Hin. apply in_app_or in Hin as [Hin | [Hin | []]].
    + exact (Hf Hin).
    + congruence.
Qed.

Lemma expand_hypothesis_length (h : BeamHypothesis St) (lp : list Q) (s : St) :
  length (expand_hypothesis St V (Z.of_nat eos) h lp s) = V.
Proof. unfold expand_hypothesis. rewrite length_map, length_seq. reflexivity. Qed.

Lemma expand_beam_ok (n : nat) (lps : tens 2) (sts : list St) (beam : list (BeamHypothesis St)) :
  ∀ j, Forall (ok n) beam →
       Forall (ok (S n)) (expand_beam St V (Z.of_nat eos) lps sts j beam).
Proof.
  induction beam as [|h beam IH]; intros j Hb; cbn [expand_beam]; [constructor |].
  pose proof (List.Forall_inv Hb) as Hh. pose proof (List.Forall_inv_tail Hb) as Hb'.
  destruct (h_finished St h) eqn:E.
  - constructor; [eapply hyp_ok_mono; [| exact Hh]; lia | apply IH; exact Hb'].
  - apply List.Forall_app. split; [apply expand_hypothesis_ok; assumption | apply IH; exact Hb'].
Qed.

Lemma expand_beam_length (lps : tens 2) (sts : list St) (beam : list (BeamHypothesis St)) :
  ∀ j, (length beam <= length (expand_beam St V (Z.of_nat eos) lps sts j beam))%nat.
Proof.
  induction beam as [|h beam IH]; intros j; cbn [expand_beam]; [lia |].
  destruct (h_finished St h).
  - simpl. specialize (IH j). lia.
  - rewrite length_app, expand_hypothesis_length. specialize (IH (S j)). simpl. lia.
Qed.

(** One step keeps the beam full, best first, and well formed. *)
Lemma beam_step_spec (n i : nat) (beam : list (BeamHypothesis St)) :
  length beam = k → Forall (ok n) beam →
  ∃ beam',
    beam_step St exp ln symbols_to_logits_fn V k alpha (Z.of_nat eos) i beam = Ok beam' ∧
    length beam' = k ∧ Forall (ok (S n)) beam' ∧ StronglySorted R beam'.
Proof.
  intros Hl Hb. unfold beam_step.
  destruct (fn_returns (List.map (h_ids St) (List.filter (fun h => negb (h_finished St h)) beam)) i
              (mkCache St (List.map (h_state St) (List.filter (fun h => negb (h_finished St h)) beam))
                 (List.map (h_features St) (List.filter (fun h => negb (h_finished St h)) beam))))
    as [[logits cache] E].
  rewrite E. cbn [rbind]. eexists. split; [reflexivity |].
  set (cands := expand_beam St V (Z.of_nat eos) _ _ 0 beam).
  destruct (top_k_spec St alpha k cands) as (H1 & H2 & H3).
  split; [| split; [| exact H2]].
  - rewrite H1. pose proof (expand_beam_length (List.map (log_softmax exp ln) logits)
                              (hidden_states St cache) beam 0) as Hc.
    fold cands in Hc. lia.
  - apply List.Forall_forall. intros x Hx. apply H3 in Hx.
    pose proof (expand_beam_ok n (List.map (log_softmax exp ln) logits)
                  (hidden_states St cache) beam 0 Hb) as Hc.
    fold cands in Hc. rewrite List.Forall_forall in Hc. apply Hc. exact Hx.
Qed.

(** The loop returns a full beam, best first, of hypotheses with at most
    one token per step. *)
Lemma beam_loop_spec (steps : list nat) : ∀ (n : nat) (beam : list (BeamHypothesis St)),
  length beam = k → Forall (ok n) beam → StronglySorted R beam →
  ∃ beam',
    beam_loop St exp ln symbols_to_logits_fn V k alpha (Z.of_nat eos) steps beam = Ok beam' ∧
    length beam' = k ∧ Forall (ok (n + length steps)) beam' ∧ StronglySorted R beam'.
Proof.
  induction steps as [|i steps IH]; intros n beam Hl Hb Hs; cbn [beam_loop].
  - exists beam. repeat split; try assumption.
    eapply List.Forall_impl; [| exact Hb]. intros h. apply hyp_ok_mono. lia.
  - destruct (forallb (h_finished St) beam).
    + exists beam. repeat split; try assumption.
      eapply List.Forall_impl; [| exact Hb]. intros h. apply hyp_ok_mono. lia.
    + destruct (beam_step_spec n i beam Hl Hb) as (beam1 & E & Hl1 & Hb1 & Hs1).
      rewrite E. cbn [rbind].
      destruct (IH (S n) beam1 Hl1 Hb1 Hs1) as (beam' & E' & Hl' & Hb' & Hs').
      exists beam'. repeat split; try assumption.
      eapply List.Forall_impl; [| exact Hb']. intros h. apply hyp_ok_mono.
      simpl. lia.
Qed.

Lemma repeat_sorted (h : BeamHypothesis St) (m : nat) : StronglySorted R (repeat h m).
Proof.
  induction m as [|m IH]; simpl; constructor; [exact IH |].
  apply List.Forall_forall. intros x Hx. apply repeat_spec in Hx. subst x.
  unfold by_score. apply Qle_refl.
Qed.

Lemma search_sample_spec (max_decode_length : nat) (state : St) (features : tens 3) :
  ∃ beam,
    search_sample St exp ln symbols_to_logits_fn V k alpha (Z.of_nat eos)
      max_decode_length start state features = Ok beam ∧
    length beam = k ∧ Forall (ok max_decode_length) beam ∧ StronglySorted R beam.
Proof.
  unfold search_sample.
  destruct (beam_loop_spec (seq 0 max_decode_length) 0
              (repeat (mkBeamHypothesis St [start] 0%Q state features false) k))
    as (beam & E & Hl & Hb & Hs).
  - apply repeat_length.
  - apply List.Forall_forall. intros h Hh. apply repeat_spec in Hh. subst h.
    exists []. cbn [h_ids h_finished]. repeat split; [simpl; lia | constructor | tauto].
  - apply repeat_sorted.
  - exists beam. rewrite length_seq in Hb. simpl in Hb. auto.
Qed.
End SearchFacts.

Lemma ranking_score_no_penalty (St : Type) (h : BeamHypothesis St) :
  (ranking_score St 0 h == h_log_prob St h)%Q.
Proof. unfold ranking_score. cbn [Qpower]. field. Qed.

Lemma sorted_log_probs (St : Type) (beam : list (BeamHypothesis St)) :
  StronglySorted (by_score St 0) beam → sorted_desc (List.map (h_log_prob St) beam).
Proof.
  unfold sorted_desc. induction 1 as [|h beam Hs IH Hh]; simpl; constructor; [exact IH |].
  apply List.Forall_forall. intros q Hq. apply in_map_iff in Hq as (x & <- & Hx).
  rewrite List.Forall_forall in Hh. specialize (Hh x Hx). unfold by_score in Hh.
  rewrite !ranking_score_no_penalty in Hh. exact Hh.
Qed.

Lemma finished_eos_only_last (St : Type) (V : nat) (eos start : Z) (n : nat)
    (h : BeamHypothesis St) (toks : list Z) :
  hyp_ok St V eos start n h → h_ids St h = start :: toks → eos_only_last eos toks.
Proof.
  intros (toks' & E & _ & _ & Hf) E'. rewrite E in E'. injection E' as ->.
  intros pre post Ht. destruct (h_finished St h).
  - destruct Hf as (pre' & -> & Hn).
    destruct post as [|x post] using rev_ind; [reflexivity |].
    exfalso. apply Hn.
    change (pre ++ eos :: post ++ [x])%list with (pre ++ (eos :: post) ++ [x])%list in Ht.
    rewrite app_assoc in Ht. apply app_inj_tail in Ht as [-> _].
    apply in_or_app. right. left. reflexivity.
  - exfalso. apply Hf. rewrite Ht. apply in_or_app. right. left. reflexivity.
Qed.

Lemma max_len_ge (St : Type) (beams : list (list (BeamHypothesis St)))
    (beam : list (BeamHypothesis St)) (h : BeamHypothesis St) :
  In beam beams → In h beam → (length (h_ids St h) <= max_len St beams)%nat.
Proof.
  intros Hb Hh. unfold max_len.
  assert (Hin : In h (concat beams)) by (apply in_concat; eauto).
  induction (concat beams) as [|x l IH]; [contradiction |].
  simpl. destruct Hin as [-> | Hin]; [lia | specialize (IH Hin); lia].
Qed.

Lemma max_len_le (St : Type) (beams : list (list (BeamHypothesis St))) (m : nat) :
  (∀ beam h, In beam beams → In h beam → (length (h_ids St h) <= m)%nat) →
  (max_len St beams <= m)%nat.
Proof.
  intros H. unfold max_len.
  assert (Hall : ∀ h, In h (concat beams) → (length (h_ids St h) <= m)%nat).
  { intros h Hh. apply in_concat in Hh as (beam & Hb & Hh). eauto. }
  induction (concat beams) as [|x l IH]; simpl; [lia |].
  pose proof (Hall x (or_introl eq_refl)).
  assert ((foldr Nat.max 0 (List.map (fun h => length (h_ids St h)) l) <= m)%nat).
  { apply IH. intros h Hh. apply Hall. right. exact Hh. }
  lia.
Qed.

Lemma collect_zip_with {A B C} (P : A → C → Prop) (f : A → B → result C) :
  (∀ a b, ∃ c, f a b = Ok c ∧ P a c) →
  ∀ (la : list A) (lb : list B), length lb = length la →
    ∃ lc, collect (zip_with f la lb) = Ok lc ∧ Forall2 P la lc.
Proof.
  intros Hf. induction la as [|a la IH]; intros [|b lb] Hl; try discriminate.
  - exists []. split; [reflexivity | constructor].
  - simpl in Hl. injection Hl as Hl. destruct (IH lb Hl) as (lc & E & HP).
    destruct (Hf a b) as (c & Ec & Hc).
    exists (c :: lc). cbn [zip_with collect]. rewrite Ec, E. cbn [rbind].
    split; [reflexivity | constructor; assumption].
Qed.

(** The beam step function of the decoder always returns. *)
Lemma symbols_to_logits_fn_returns (St : Type)
    (lstm_cell : gmap string pyval → list Q → St → list Q * St) (exp tanh : Q → Q)
    (self : SARDecoder) (ids : list (list Z)) (i : nat) (cache : Cache St) :
  ∃ r, symbols_to_logits_fn St lstm_cell exp tanh self ids i cache = Ok r.
Proof.
  unfold symbols_to_logits_fn.
  destruct (lstm_decoder St lstm_cell ∅ _ (hidden_states St cache)) as [output states].
  destruct (expand_twice_axes output) as [_ ->]. cbn [rbind]. eauto.
Qed.

Lemma Forall2_In_r {A C} (P : A → C → Prop) (la : list A) (lc : list C) (c : C) :
  Forall2 P la lc → In c lc → ∃ a, In a la ∧ P a c.
Proof.
  induction 1 as [|a c' la lc Hp _ IH]; intros Hin; [contradiction |].
  destruct Hin as [-> | Hin].
  - exists a. split; [left; reflexivity | exact Hp].
  - destruct (IH Hin) as (a' & Ha & Hp'). exists a'. split; [right |]; assumption.
Qed.

Lemma pad_to_length (n : nat) (ids : list Z) :
  (length ids <= n)%nat → length (pad_to n ids) = n.
Proof. intros H. unfold pad_to. rewrite length_app, repeat_length. lia. Qed.

(** C6. A beam-search decode with beam width k >= 1 calls the search with
    no length penalty (alpha = 0), at most [max_length + 1] steps and EOS
    id V, and returns: for each of the N samples, k rows of ids of one
    common length of at most [max_length + 1], each a raw sequence without
    its leading start token, made of vocabulary tokens in which EOS can
    only be the last one, followed by the filler; and, for each sample, the
    k cumulative log-probabilities, best first. *)
Theorem C6_beam_decode_shape_and_order (St : Type)
    (lstm_cell : gmap string pyval → list Q → St → list Q * St) (exp tanh ln : Q → Q)
    (self : SARDecoder) (symbol : list Z) (states : list St) (features : tens 4)
    (k : Z) (kwargs : gmap string pyval) (N : nat) :
  (1 <= k)%Z → length symbol = N → length states = N → length features = N →
  ∃ raw ids log_probs L,
    sequence_beam_search St exp ln (symbols_to_logits_fn St lstm_cell exp tanh self)
      symbol (mkCache St states features) (vocab_size self + 1) k 0
      (max_length self + 1) (Z.of_nat (vocab_size self)) false "float32"
    = Ok (raw, log_probs) ∧
    beam_decode St lstm_cell exp tanh ln self symbol states features k kwargs
    = Ok (ids, log_probs) ∧
    ids = List.map (List.map (drop 1)) raw ∧
    Forall2 (fun s rows => Forall (fun row => ∃ rest, row = s :: rest) rows) symbol raw ∧
    (L <= max_length self + 1)%nat ∧
    length ids = N ∧
    Forall (fun rows => length rows = Z.to_nat k ∧
                        Forall (fun row => length row = L) rows) ids ∧
    length log_probs = N ∧
    Forall (fun lps => length lps = Z.to_nat k ∧ sorted_desc lps) log_probs ∧
    Forall (Forall (fun row =>
      ∃ toks, row = (toks ++ repeat 0%Z (L - length toks))%list ∧
              Forall (fun t => 0 <= t <= Z.of_nat (vocab_size self))%Z toks ∧
              eos_only_last (Z.of_nat (vocab_size self)) toks)) ids.
Proof.
  intros Hk Hs Hst Hf. unfold beam_decode, sequence_beam_search.
  replace (k <? 1)%Z with false by (symmetry; apply Z.ltb_ge; lia).
  cbn [hidden_states cache_features].
  set (fn := symbols_to_logits_fn St lstm_cell exp tanh self).
  set (V := vocab_size self). set (mdl := (max_length self + 1)%nat).
  set (P := fun (s : Z) (beam : list (BeamHypothesis St)) =>
              length beam = Z.to_nat k ∧
              Forall (hyp_ok St (V + 1) (Z.of_nat V) s mdl) beam ∧
              StronglySorted (by_score St 0) beam).
  match goal with
  | |- context [collect (zip_with ?f symbol (combine states features))] =>
      destruct (collect_zip_with P f) with (la := symbol) (lb := combine states features)
        as (beams & E & HP)
  end.
  { intros s [state feat].
    apply (search_sample_spec St exp ln fn
             (symbols_to_logits_fn_returns St lstm_cell exp tanh self)
             (V + 1) (Z.to_nat k) 0 ltac:(lia) V s mdl state feat). }
  { rewrite length_combine. lia. }
  rewrite E. cbn [rbind].
  set (n := max_len St beams).
  assert (Hin : ∀ beam, In beam beams → ∃ s, P s beam).
  { intros beam Hb. destruct (Forall2_In_r _ _ _ _ HP Hb) as (s & _ & Hp). eauto. }
  assert (Hlen : ∀ beam h, In beam beams → In h beam →
            ∃ s toks, h_ids St h = s :: toks ∧ (S (length toks) <= n)%nat ∧
                      (length toks <= mdl)%nat ∧
                      Forall (fun t => 0 <= t <= Z.of_nat V)%Z toks ∧
                      eos_only_last (Z.of_nat V) toks).
  { intros beam h Hb Hh. destruct (Hin beam Hb) as (s & _ & Hok & _).
    rewrite List.Forall_forall in Hok. specialize (Hok h Hh).
    pose proof Hok as (toks & Et & Hl & Hr & _).
    exists s, toks. split; [exact Et |].
    split; [pose proof (max_len_ge St beams beam h Hb Hh) as Hm; rewrite Et in Hm; exact Hm |].
    split; [exact Hl |].
    split; [eapply List.Forall_impl; [| exact Hr]; simpl; intros; lia |].
    eapply finished_eos_only_last; eassumption. }
  assert (Hn : (n - 1 <= mdl)%nat).
  { assert (n <= S mdl)%nat; [| lia]. apply max_len_le. intros beam h Hb Hh.
    destruct (Hlen beam h Hb Hh) as (s & toks & Et & _ & Hl & _). rewrite Et. simpl. lia. }
  eexists _, _, _, (n - 1)%nat.
  split; [reflexivity |]. split; [reflexivity |]. split; [reflexivity |].
  split.
  { generalize n. intros m. clear -HP. subst P. cbv beta in HP.
    induction HP as [|s beam symbol beams Hp _ IH]; simpl.
    - constructor.
    - constructor; [| exact IH]. destruct Hp as (_ & Hok & _).
      apply List.Forall_forall. intros row Hrow. apply in_map_iff in Hrow as (h & <- & Hh).
      rewrite List.Forall_forall in Hok. destruct (Hok h Hh) as (toks & Et & _).
      unfold pad_to. rewrite Et. eexists. reflexivity. }
  split; [exact Hn |].
  split; [rewrite !length_map; rewrite <- Hs; symmetry; eapply Forall2_length; exact HP |].
  split.
  { apply List.Forall_forall. intros rows Hrows.
    apply in_map_iff in Hrows as (raw_rows & <- & Hraw).
    apply in_map_iff in Hraw as (beam & <- & Hb).
    destruct (Hin beam Hb) as (s & Hl & _). rewrite !length_map. split; [exact Hl |].
    apply List.Forall_forall. intros row Hrow.
    apply in_map_iff in Hrow as (padded & <- & Hp).
    apply in_map_iff in Hp as (h & <- & Hh).
    destruct (Hlen beam h Hb Hh) as (s' & toks & Et & Hl' & _).
    rewrite length_drop, pad_to_length; [reflexivity |]. rewrite Et. simpl. exact Hl'. }
  split; [rewrite length_map; rewrite <- Hs; symmetry; eapply Forall2_length; exact HP |].
  split.
  { apply List.Forall_forall. intros lps Hlps. apply in_map_iff in Hlps as (beam & <- & Hb).
    destruct (Hin beam Hb) as (s & Hl & _ & Hsorted). rewrite length_map.
    split; [exact Hl | apply sorted_log_probs; exact Hsorted]. }
  apply List.Forall_forall. intros rows Hrows.
  apply in_map_iff in Hrows as (raw_rows & <- & Hraw).
  apply in_map_iff in Hraw as (beam & <- & Hb).
  apply List.Forall_forall. intros row Hrow.
  apply in_map_iff in Hrow as (padded & <- & Hp).
  apply in_map_iff in Hp as (h & <- & Hh).
  destruct (Hlen beam h Hb Hh) as (s' & toks & Et & Hl' & _ & Hr & He).
  exists toks. split; [| split; assumption].
  unfold pad_to. rewrite Et. cbn [length app drop].
  replace (n - S (length toks))%nat with (n - 1 - length toks)%nat by lia. reflexivity.
Qed.

Lemma C6_witness :
  ∃ raw ids log_probs L,
    sequence_beam_search _ exp1 ln1 (symbols_to_logits_fn _ echo_cell exp1 tanh1 tiny_decoder)
      [2%Z] (mkCache _ [[0%Q]] tiny_features) (vocab_size tiny_decoder + 1) 2 0
      (max_length tiny_decoder + 1) (Z.of_nat (vocab_size tiny_decoder)) false "float32"
    = Ok (raw, log_probs) ∧
    beam_decode _ echo_cell exp1 tanh1 ln1 tiny_decoder [2%Z] [[0%Q]] tiny_features 2 ∅
    = Ok (ids, log_probs) ∧
    ids = List.map (List.map (drop 1)) raw ∧
    Forall2 (fun s rows => Forall (fun row => ∃ rest, row = s :: rest) rows) [2%Z] raw ∧
    (L <= max_length tiny_decoder + 1)%nat ∧
    length ids = 1%nat ∧
    Forall (fun rows => length rows = Z.to_nat 2 ∧
                        Forall (fun row => length row = L) rows) ids ∧
    length log_probs = 1%nat ∧
    Forall (fun lps => length lps = Z.to_nat 2 ∧ sorted_desc lps) log_probs ∧
    Forall (Forall (fun row =>
      ∃ toks, row = (toks ++ repeat 0%Z (L - length toks))%list ∧
              Forall (fun t => 0 <= t <= Z.of_nat (vocab_size tiny_decoder))%Z toks ∧
              eos_only_last (Z.of_nat (vocab_size tiny_decoder)) toks)) ids.
Proof.
  apply (C6_beam_decode_shape_and_order _ echo_cell exp1 tanh1 ln1 tiny_decoder
           [2%Z] [[0%Q]] tiny_features 2 ∅ 1).
  - lia.
  - reflexivity.
  - reflexivity.
  - reflexivity.
Defined.

Example beam_decode_run :
  beam_decode _ echo_cell exp1 tanh1 ln1 tiny_decoder [2%Z] [[0%Q]] tiny_features 2 ∅
  = Ok ([[[0; 0]; [0; 0]]]%Z, [[-2; -2]]%Q).
Proof. vm_compute. reflexivity. Qed.

(** Outside training a zero beam width reaches the beam search, which
    refuses it; no width selects the greedy loop. *)
Example decoder_call_zero_width :
  SARDecoder_call _ echo_cell [0%Q] exp1 tanh1 ln1 tiny_decoder tiny_features [[0%Q]]
    None (Some 0%Z) ∅
  = Raise (InvalidArgumentError "beam_size").
Proof. vm_compute. reflexivity. Qed.

Example decoder_call_no_width :
  SARDecoder_call _ echo_cell [0%Q] exp1 tanh1 ln1 tiny_decoder tiny_features [[0%Q]]
    None None ∅
  = Ok (GreedyOut [[0; 0]]%Z [[[1; 0]; [1; 0]]]%Q).
Proof. vm_compute. reflexivity. Qed.

(* ===================================================================== *)
(** * Part III: further properties of the code                            *)
(* ===================================================================== *)

(** ** The greedy loop: shapes, teacher forcing, argmax *)

Lemma argmax_from_spec (l : list Q) : ∀ (p : list Q) (best : Q) (bi : nat),
  (bi < length p)%nat → nth bi p 0%Q = best →
  Forall (fun x => x <= best)%Q p →
  (∀ j, (j < bi)%nat → (nth j p 0 < best)%Q) →
  let r := argmax_from best bi (length p) l in
  (r < length (p ++ l))%nat ∧
  Forall (fun x => x <= nth r (p ++ l) 0)%Q (p ++ l)%list ∧
  (∀ j, (j < r)%nat → (nth j (p ++ l) 0 < nth r (p ++ l) 0)%Q).
Proof.
  induction l as [|x l IH]; intros p best bi Hbi Hbest Hmax Hfirst; cbn [argmax_from].
  - rewrite app_nil_r. cbv zeta. rewrite Hbest. auto.
  - destruct (Qle_bool x best) eqn:E.
    + apply Qle_bool_iff in E.
      specialize (IH (p ++ [x])%list best bi).
      rewrite length_app in IH. cbn [length] in IH.
      replace (length p + 1)%nat with (S (length p)) in IH by lia.
      rewrite <- app_assoc in IH. cbn [app] in IH. apply IH.
      * lia.
      * rewrite app_nth1 by lia. exact Hbest.
      * apply List.Forall_app. split; [exact Hmax | constructor; [exact E | constructor]].
      * intros j Hj. rewrite app_nth1 by lia. apply Hfirst. exact Hj.
    + assert (Hlt : (best < x)%Q).
      { apply Qnot_le_lt. intros Hle. apply Qle_bool_iff in Hle. congruence. }
      specialize (IH (p ++ [x])%list x (length p)).
      rewrite length_app in IH. cbn [length] in IH.
      replace (length p + 1)%nat with (S (length p)) in IH by lia.
      rewrite <- app_assoc in IH. cbn [app] in IH. apply IH.
      * lia.
      * rewrite app_nth2 by lia. rewrite Nat.sub_diag. reflexivity.
      * apply List.Forall_app. split.
        -- eapply List.Forall_impl; [| exact Hmax]. intros y Hy. cbv beta in Hy.
           apply Qlt_le_weak. eapply Qle_lt_trans; eassumption.
        -- constructor; [apply Qle_refl | constructor].
      * intros j Hj. rewrite app_nth1 by lia.
        rewrite List.Forall_forall in Hmax.
        eapply Qle_lt_trans; [| exact Hlt]. apply Hmax. apply nth_In. exact Hj.
Qed.

(** [argmax] returns the first position of a maximal entry. *)
Lemma argmax_first_max (row : list Q) : row ≠ [] → first_max row (argmax row).
Proof.
  destruct row as [|x l]; [congruence |]. intros _. unfold first_max, argmax.
  destruct (argmax_from_spec l [x] x 0) as (H1 & H2 & H3).
  - simpl. lia.
  - reflexivity.
  - constructor; [apply Qle_refl | constructor].
  - intros j Hj. lia.
  - cbn [length app] in *. rewrite Nat2Z.id. split; [lia |]. split.
    + intros j Hj. rewrite List.Forall_forall in H2. apply H2.
      apply (nth_In (x :: l)). exact Hj.
    + exact H3.
Qed.

Section GreedyLoop.
Variable St : Type.
Variable lstm_cell : gmap string pyval → list Q → St → list Q * St.
Variables exp tanh : Q → Q.
Variable self : SARDecoder.
Variable kwargs : gmap string pyval.
Variable features : tens 4.

Local Abbreviation step := (greedy_step St lstm_cell exp tanh self kwargs).
Local Abbreviation loop := (greedy_loop St lstm_cell exp tanh self kwargs features).

(** On a batch of [N] samples a step returns [N] rows of logits and [N]
    states. *)
Lemma greedy_step_shape (N : nat) (symbol : list Z) (states : list St) :
  length symbol = N → length states = N → length features = N →
  ∃ logits states',
    step symbol states features = Ok (logits, states') ∧
    length logits = N ∧ length states' = N ∧
    Forall (fun row => length row = units (output_dense self)) logits.
Proof.
  intros Hs Hst Hf.
  destruct (greedy_step_returns St lstm_cell exp tanh self kwargs features symbol states)
    as (logits & states' & E & Hrows).
  exists logits, states'. split; [exact E |].
  unfold greedy_step, lstm_decoder in E.
  set (r := zip_with (lstm_cell kwargs) _ states) in E.
  assert (Hr : length r = N).
  { unfold r. rewrite length_zip_with, !length_map. lia. }
  destruct (expand_twice_axes (List.map fst r)) as [Ex _]. rewrite Ex in E.
  cbn [rbind] in E. injection E as <- <-.
  rewrite !length_map, length_zip_with, length_map. unfold AttentionModule_call.
  rewrite length_zip_with, !length_map. rewrite Hr.
  split; [etransitivity; [apply (f_equal (fun k => N `min` (k `min` N))%nat Hf) | lia] |].
  split; [reflexivity | exact Hrows].
Qed.

Lemma gt_column_ok (gt : list (list Z)) (t : nat) :
  (∃ col, gt_column gt t = Ok col) ↔ Forall (fun row => (t < length row)%nat) gt.
Proof.
  induction gt as [|row gt IH]; cbn [gt_column fold_right].
  - split; [constructor | eauto].
  - fold (gt_column gt t). split.
    + intros [col H]. destruct (nth_error row t) eqn:E; [| discriminate].
      destruct (gt_column gt t) eqn:E'; [| discriminate].
      constructor; [apply nth_error_Some; congruence | apply IH; eauto].
    + intros H. pose proof (List.Forall_inv H) as Hr. cbv beta in Hr.
      apply List.Forall_inv_tail in H. apply IH in H as [col ->].
      destruct (nth_error row t) eqn:E; [cbn; eauto |].
      apply nth_error_None in E. lia.
Qed.

Lemma gt_column_raises (gt : list (list Z)) (t : nat) (e : exn) :
  gt_column gt t = Raise e → e = InvalidArgumentError "slice index out of bounds".
Proof.
  induction gt as [|row gt IH]; cbn [gt_column fold_right]; [discriminate |].
  fold (gt_column gt t). destruct (nth_error row t); [| congruence].
  destruct (gt_column gt t); [discriminate |]. cbn. intros [= <-]. apply IH. reflexivity.
Qed.

(** With one row of ground truth per sample, the next symbol is the
    column of the ground truth. *)
Lemma next_symbol_forced (gt : list (list Z)) (t : nat) (more : bool) (logits : tens 2) :
  length gt = length logits →
  next_symbol (Some gt) t more logits = gt_column gt t.
Proof.
  intros Hl. unfold next_symbol. destruct (gt_column gt t) as [col|] eqn:E; [| reflexivity].
  cbn [rbind]. destruct more; [| reflexivity].
  unfold teacher_symbol.
  rewrite (gt_column_length _ _ _ E), Hl, Nat.eqb_refl. reflexivity.
Qed.

(** On a batch of [N] samples with [N] rows of ground truth, the
    teacher-forced loop returns exactly when every step finds its column
    of the ground truth. *)
Lemma greedy_loop_forced_ok (N : nat) (gt : list (list Z)) (ts : list nat) :
  length features = N → length gt = N →
  ∀ symbol states acc,
    length symbol = N → length states = N →
    (∃ L, loop (Some gt) ts symbol states acc = Ok L) ↔
    Forall (fun t => Forall (fun row => (t < length row)%nat) gt) ts.
Proof.
  intros Hf Hg.
  induction ts as [|t ts IH]; intros symbol states acc Hs Hst; cbn [greedy_loop].
  - split; [constructor | eauto].
  - destruct (greedy_step_shape N symbol states Hs Hst Hf)
      as (logits & states' & E & Hl & Hst' & _).
    rewrite E. cbn [rbind].
    rewrite next_symbol_forced by congruence. split.
    + intros [L H]. destruct (gt_column gt t) as [col|] eqn:Ec; [| discriminate].
      cbn [rbind] in H. constructor; [apply gt_column_ok; eauto |].
      apply (IH col states' (acc ++ [logits])%list); [| exact Hst' | eauto].
      rewrite (gt_column_length _ _ _ Ec). exact Hg.
    + intros H. pose proof (List.Forall_inv H) as Ht. cbv beta in Ht.
      apply gt_column_ok in Ht as [col Ec]. rewrite Ec. cbn [rbind].
      apply IH; [| exact Hst' | exact (List.Forall_inv_tail H)].
      rewrite (gt_column_length _ _ _ Ec). exact Hg.
Qed.

(** The loop only appends to the list of logits. *)
Lemma greedy_loop_prefix (gt : option (list (list Z))) (ts : list nat) :
  ∀ symbol states acc L,
    loop gt ts symbol states acc = Ok L →
    ∃ new, L = (acc ++ new)%list ∧ length new = length ts.
Proof.
  induction ts as [|t ts IH]; intros symbol states acc L H; cbn [greedy_loop] in H.
  - injection H as <-. exists []. rewrite app_nil_r. auto.
  - destruct (step symbol states features) as [[logits states']|]; [| discriminate].
    cbn [rbind] in H.
    destruct (next_symbol gt t _ logits); [| discriminate].
    cbn [rbind] in H. apply IH in H as (new & -> & Hn).
    exists (logits :: new). rewrite <- app_assoc. cbn. auto.
Qed.

(** On a batch of [N] samples every element of the list of logits has [N]
    rows. *)
Lemma greedy_loop_batch (N : nat) (gt : option (list (list Z))) (ts : list nat) :
  length features = N →
  ∀ symbol states acc L,
    length symbol = N → length states = N →
    loop gt ts symbol states acc = Ok L →
    Forall (fun m => length m = N) acc → Forall (fun m => length m = N) L.
Proof.
  intros Hf symbol states acc L Hs Hst H Hacc.
  apply (greedy_loop_uniform St lstm_cell exp tanh self kwargs features gt ts
           symbol states acc L N); [| exact H | exact Hacc].
  rewrite Hs, Hst, Hf, !Nat.min_id. reflexivity.
Qed.

Lemma map_nth_seq {A} (l : list A) (d : A) :
  List.map (fun n => nth n l d) (seq 0 (length l)) = l.
Proof.
  induction l as [|x l IH]; [reflexivity |].
  cbn [length seq List.map nth]. f_equal. rewrite <- seq_shift, List.map_map. exact IH.
Qed.

Lemma gt_column_nth (gt : list (list Z)) (t : nat) :
  Forall (fun row => (t < length row)%nat) gt →
  gt_column gt t = Ok (List.map (fun row => nth t row 0) gt).
Proof.
  induction gt as [|row gt IH]; intros H; [reflexivity |].
  cbn [gt_column fold_right List.map]. fold (gt_column gt t).
  rewrite (nth_error_nth' row 0 (List.Forall_inv H)).
  rewrite (IH (List.Forall_inv_tail H)). reflexivity.
Qed.

(** Column [t] of the ids stacked from the list of logits [L] is the
    argmax of the rows of [L]'s element [t]. *)
Lemma gt_column_of_ids (N : nat) (L : list (tens 2)) (t : nat) :
  Forall (fun m => length m = N) L → (t < length L)%nat →
  gt_column (List.map (List.map argmax) (stack_axis1 L)) t
  = Ok (List.map argmax (nth t L [])).
Proof.
  intros HL Ht.
  assert (Hhd : length (hd [] L) = N).
  { destruct L as [|m L']; [simpl in Ht; lia |]. exact (List.Forall_inv HL). }
  assert (Hm : length (nth t L []) = N).
  { rewrite List.Forall_forall in HL. apply HL. apply nth_In. exact Ht. }
  rewrite gt_column_nth.
  - f_equal. unfold stack_axis1. rewrite Hhd, !List.map_map.
    transitivity (List.map argmax (List.map (fun n => nth n (nth t L []) []) (seq 0 N))).
    + rewrite List.map_map. apply List.map_ext. intros n.
      rewrite List.map_map.
      rewrite (nth_indep _ 0 (argmax (nth n [] []))) by (rewrite length_map; exact Ht).
      exact (List.map_nth (fun m => argmax (nth n m [])) L [] t).
    + f_equal. rewrite <- Hm. apply map_nth_seq.
  - apply List.Forall_forall. intros row Hrow.
    apply in_map_iff in Hrow as (x & <- & Hx). unfold stack_axis1 in Hx.
    apply in_map_iff in Hx as (n & <- & _). rewrite !length_map. exact Ht.
Qed.
End GreedyLoop.

Lemma Forall2_map_self {A B} (P : A → Prop) (R : A → B → Prop) (f : A → B) (l : list A) :
  (∀ x, P x → R x (f x)) → Forall P l → Forall2 R l (List.map f l).
Proof.
  intros HR H. induction H as [|x l Hx _ IH]; cbn [List.map]; constructor; auto.
Qed.

Section GreedyDecode.
Variable St : Type.
Variable lstm_cell : gmap string pyval → list Q → St → list Q * St.
Variables exp tanh : Q → Q.
Variable self : SARDecoder.
Variable kwargs : gmap string pyval.
Variable features : tens 4.

Local Abbreviation decode := (greedy_decode St lstm_cell exp tanh self).
Local Abbreviation loop := (greedy_loop St lstm_cell exp tanh self kwargs features).

Lemma greedy_decode_loop (symbol : list Z) (states : list St)
    (gt : option (list (list Z))) (ids : list (list Z)) (scores : tens 3) :
  decode symbol states features gt kwargs = Ok (ids, scores) →
  ∃ L, loop gt (seq 0 (max_length self + 1)) symbol states [] = Ok L ∧
       length L = (max_length self + 1)%nat ∧
       Forall (Forall (fun row => length row = units (output_dense self))) L ∧
       scores = stack_axis1 L ∧ ids = List.map (List.map argmax) scores.
Proof.
  unfold greedy_decode. intros H.
  destruct (loop gt _ symbol states []) as [L|] eqn:E; [| discriminate].
  cbn [rbind] in H. injection H as <- <-. exists L.
  destruct (greedy_loop_spec St lstm_cell exp tanh self kwargs features _ _ _ _ _ _ E)
    as [Hlen Hrows].
  rewrite length_seq in Hlen. split; [reflexivity |]. split; [exact Hlen |].
  split; [apply Hrows; constructor | split; reflexivity].
Qed.

Lemma greedy_decode_batch (N : nat) (symbol : list Z) (states : list St)
    (gt : option (list (list Z))) (ids : list (list Z)) (scores : tens 3) :
  length symbol = N → length states = N → length features = N →
  decode symbol states features gt kwargs = Ok (ids, scores) →
  length scores = N ∧
  Forall (fun sample =>
            length sample = (max_length self + 1)%nat ∧
            Forall (fun row => length row = units (output_dense self)) sample) scores ∧
  ids = List.map (List.map argmax) scores.
Proof.
  intros Hs Hst Hf H.
  destruct (greedy_decode_scores St lstm_cell exp tanh self kwargs features
              symbol states gt ids scores H) as (Hids & Hlen & Hrows).
  split; [| split; [exact Hrows | exact Hids]].
  rewrite Hlen, Hs, Hst, Hf, !Nat.min_id. reflexivity.
Qed.
End GreedyDecode.

(** X1. On a batch of [N] samples the greedy decode of a decoder built by
    [SARDecoder_init] returns, when it is given no ground truth; whenever
    it returns, the scores have the shape (N, max_length + 1,
    vocab_size + 1) and the ids the shape (N, max_length + 1). *)
Theorem greedy_decode_output_shape (St : Type)
    (lstm_cell : gmap string pyval → list Q → St → list Q * St) (exp tanh : Q → Q)
    (rnn_units maxlen vocab attention_units : nat) (w : DecoderWeights)
    (kwargs : gmap string pyval) (N : nat)
    (symbol : list Z) (states : list St) (features : tens 4)
    (gt : option (list (list Z))) :
  length symbol = N → length states = N → length features = N →
  (∀ g, gt = Some g → length g = N) →
  let self := SARDecoder_init rnn_units maxlen vocab attention_units w in
  (gt = None →
   ∃ ids scores,
     greedy_decode St lstm_cell exp tanh self symbol states features gt kwargs
     = Ok (ids, scores)) ∧
  (∀ ids scores,
     greedy_decode St lstm_cell exp tanh self symbol states features gt kwargs
     = Ok (ids, scores) →
     length scores = N ∧ length ids = N ∧
     Forall (fun sample =>
               length sample = (maxlen + 1)%nat ∧
               Forall (fun row => length row = (vocab + 1)%nat) sample) scores ∧
     Forall (fun row => length row = (maxlen + 1)%nat) ids).
Proof.
  intros Hs Hst Hf Hgt self. split.
  - intros ->. apply greedy_decode_total.
  - intros ids scores H.
    destruct (greedy_decode_batch St lstm_cell exp tanh self kwargs features N
                symbol states gt ids scores Hs Hst Hf H) as (H1 & H2 & ->).
    split; [exact H1 |]. split; [rewrite length_map; exact H1 |].
    split; [exact H2 |].
    apply List.Forall_forall. intros row Hrow.
    apply in_map_iff in Hrow as (sample & <- & Hsample).
    rewrite List.Forall_forall in H2. rewrite length_map. apply (H2 sample Hsample).
Qed.

Lemma greedy_decode_output_shape_witness :
  ∃ ids scores,
    greedy_decode _ echo_cell exp1 tanh1 (SARDecoder_init 1 1 1 1 tiny_weights)
      [2%Z] [[0%Q]] tiny_features None ∅ = Ok (ids, scores).
Proof.
  apply (greedy_decode_output_shape _ echo_cell exp1 tanh1 1 1 1 1 tiny_weights ∅ 1
           [2%Z] [[0%Q]] tiny_features None);
    solve [reflexivity | discriminate].
Defined.

(** X2. Teacher forcing reads the columns [0 .. max_length] of the ground
    truth: on a batch of [N > 0] samples with [N] rows of ground truth, the
    greedy decode returns exactly when every row of [gt] has at least
    [max_length + 1] entries, and otherwise stops with an error. *)
Theorem greedy_decode_teacher_forcing_bound (St : Type)
    (lstm_cell : gmap string pyval → list Q → St → list Q * St) (exp tanh : Q → Q)
    (self : SARDecoder) (kwargs : gmap string pyval) (N : nat)
    (symbol : list Z) (states : list St) (features : tens 4) (gt : list (list Z)) :
  (0 < N)%nat →
  length symbol = N → length states = N → length features = N → length gt = N →
  (Forall (fun row => (max_length self + 1 <= length row)%nat) gt ↔
   ∃ ids scores,
     greedy_decode St lstm_cell exp tanh self symbol states features (Some gt) kwargs
     = Ok (ids, scores)) ∧
  (¬ Forall (fun row => (max_length self + 1 <= length row)%nat) gt →
   ∃ e,
     greedy_decode St lstm_cell exp tanh self symbol states features (Some gt) kwargs
     = Raise e).
Proof.
  intros _ Hs Hst Hf Hg.
  assert (Hcols : Forall (fun row => (max_length self + 1 <= length row)%nat) gt ↔
                  Forall (fun t => Forall (fun row => (t < length row)%nat) gt)
                         (seq 0 (max_length self + 1))).
  { rewrite !List.Forall_forall. split.
    - intros H t Ht. apply in_seq in Ht. apply List.Forall_forall. intros row Hrow.
      specialize (H row Hrow). lia.
    - intros H row Hrow. specialize (H (max_length self) ltac:(apply in_seq; lia)).
      rewrite List.Forall_forall in H. specialize (H row Hrow). lia. }
  pose proof (greedy_loop_forced_ok St lstm_cell exp tanh self kwargs features N gt
                (seq 0 (max_length self + 1)) Hf Hg symbol states [] Hs Hst) as Hok.
  assert (Hiff : Forall (fun row => (max_length self + 1 <= length row)%nat) gt ↔
          ∃ ids scores,
            greedy_decode St lstm_cell exp tanh self symbol states features (Some gt) kwargs
            = Ok (ids, scores)).
  { rewrite Hcols, <- Hok. unfold greedy_decode. split.
    - intros [L ->]. cbn [rbind]. eauto.
    - intros (ids & scores & H).
      destruct (greedy_loop _ _ _ _ _ _ _ _ _ _ _ _) as [L|]; [eauto | discriminate]. }
  split; [exact Hiff |].
  intros Hn.
  destruct (greedy_decode St lstm_cell exp tanh self symbol states features (Some gt) kwargs)
    as [[ids scores]|e] eqn:E; [| eauto].
  exfalso. apply Hn. apply Hiff. eauto.
Qed.

Lemma greedy_decode_teacher_forcing_bound_witness :
  (∃ ids scores,
     greedy_decode _ echo_cell exp1 tanh1 tiny_decoder [2%Z] [[0%Q]] tiny_features
       (Some [[0; 0]]%Z) ∅ = Ok (ids, scores)) ∧
  (∃ e,
     greedy_decode _ echo_cell exp1 tanh1 tiny_decoder [2%Z] [[0%Q]] tiny_features
       (Some [[0]]%Z) ∅ = Raise e).
Proof.
  split.
  - apply (proj1 (greedy_decode_teacher_forcing_bound _ echo_cell exp1 tanh1 tiny_decoder
                    ∅ 1 [2%Z] [[0%Q]] tiny_features [[0; 0]]%Z
                    Nat.lt_0_1 eq_refl eq_refl eq_refl eq_refl)).
    repeat constructor.
  - apply (proj2 (greedy_decode_teacher_forcing_bound _ echo_cell exp1 tanh1 tiny_decoder
                    ∅ 1 [2%Z] [[0%Q]] tiny_features [[0]]%Z
                    Nat.lt_0_1 eq_refl eq_refl eq_refl eq_refl)).
    intros H. apply List.Forall_inv in H. vm_compute in H. lia.
Defined.

(** A ground truth of another number of rows than the batch is refused by
    the cells of the second step. *)
Example greedy_decode_gt_rows_run :
  greedy_decode _ echo_cell exp1 tanh1 tiny_decoder [2; 2; 2]%Z [[0%Q]; [0%Q]; [0%Q]]
    (tiny_features ++ tiny_features ++ tiny_features)%list (Some [[0; 0]; [0; 0]]%Z) ∅
  = Raise (InvalidArgumentError "Incompatible shapes").
Proof. vm_compute. reflexivity. Qed.

(** X3. Replaying a free-running decode as teacher forcing changes nothing:
    on a batch of [N] samples, the ids the greedy decode returns without
    ground truth, passed back as ground truth, give the same ids and
    scores. *)
Theorem greedy_decode_replay (St : Type)
    (lstm_cell : gmap string pyval → list Q → St → list Q * St) (exp tanh : Q → Q)
    (self : SARDecoder) (kwargs : gmap string pyval) (N : nat)
    (symbol : list Z) (states : list St) (features : tens 4)
    (ids : list (list Z)) (scores : tens 3) :
  length symbol = N → length states = N → length features = N →
  greedy_decode St lstm_cell exp tanh self symbol states features None kwargs
  = Ok (ids, scores) →
  greedy_decode St lstm_cell exp tanh self symbol states features (Some ids) kwargs
  = Ok (ids, scores).
Proof.
  intros Hs Hst Hf H.
  apply greedy_decode_loop in H as (L & E & Hlen & _ & -> & ->).
  assert (HN : Forall (fun m => length m = N) L).
  { eapply (greedy_loop_batch St lstm_cell exp tanh self kwargs features N None);
      [exact Hf | exact Hs | exact Hst | exact E | constructor]. }
  assert (Hids : length (List.map (List.map argmax) (stack_axis1 L)) = N).
  { rewrite length_map. unfold stack_axis1. rewrite length_map, length_seq.
    destruct L as [|m L']; [simpl in Hlen; lia |]. exact (List.Forall_inv HN). }
  unfold greedy_decode.
  enough (Hloop : ∀ ts symbol states acc,
            length symbol = N → length states = N →
            greedy_loop St lstm_cell exp tanh self kwargs features None ts symbol states acc
            = Ok L →
            (∀ k t, nth_error ts k = Some t → t = (length acc + k)%nat) →
            greedy_loop St lstm_cell exp tanh self kwargs features
              (Some (List.map (List.map argmax) (stack_axis1 L))) ts symbol states acc
            = Ok L).
  { rewrite (Hloop (seq 0 (max_length self + 1)) symbol states [] Hs Hst E).
    - reflexivity.
    - intros k t Hk. simpl.
      assert (Hk' : (k < length (seq 0 (max_length self + 1)))%nat)
        by (apply nth_error_Some; congruence).
      rewrite length_seq in Hk'.
      rewrite (nth_error_nth' _ 0%nat) in Hk by (rewrite length_seq; exact Hk').
      rewrite seq_nth in Hk by exact Hk'. injection Hk as <-. reflexivity. }
  clear E symbol states Hs Hst.
  induction ts as [|t ts IH]; intros symbol states acc Hs Hst E Hidx;
    cbn [greedy_loop] in E |- *; [exact E |].
  destruct (greedy_step_shape St lstm_cell exp tanh self kwargs features N symbol states
              Hs Hst Hf) as (logits & states' & Es & Hl & Hst' & _).
  rewrite Es in E |- *. cbn [rbind next_symbol] in E. cbn [rbind].
  pose proof (greedy_loop_prefix St lstm_cell exp tanh self kwargs features None ts
                _ _ _ _ E) as (new & HL & _).
  assert (Ht : t = length acc).
  { rewrite (Hidx 0%nat t eq_refl). lia. }
  assert (Hnth : nth t L [] = logits).
  { rewrite HL, <- app_assoc, Ht. rewrite app_nth2 by lia.
    rewrite Nat.sub_diag. reflexivity. }
  rewrite next_symbol_forced by congruence.
  rewrite (gt_column_of_ids N L t HN).
  - rewrite Hnth. cbn [rbind].
    apply IH.
    + rewrite length_map. exact Hl.
    + exact Hst'.
    + exact E.
    + intros k t' Hk. rewrite length_app. simpl.
      rewrite (Hidx (S k) t' Hk), <- Nat.add_assoc. reflexivity.
  - rewrite HL, !length_app, Ht. cbn [length].
    apply Nat.lt_lt_add_r. rewrite Nat.add_1_r. apply Nat.lt_succ_diag_r.
Qed.

Lemma greedy_decode_replay_witness :
  greedy_decode _ echo_cell exp1 tanh1 tiny_decoder [2%Z] [[0%Q]] tiny_features
    (Some [[0; 0]]%Z) ∅
  = Ok ([[0; 0]]%Z, [[[1; 0]; [1; 0]]]%Q).
Proof.
  apply (greedy_decode_replay _ echo_cell exp1 tanh1 tiny_decoder ∅ 1
           [2%Z] [[0%Q]] tiny_features);
    solve [reflexivity | vm_compute; reflexivity].
Defined.

(** X4. Every id of the greedy decode is the position of a maximal score:
    on a batch of [N] samples, with or without ground truth, the id at
    (sample, step) is the first position at which that step's row of
    scores is greatest, hence one of [0 .. vocab_size]. *)
Theorem greedy_ids_index_maximal_scores (St : Type)
    (lstm_cell : gmap string pyval → list Q → St → list Q * St) (exp tanh : Q → Q)
    (rnn_units maxlen vocab attention_units : nat) (w : DecoderWeights)
    (kwargs : gmap string pyval) (N : nat)
    (symbol : list Z) (states : list St) (features : tens 4)
    (gt : option (list (list Z))) (ids : list (list Z)) (scores : tens 3) :
  length symbol = N → length states = N → length features = N →
  (∀ g, gt = Some g → length g = N) →
  greedy_decode St lstm_cell exp tanh
    (SARDecoder_init rnn_units maxlen vocab attention_units w)
    symbol states features gt kwargs = Ok (ids, scores) →
  Forall2 (Forall2 (fun row i => first_max row i ∧ (0 <= i <= Z.of_nat vocab)%Z))
          scores ids.
Proof.
  intros Hs Hst Hf Hgt H.
  destruct (greedy_decode_batch St lstm_cell exp tanh _ kwargs features N
              symbol states gt ids scores Hs Hst Hf H) as (_ & H2 & ->).
  eapply Forall2_map_self; [| exact H2]. cbv beta. intros sample [_ Hrows].
  eapply Forall2_map_self; [| exact Hrows]. cbv beta. intros row Hrow.
  cbn [SARDecoder_init output_dense units] in Hrow.
  assert (Hne : row ≠ []) by (intros ->; simpl in Hrow; lia).
  pose proof (argmax_first_max row Hne) as Hm. split; [exact Hm |].
  destruct Hm as [Hr _]. rewrite Hrow in Hr. lia.
Qed.

Lemma greedy_ids_index_maximal_scores_witness :
  Forall2 (Forall2 (fun row i => first_max row i ∧ (0 <= i <= Z.of_nat 1)%Z))
          [[[1; 0]; [1; 0]]]%Q [[0; 0]]%Z.
Proof.
  apply (greedy_ids_index_maximal_scores _ echo_cell exp1 tanh1 1 1 1 1 tiny_weights ∅ 1
           [2%Z] [[0%Q]] tiny_features None);
    solve [reflexivity | discriminate | vm_compute; reflexivity].
Defined.

Lemma gt_column_firstn (gt : list (list Z)) (m t : nat) :
  (t < m)%nat → gt_column (List.map (firstn m) gt) t = gt_column gt t.
Proof.
  intros Ht. induction gt as [|row gt IH]; [reflexivity |].
  cbn [List.map gt_column fold_right].
  fold (gt_column gt t). fold (gt_column (List.map (firstn m) gt) t).
  rewrite IH, nth_error_firstn.
  destruct (Nat.ltb_spec t m); [reflexivity | lia].
Qed.

(** X5. Teacher forcing never uses the last column it reads: two ground
    truths whose rows have at least [max_length + 1] entries and agree on
    their first [max_length] columns give the same ids and scores. *)
Theorem greedy_decode_ignores_last_gt_column (St : Type)
    (lstm_cell : gmap string pyval → list Q → St → list Q * St) (exp tanh : Q → Q)
    (self : SARDecoder) (kwargs : gmap string pyval)
    (symbol : list Z) (states : list St) (features : tens 4) (gt gt' : list (list Z)) :
  Forall (fun row => (max_length self + 1 <= length row)%nat) gt →
  Forall (fun row => (max_length self + 1 <= length row)%nat) gt' →
  List.map (firstn (max_length self)) gt = List.map (firstn (max_length self)) gt' →
  greedy_decode St lstm_cell exp tanh self symbol states features (Some gt) kwargs
  = greedy_decode St lstm_cell exp tanh self symbol states features (Some gt') kwargs.
Proof.
  intros Hg Hg' Heq. unfold greedy_decode. f_equal.
  assert (Hcol : ∀ t, (t < max_length self)%nat → gt_column gt t = gt_column gt' t).
  { intros t Ht. rewrite <- (gt_column_firstn gt _ t Ht), Heq. apply gt_column_firstn, Ht. }
  assert (Hex : ∀ g t, Forall (fun row => (max_length self + 1 <= length row)%nat) g →
                       (t <= max_length self)%nat → ∃ col, gt_column g t = Ok col).
  { intros g t Hall Ht. apply gt_column_ok. eapply List.Forall_impl; [| exact Hall].
    cbv beta. intros row Hrow. lia. }
  enough (Hloop : ∀ n k symbol states acc, (k + n = max_length self + 1)%nat →
            greedy_loop St lstm_cell exp tanh self kwargs features (Some gt)
              (seq k n) symbol states acc
            = greedy_loop St lstm_cell exp tanh self kwargs features (Some gt')
              (seq k n) symbol states acc).
  { apply Hloop. reflexivity. }
  induction n as [|n IH]; intros k symbol' states' acc Hk; [reflexivity |].
  cbn [seq greedy_loop].
  destruct (greedy_step St lstm_cell exp tanh self kwargs symbol' states' features)
    as [[logits states'']|]; [| reflexivity].
  cbn [rbind]. unfold next_symbol. destruct n as [|n].
  - destruct (Hex gt k Hg ltac:(lia)) as [col ->].
    destruct (Hex gt' k Hg' ltac:(lia)) as [col' ->]. reflexivity.
  - rewrite (Hcol k) by lia. cbn [seq].
    destruct (gt_column gt' k); [| reflexivity]. cbn [rbind].
    destruct (teacher_symbol _ _); [| reflexivity]. cbn [rbind]. apply IH. lia.
Qed.

Lemma greedy_decode_ignores_last_gt_column_witness :
  greedy_decode _ echo_cell exp1 tanh1 tiny_decoder [2%Z] [[0%Q]] tiny_features
    (Some [[0; 0]]%Z) ∅
  = greedy_decode _ echo_cell exp1 tanh1 tiny_decoder [2%Z] [[0%Q]] tiny_features
      (Some [[0; 1; 7]]%Z) ∅.
Proof.
  apply greedy_decode_ignores_last_gt_column;
    solve [reflexivity | repeat constructor].
Defined.

(** ** The decoder on a batch *)

(** X6. [SARDecoder.call] on a batch: with [N] feature maps and [N]
    holistic vectors the unrolled loop, when it runs without ground truth,
    always returns, and whatever it returns has ids of shape
    (N, max_length + 1) and scores of shape (N, max_length + 1,
    vocab_size + 1). *)
Theorem SARDecoder_call_greedy_shapes (St : Type)
    (lstm_cell : gmap string pyval → list Q → St → list Q * St) (zero_state : St)
    (exp tanh ln : Q → Q)
    (rnn_units maxlen vocab attention_units : nat) (w : DecoderWeights)
    (features : tens 4) (holistic : tens 2) (gt : option (list (list Z)))
    (beam_width : option Z) (kwargs : gmap string pyval) (N : nat) :
  length features = N → length holistic = N →
  (∀ g, gt = Some g → length g = N) →
  uses_greedy kwargs beam_width = true →
  let self := SARDecoder_init rnn_units maxlen vocab attention_units w in
  (gt = None →
   ∃ dec, SARDecoder_call St lstm_cell zero_state exp tanh ln self features holistic gt
            beam_width kwargs = Ok dec) ∧
  (∀ dec,
     SARDecoder_call St lstm_cell zero_state exp tanh ln self features holistic gt
       beam_width kwargs = Ok dec →
     ∃ ids scores,
       dec = GreedyOut ids scores ∧
       length ids = N ∧ Forall (fun row => length row = (maxlen + 1)%nat) ids ∧
       length scores = N ∧
       Forall (fun sample =>
                 length sample = (maxlen + 1)%nat ∧
                 Forall (fun row => length row = (vocab + 1)%nat) sample) scores).
Proof.
  intros Hf Hh Hgt Hpath self. unfold SARDecoder_call. rewrite Hpath.
  unfold lstm_decoder.
  set (states := List.map snd (zip_with (lstm_cell kwargs) holistic
                                 (repeat zero_state (length features)))).
  set (symbol := repeat (Z.of_nat (vocab_size self + 1)) (length features)).
  assert (Hst : length states = N).
  { unfold states. rewrite length_map, length_zip_with, repeat_length. lia. }
  assert (Hsy : length symbol = N) by (unfold symbol; rewrite repeat_length; exact Hf).
  split.
  - intros ->.
    destruct (greedy_decode_total St lstm_cell exp tanh self kwargs features symbol states)
      as (ids & scores & ->).
    cbn [rbind]. eauto.
  - intros dec H.
    destruct (greedy_decode St lstm_cell exp tanh self symbol states features gt kwargs)
      as [[ids scores]|] eqn:E; [| discriminate].
    cbn [rbind] in H. injection H as <-. exists ids, scores. split; [reflexivity |].
    destruct (greedy_decode_batch St lstm_cell exp tanh self kwargs features N
                symbol states gt ids scores Hsy Hst Hf E) as (H1 & H2 & ->).
    split; [rewrite length_map; exact H1 |]. split; [| split; [exact H1 | exact H2]].
    apply List.Forall_forall. intros row Hrow.
    apply in_map_iff in Hrow as (sample & <- & Hsample).
    rewrite List.Forall_forall in H2. rewrite length_map. apply (H2 sample Hsample).
Qed.

Lemma SARDecoder_call_greedy_shapes_witness :
  ∃ dec, SARDecoder_call (list Q) echo_cell [0%Q] exp1 tanh1 ln1
           (SARDecoder_init 1 1 1 1 tiny_weights) tiny_features [[0%Q]] None None ∅
         = Ok dec.
Proof.
  apply (SARDecoder_call_greedy_shapes (list Q) echo_cell [0%Q] exp1 tanh1 ln1 1 1 1 1
           tiny_weights tiny_features [[0%Q]] None None ∅ 1);
    solve [reflexivity | discriminate].
Defined.

(** ** The attention module: a distribution over the locations *)

Lemma Qsum_app (l l' : list Q) : (Qsum (l ++ l') == Qsum l + Qsum l')%Q.
Proof.
  unfold Qsum. induction l as [|x l IH]; cbn [app fold_right].
  - ring.
  - rewrite IH. ring.
Qed.

Lemma Qsum_map_le {A} (f g : A → Q) (l : list A) :
  (∀ i, In i l → (f i <= g i)%Q) → (Qsum (List.map f l) <= Qsum (List.map g l))%Q.
Proof.
  induction l as [|i l IH]; intros H; cbn [List.map Qsum fold_right].
  - apply Qle_refl.
  - apply Qplus_le_compat; [apply H; left; reflexivity |].
    apply IH. intros j Hj. apply H. right. exact Hj.
Qed.

Lemma Qsum_map_eq {A} (f g : A → Q) (l : list A) :
  (∀ i, In i l → (f i == g i)%Q) → (Qsum (List.map f l) == Qsum (List.map g l))%Q.
Proof.
  intros H. apply Qle_antisym; apply Qsum_map_le; intros i Hi;
    rewrite (H i Hi); apply Qle_refl.
Qed.

Lemma Qsum_map_scale {A} (c : Q) (f : A → Q) (l : list A) :
  (Qsum (List.map (fun i => c * f i) l) == c * Qsum (List.map f l))%Q.
Proof.
  unfold Qsum. induction l as [|i l IH]; cbn [List.map fold_right].
  - ring.
  - rewrite IH. ring.
Qed.

Lemma Qsum_pos (l : list Q) :
  l ≠ [] → Forall (fun x => 0 < x)%Q l → (0 < Qsum l)%Q.
Proof.
  intros Hne H. induction H as [|x l Hx Hl IH]; [congruence |].
  cbn [Qsum fold_right]. fold (Qsum l). destruct l as [|y l'].
  - simpl. rewrite Qplus_0_r. exact Hx.
  - rewrite <- (Qplus_0_r 0). apply Qplus_lt_le_compat; [exact Hx |].
    apply Qlt_le_weak, IH. discriminate.
Qed.

Lemma length_concat_const {A} (n : nat) (l : list (list A)) :
  Forall (fun x => length x = n) l → length (concat l) = (length l * n)%nat.
Proof.
  induction 1 as [|x l Hx _ IH]; [reflexivity |].
  cbn [concat length]. rewrite length_app, IH, Hx. reflexivity.
Qed.

(** The sum of a flat vector of [H * W] entries, taken row by row. *)
Lemma Qsum_rows (W : nat) : ∀ (H : nat) (l : list Q),
  length l = (H * W)%nat →
  (Qsum (List.map (fun h => Qsum (List.map (fun w => nth (h * W + w) l 0) (seq 0 W)))
           (seq 0 H)) == Qsum l)%Q.
Proof.
  induction H as [|H IH]; intros l Hl.
  - destruct l; [reflexivity | discriminate].
  - transitivity (Qsum (firstn W l ++ skipn W l));
      [| rewrite firstn_skipn; reflexivity].
    rewrite Qsum_app.
    cbn [seq List.map Qsum fold_right]. rewrite <- seq_shift, List.map_map.
    apply Qplus_comp.
    + transitivity (Qsum (List.map (fun w => nth w (firstn W l) 0%Q)
                            (seq 0 (length (firstn W l)))));
        [| rewrite map_nth_seq; reflexivity].
      rewrite length_firstn, Hl. replace (Nat.min W (S H * W)) with W by lia.
      apply Qsum_map_eq. intros w Hw. apply in_seq in Hw. cbn [Nat.mul Nat.add].
      rewrite nth_firstn. destruct (Nat.ltb_spec w W); [reflexivity | lia].
    + rewrite <- (IH (skipn W l)) by (rewrite length_skipn, Hl; lia).
      apply Qsum_map_eq. intros h _. apply Qsum_map_eq. intros w _.
      rewrite nth_skipn. replace (S h * W + w)%nat with (W + (h * W + w))%nat by lia.
      reflexivity.
Qed.

Lemma Qsum_nonneg (l : list Q) : Forall (fun x => 0 <= x)%Q l → (0 <= Qsum l)%Q.
Proof.
  induction 1 as [|x l Hx _ IH]; cbn [Qsum fold_right]; [apply Qle_refl |].
  fold (Qsum l). rewrite <- (Qplus_0_r 0). apply Qplus_le_compat; assumption.
Qed.

Lemma Qsum_ge_entry (l : list Q) (y : Q) :
  Forall (fun x => 0 <= x)%Q l → In y l → (y <= Qsum l)%Q.
Proof.
  induction 1 as [|x l Hx Hl IH]; intros Hy; [contradiction |].
  cbn [Qsum fold_right]. fold (Qsum l). destruct Hy as [<- | Hy].
  - rewrite <- (Qplus_0_r x) at 1. apply Qplus_le_compat; [apply Qle_refl |].
    apply Qsum_nonneg, Hl.
  - rewrite <- (Qplus_0_l y). apply Qplus_le_compat; [exact Hx | apply IH, Hy].
Qed.

Lemma qmax_in (a b : Q) : qmax a b = a ∨ qmax a b = b.
Proof. unfold qmax. destruct (Qle_bool a b); auto. Qed.

Lemma maximum_in (l : list Q) : l ≠ [] → In (maximum l) l.
Proof.
  intros Hne. unfold maximum.
  assert (H : ∀ d, In (fold_right qmax d l) (d :: l)).
  { clear Hne. induction l as [|x l IH]; intros d; [left; reflexivity |].
    cbn [fold_right]. destruct (qmax_in x (fold_right qmax d l)) as [-> | ->].
    - right. left. reflexivity.
    - destruct (IH d) as [E | E]; [left; exact E | right; right; exact E]. }
  destruct l as [|x l']; [congruence |]. cbn [hd].
  destruct (H x) as [E | E]; [rewrite <- E; left; reflexivity | exact E].
Qed.

Section Softmax.
Variable exp : Q → Q.
Hypothesis exp_nonneg : ∀ x, (0 <= exp x)%Q.
Hypothesis exp_zero_pos : ∀ x, (x == 0)%Q → (0 < exp x)%Q.

Lemma softmax_length (l : list Q) : length (softmax exp l) = length l.
Proof. unfold softmax. rewrite !length_map. reflexivity. Qed.

Lemma shifted_nonneg (l : list Q) :
  Forall (fun e => 0 <= e)%Q (List.map (fun x => exp (x - maximum l)%Q) l).
Proof.
  apply List.Forall_forall. intros e He. apply in_map_iff in He as (x & <- & _).
  apply exp_nonneg.
Qed.

(** The entry at the maximum is shifted to zero, so the shifted sum is
    positive. *)
Lemma shifted_sum_pos (l : list Q) :
  l ≠ [] → (0 < Qsum (List.map (fun x => exp (x - maximum l)%Q) l))%Q.
Proof.
  intros Hne. pose proof (maximum_in l Hne) as Hin.
  eapply Qlt_le_trans;
    [apply (exp_zero_pos (maximum l - maximum l)%Q); ring |].
  apply Qsum_ge_entry; [apply shifted_nonneg |].
  apply in_map_iff. exists (maximum l). split; [reflexivity | exact Hin].
Qed.

Lemma softmax_nonneg (l : list Q) : Forall (fun a => 0 <= a)%Q (softmax exp l).
Proof.
  destruct l as [|x0 l0]; [constructor |].
  set (l := x0 :: l0). assert (Hne : l ≠ []) by discriminate.
  apply List.Forall_forall. intros a Ha. unfold softmax in Ha. cbv zeta in Ha.
  apply in_map_iff in Ha as (e & <- & He).
  apply in_map_iff in He as (x & <- & _).
  apply Qle_shift_div_l; [apply shifted_sum_pos, Hne |]. rewrite Qmult_0_l.
  apply exp_nonneg.
Qed.

Lemma softmax_sum (l : list Q) : l ≠ [] → (Qsum (softmax exp l) == 1)%Q.
Proof.
  intros Hne. unfold softmax. cbv zeta.
  pose proof (shifted_sum_pos l Hne) as Hs.
  set (shifted := List.map (fun x => exp (x - maximum l)%Q) l) in *.
  transitivity (Qsum (List.map (fun e => / Qsum shifted * e)%Q shifted)).
  - apply Qsum_map_eq. intros x _. unfold Qdiv. ring.
  - pose proof (Qsum_map_scale (/ Qsum shifted) (fun e => e) shifted) as E.
    cbv beta in E. rewrite List.map_id in E. rewrite E.
    field. intros E0. rewrite E0 in Hs. apply (Qlt_irrefl 0), Hs.
Qed.

Lemma softmax_le_one (l : list Q) : Forall (fun a => a <= 1)%Q (softmax exp l).
Proof.
  destruct l as [|x0 l0]; [constructor |].
  set (l := x0 :: l0). assert (Hne : l ≠ []) by discriminate.
  apply List.Forall_forall. intros a Ha.
  rewrite <- (softmax_sum l Hne). apply Qsum_ge_entry; [apply softmax_nonneg | exact Ha].
Qed.
End Softmax.

Lemma conv2d_call_shape (L : Conv2D) (f : tens 3) :
  length (conv2d_call L f) = height f ∧
  Forall (fun row => length row = width f ∧
                     Forall (fun px => length px = filters L) row) (conv2d_call L f).
Proof.
  unfold conv2d_call. rewrite length_map, length_seq. split; [reflexivity |].
  apply List.Forall_forall. intros row Hrow. apply in_map_iff in Hrow as (h & <- & _).
  rewrite length_map, length_seq. split; [reflexivity |].
  apply List.Forall_forall. intros px Hpx. apply in_map_iff in Hpx as (w & <- & _).
  unfold conv_at. rewrite length_map, length_seq. reflexivity.
Qed.

Lemma width_of_rows (W : nat) (f : tens 3) :
  f ≠ [] → Forall (fun row => length row = W) f → width f = W.
Proof.
  intros Hne H. destruct f as [|row f']; [exfalso; apply Hne; reflexivity |].
  exact (List.Forall_inv H).
Qed.

(** The scores of an H x W feature map under a 1 x 1 hidden state: one
    score per location. *)
Lemma attention_scores_shape (tanh : Q → Q) (M : AttentionModule)
    (features : tens 3) (hidden : list Q) (H W : nat) :
  filters (attention_projector M) = 1%nat →
  (0 < H)%nat → (0 < W)%nat →
  length features = H → Forall (fun row => length row = W) features →
  length (flatten3 (attention_scores tanh M features [[hidden]])) = (H * W)%nat.
Proof.
  intros Hfil HH HW Hlen Hrows. unfold attention_scores.
  set (hp := conv2d_call (hidden_state_projector M) [[hidden]]).
  set (fp := conv2d_call (features_projector M) features).
  assert (Hne : features ≠ []) by (intros ->; simpl in Hlen; lia).
  destruct (conv2d_call_shape (features_projector M) features) as [Hfp1 Hfp2].
  fold fp in Hfp1, Hfp2. unfold height in Hfp1.
  rewrite (width_of_rows W features Hne Hrows) in Hfp2.
  assert (Hhp : ∃ c, hp = [[c]]) by (eexists; reflexivity).
  destruct Hhp as [c Hhp]. rewrite Hhp. clearbody hp fp.
  set (proj := List.map (List.map (List.map tanh)) (broadcast_add [[c]] fp)).
  assert (Hp : length proj = H ∧ Forall (fun row => length row = W) proj).
  { unfold proj, broadcast_add. rewrite length_map, length_map, length_seq.
    cbn [length]. rewrite Hfp1, Hlen. split; [lia |].
    apply List.Forall_forall. intros row Hrow.
    apply in_map_iff in Hrow as (row' & <- & Hrow').
    apply in_map_iff in Hrow' as (h & <- & Hh). apply in_seq in Hh.
    rewrite !length_map, length_seq.
    change (bget [[c]] h []) with [c]. cbn [length].
    assert (Hb : length (bget fp h []) = W).
    { rewrite List.Forall_forall in Hfp2. apply Hfp2. unfold bget.
      destruct (length fp =? 1)%nat; apply nth_In; lia. }
    rewrite Hb. lia. }
  destruct Hp as [Hp1 Hp2].
  assert (Hpne : proj ≠ []) by (intros E; rewrite E in Hp1; simpl in Hp1; lia).
  destruct (conv2d_call_shape (attention_projector M) proj) as [Hs1 Hs2].
  unfold height in Hs1. rewrite (width_of_rows W proj Hpne Hp2), Hfil in Hs2.
  unfold flatten3.
  rewrite (length_concat_const 1).
  - rewrite (length_concat_const W).
    + rewrite Hs1, Hp1. lia.
    + eapply List.Forall_impl; [| exact Hs2]. cbv beta. tauto.
  - apply List.Forall_forall. intros px Hpx. apply in_concat in Hpx as (row & Hrow & Hpx).
    rewrite List.Forall_forall in Hs2. destruct (Hs2 row Hrow) as [_ Hall].
    rewrite List.Forall_forall in Hall. apply Hall, Hpx.
Qed.

Lemma zip_with_map_same {A B C I} (F : A → B → C) (u : I → A) (v : I → B) (s : list I) :
  zip_with F (List.map u s) (List.map v s) = List.map (fun i => F (u i) (v i)) s.
Proof. induction s as [|i s IH]; cbn [List.map zip_with]; congruence. Qed.

(** Channel [d] of the glimpse is the sum, over the locations, of the
    feature's channel [d] times the weight of the location. *)
Lemma glimpse_channel (H W D : nat) (f : tens 3) (a : list Q) (d : nat) :
  length f = H → Forall (fun row => length row = W) f → (d < D)%nat →
  (nth d (reduce_sum_hw D (multiply_map f (reshape_hw1 H W a))) 0
   == Qsum (List.map (fun h =>
        Qsum (List.map (fun w =>
          nth d (nth w (nth h f []) []) 0 * nth (h * W + w) a 0) (seq 0 W)))
        (seq 0 H)))%Q.
Proof.
  intros Hlen Hrows Hd. unfold reduce_sum_hw.
  rewrite (nth_indep _ 0%Q ((fun d => Qsum (List.map (fun row =>
             Qsum (List.map (fun px => nth d px 0%Q) row))
             (multiply_map f (reshape_hw1 H W a)))) 0%nat))
    by (rewrite length_map, length_seq; exact Hd).
  rewrite (List.map_nth (fun d => Qsum (List.map (fun row =>
             Qsum (List.map (fun px => nth d px 0%Q) row))
             (multiply_map f (reshape_hw1 H W a)))) (seq 0 D) 0%nat d).
  rewrite seq_nth by exact Hd. cbn [Nat.add].
  assert (Eg : multiply_map f (reshape_hw1 H W a)
               = List.map (fun h => List.map (fun w =>
                   List.map (fun x => (x * nth (h * W + w) a 0)%Q)
                            (nth w (nth h f []) [])) (seq 0 W)) (seq 0 H)).
  { unfold multiply_map, reshape_hw1.
    rewrite <- (map_nth_seq f []) at 1. rewrite Hlen.
    rewrite zip_with_map_same.
    apply List.map_ext_in. intros h Hh. apply in_seq in Hh.
    assert (Hr : length (nth h f []) = W).
    { rewrite List.Forall_forall in Hrows. apply Hrows, nth_In. lia. }
    rewrite <- (map_nth_seq (nth h f []) []) at 1. rewrite Hr.
    rewrite zip_with_map_same. reflexivity. }
  rewrite Eg, List.map_map. apply Qsum_map_eq. intros h _.
  rewrite List.map_map. apply Qsum_map_eq. intros w _.
  set (px := nth w (nth h f []) []). set (c := nth (h * W + w)%nat a 0%Q).
  destruct (Nat.lt_ge_cases d (length px)) as [Hlt | Hge].
  - rewrite (nth_indep _ 0%Q ((fun x => x * c)%Q 0%Q)) by (rewrite length_map; exact Hlt).
    rewrite (List.map_nth (fun x => (x * c)%Q) px 0%Q d). reflexivity.
  - rewrite !nth_overflow by (rewrite ?length_map; exact Hge). ring.
Qed.

(** X7. Over an H x W feature map the attention weights are a probability
    distribution on the H * W locations: one weight per location, each
    between zero and one, summing to one. A weight may be exactly zero
    where [exp] underflows; the hypotheses on [exp] are that it is never
    negative and is positive at zero. *)
Theorem attention_weights_distribution (exp tanh : Q → Q) (attention_units : nat)
    (Wh Wf Wa : list (list (list (list Q)))) (bf : list Q)
    (features : tens 3) (hidden : list Q) (H W : nat) :
  (∀ x, (0 <= exp x)%Q) → (∀ x, (x == 0)%Q → (0 < exp x)%Q) →
  (0 < H)%nat → (0 < W)%nat →
  length features = H → Forall (fun row => length row = W) features →
  let a := attention_weights exp tanh
             (AttentionModule_init attention_units Wh Wf Wa bf) features [[hidden]] in
  length a = (H * W)%nat ∧ Forall (fun x => 0 <= x <= 1)%Q a ∧ (Qsum a == 1)%Q.
Proof.
  intros Hnn Hz HH HW Hlen Hrows a. unfold a, attention_weights.
  pose proof (attention_scores_shape tanh (AttentionModule_init attention_units Wh Wf Wa bf)
                features hidden H W eq_refl HH HW Hlen Hrows) as Hs.
  split; [rewrite softmax_length; exact Hs |].
  split.
  - pose proof (softmax_nonneg exp Hnn Hz
                  (flatten3 (attention_scores tanh
                     (AttentionModule_init attention_units Wh Wf Wa bf) features [[hidden]])))
      as H0.
    pose proof (softmax_le_one exp Hnn Hz
                  (flatten3 (attention_scores tanh
                     (AttentionModule_init attention_units Wh Wf Wa bf) features [[hidden]])))
      as H1.
    rewrite List.Forall_forall in H0, H1. apply List.Forall_forall. intros x Hx.
    split; [apply H0, Hx | apply H1, Hx].
  - apply softmax_sum; [exact Hnn | exact Hz |].
    intros E. rewrite E in Hs. simpl in Hs. nia.
Qed.

Lemma exp1_pos (x : Q) : (0 < exp1 x)%Q.
Proof. destruct x as [n d]. unfold exp1, Qlt. simpl. nia. Qed.

Lemma exp_cut_nonneg (x : Q) : (0 <= exp_cut x)%Q.
Proof.
  unfold exp_cut. destruct (Qle_bool x (-1)); [apply Qle_refl |].
  apply Qlt_le_weak, exp1_pos.
Qed.

Lemma exp_cut_zero_pos (x : Q) : (x == 0)%Q → (0 < exp_cut x)%Q.
Proof.
  intros Hx. unfold exp_cut. destruct (Qle_bool x (-1)) eqn:E; [| apply exp1_pos].
  apply Qle_bool_iff in E. rewrite Hx in E. unfold Qle in E. simpl in E. lia.
Qed.

Lemma attention_weights_distribution_witness :
  let a := attention_weights exp_cut tanh1
             (AttentionModule_init 1 [[[[1%Q]]]] (repeat (repeat [[1%Q]] 3) 3)
                [[[[1%Q]]]] [0%Q])
             [[[0%Q]; [0%Q]; [0%Q]; [9%Q]]] [[[1%Q]]] in
  length a = (1 * 4)%nat ∧ Forall (fun x => 0 <= x <= 1)%Q a ∧ (Qsum a == 1)%Q.
Proof.
  apply (attention_weights_distribution exp_cut tanh1 1 [[[[1%Q]]]]
           (repeat (repeat [[1%Q]] 3) 3) [[[[1%Q]]]] [0%Q]
           [[[0%Q]; [0%Q]; [0%Q]; [9%Q]]] [1%Q] 1 4).
  - exact exp_cut_nonneg.
  - exact exp_cut_zero_pos.
  - lia.
  - lia.
  - reflexivity.
  - repeat constructor.
Defined.

(** Where [exp] underflows the weights of the low scores are exactly
    zero. *)
Example attention_weights_underflow_run :
  Forall2 Qeq
    (attention_weights exp_cut tanh1
       (AttentionModule_init 1 [[[[1%Q]]]] (repeat (repeat [[1%Q]] 3) 3)
          [[[[1%Q]]]] [0%Q])
       [[[0%Q]; [0%Q]; [0%Q]; [9%Q]]] [[[1%Q]]])
    [0; 0; 1 # 2; 1 # 2]%Q.
Proof. vm_compute. repeat constructor. Qed.

(** X8. The glimpse is a convex combination of the feature vectors: every
    channel of the glimpse lies between the least and the greatest value
    that channel takes over the locations of the map. *)
Theorem attention_glimpse_within_feature_range (exp tanh : Q → Q) (attention_units : nat)
    (Wh Wf Wa : list (list (list (list Q)))) (bf : list Q)
    (features : tens 3) (hidden : list Q) (H W d : nat) (lo hi : Q) :
  (∀ x, (0 < exp x)%Q) → (0 < H)%nat → (0 < W)%nat →
  length features = H → Forall (fun row => length row = W) features →
  (d < channels features)%nat →
  (∀ row px, In row features → In px row → (lo <= nth d px 0 <= hi)%Q) →
  let glimpse := attention_sample exp tanh
                   (AttentionModule_init attention_units Wh Wf Wa bf)
                   features [[hidden]] in
  length glimpse = channels features ∧ (lo <= nth d glimpse 0 <= hi)%Q.
Proof.
  intros Hexp HH HW Hlen Hrows Hd Hbnd glimpse.
  split; [apply reduce_sum_hw_length |].
  pose proof (attention_scores_shape tanh (AttentionModule_init attention_units Wh Wf Wa bf)
                features hidden H W eq_refl HH HW Hlen Hrows) as Hs.
  set (a := attention_weights exp tanh
              (AttentionModule_init attention_units Wh Wf Wa bf) features [[hidden]]).
  assert (Hal : length a = (H * W)%nat)
    by (unfold a, attention_weights; rewrite softmax_length; exact Hs).
  assert (Hnn : ∀ x, (0 <= exp x)%Q) by (intros x; apply Qlt_le_weak, Hexp).
  assert (Hapos : Forall (fun x => 0 <= x)%Q a)
    by (unfold a, attention_weights; apply softmax_nonneg; auto).
  assert (Hasum : (Qsum a == 1)%Q).
  { unfold a, attention_weights. apply softmax_sum; [exact Hnn | auto |].
    intros E. rewrite E in Hs. simpl in Hs. nia. }
  unfold glimpse, attention_sample. fold a.
  assert (Hne : features ≠ []) by (intros E; rewrite E in Hlen; simpl in Hlen; lia).
  unfold height. rewrite (width_of_rows W features Hne Hrows), Hlen.
  rewrite (glimpse_channel H W (channels features) features a d Hlen Hrows Hd).
  assert (Hsum : (Qsum (List.map (fun h => Qsum (List.map (fun w =>
                    nth (h * W + w) a 0) (seq 0 W))) (seq 0 H)) == 1)%Q).
  { rewrite (Qsum_rows W H a Hal). exact Hasum. }
  assert (Hscale : ∀ c : Q,
            (Qsum (List.map (fun h => Qsum (List.map (fun w =>
                c * nth (h * W + w) a 0) (seq 0 W))) (seq 0 H)) == c)%Q).
  { intros c.
    transitivity (Qsum (List.map (fun h => c * Qsum (List.map (fun w =>
                    nth (h * W + w) a 0) (seq 0 W)))%Q (seq 0 H))).
    - apply Qsum_map_eq. intros h _.
      apply (Qsum_map_scale c (fun w => nth (h * W + w) a 0%Q)).
    - rewrite (Qsum_map_scale c (fun h => Qsum (List.map (fun w =>
                 nth (h * W + w) a 0%Q) (seq 0 W)))), Hsum. ring. }
  assert (Hin : ∀ h w, In h (seq 0 H) → In w (seq 0 W) →
            (lo <= nth d (nth w (nth h features []) []) 0 <= hi)%Q ∧
            (0 <= nth (h * W + w) a 0)%Q).
  { intros h w Hh Hw. apply in_seq in Hh. apply in_seq in Hw.
    assert (Hrow : In (nth h features []) features) by (apply nth_In; lia).
    split.
    - apply (Hbnd _ _ Hrow). apply nth_In.
      rewrite List.Forall_forall in Hrows. rewrite (Hrows _ Hrow). lia.
    - rewrite List.Forall_forall in Hapos. apply Hapos, nth_In.
      rewrite Hal. nia. }
  split.
  - rewrite <- (Hscale lo) at 1. apply Qsum_map_le. intros h Hh.
    apply Qsum_map_le. intros w Hw. destruct (Hin h w Hh Hw) as [[Hlo _] Ha].
    apply Qmult_le_compat_r; assumption.
  - rewrite <- (Hscale hi) at 1. apply Qsum_map_le. intros h Hh.
    apply Qsum_map_le. intros w Hw. destruct (Hin h w Hh Hw) as [[_ Hhi] Ha].
    apply Qmult_le_compat_r; assumption.
Qed.

Lemma attention_glimpse_within_feature_range_witness :
  let glimpse := attention_sample exp1 tanh1
                   (AttentionModule_init 1 [[[[1%Q]]]] (repeat (repeat [[1%Q]] 3) 3)
                      [[[[1%Q]]]] [0%Q])
                   [[[1%Q]; [2%Q]]; [[3%Q]; [5%Q]]] [[[1%Q]]] in
  length glimpse = 1%nat ∧ (1 <= nth 0 glimpse 0 <= 5)%Q.
Proof.
  apply (attention_glimpse_within_feature_range exp1 tanh1 1 [[[[1%Q]]]]
           (repeat (repeat [[1%Q]] 3) 3) [[[[1%Q]]]] [0%Q]
           [[[1%Q]; [2%Q]]; [[3%Q]; [5%Q]]] [1%Q] 2 2 0 1%Q 5%Q).
  - exact exp1_pos.
  - lia.
  - lia.
  - reflexivity.
  - repeat constructor.
  - unfold channels. simpl. lia.
  - intros row px Hrow Hpx. simpl in Hrow.
    destruct Hrow as [<- | [<- | []]]; simpl in Hpx;
      destruct Hpx as [<- | [<- | []]]; simpl; split; discriminate.
Defined.

(** ** The post-processor: round trip, valid ids, leading beams *)

(** The EOS marker has no proper overlap with itself: an occurrence that
    starts inside [w] in [w ++ "<eos>" ++ r] lies inside [w]. *)
Lemma eos_no_straddle (w r : string) :
  w ≠ "" → String.prefix eos_marker (w ++ eos_marker ++ r) = true →
  String.prefix eos_marker w = true.
Proof.
  intros Hne H. destruct (prefix_split _ _ H) as [rest E]. clear H.
  unfold eos_marker in *.
  destruct w as [|c1 [|c2 [|c3 [|c4 [|c5 w]]]]]; [congruence | | | | |];
    rewrite ?app_String, ?app_Empty in E; injection E; intros; subst;
    try discriminate.
  apply (prefix_app "<eos>" w).
Qed.

Lemma before_first_eos_app (w r : string) :
  occurs eos_marker w = false → before_first eos_marker (w ++ eos_marker ++ r) = w.
Proof.
  induction w as [|c w IH]; intros Hocc.
  - rewrite app_Empty. destruct (eos_marker ++ r) eqn:E; [reflexivity |].
    cbn [before_first]. rewrite <- E, prefix_app. reflexivity.
  - cbn [occurs] in Hocc. apply orb_false_iff in Hocc as [Hp Ho].
    rewrite app_String. cbn [before_first].
    destruct (String.prefix eos_marker (String c (w ++ eos_marker ++ r))) eqn:E.
    + rewrite <- app_String in E. apply eos_no_straddle in E; [congruence | discriminate].
    + f_equal. apply IH, Ho.
Qed.

Lemma join_app (a b : list string) :
  fold_right append "" (a ++ b)%list = fold_right append "" a ++ fold_right append "" b.
Proof.
  induction a as [|x a IH]; cbn [app fold_right].
  - reflexivity.
  - rewrite IH, string_app_assoc. reflexivity.
Qed.

Lemma decode_ids_joined (self : SARPostProcessor) (ids : list Z) :
  Forall (fun i => 0 <= i < Z.of_nat (length (_embedding self)))%Z ids →
  decode_ids self ids = Ok (before_first eos_marker (joined_entries (_embedding self) ids)).
Proof.
  intros H. unfold decode_ids. rewrite (lookup_join_total _ _ H). cbn [rbind].
  rewrite strings_split_head. reflexivity.
Qed.

Lemma lookup_join_raises (table : list string) (ids : list Z) (e : exn) :
  lookup_join table ids = Raise e → e = InvalidArgumentError "indices out of range".
Proof.
  induction ids as [|i ids IH]; cbn [lookup_join]; [discriminate |].
  destruct ((0 <=? i)%Z && (i <? Z.of_nat (length table))%Z); [| congruence].
  destruct (lookup_join table ids); [discriminate |]. cbn [rbind].
  intros [= <-]. apply IH. reflexivity.
Qed.

Lemma decode_ids_ok_iff (self : SARPostProcessor) (ids : list Z) :
  (∃ s, decode_ids self ids = Ok s) ↔
  Forall (fun i => 0 <= i < Z.of_nat (length (_embedding self)))%Z ids.
Proof.
  split.
  - intros [s H]. unfold decode_ids in H.
    destruct (lookup_join _ ids) eqn:E; [| discriminate].
    eapply lookup_join_in_range. exact E.
  - intros H. rewrite (decode_ids_joined self ids H). eauto.
Qed.

Lemma decode_ids_raises (self : SARPostProcessor) (ids : list Z) (e : exn) :
  decode_ids self ids = Raise e → e = InvalidArgumentError "indices out of range".
Proof.
  unfold decode_ids. destruct (lookup_join _ ids) eqn:E; [discriminate |].
  cbn [rbind]. intros [= <-]. eapply lookup_join_raises. exact E.
Qed.

Lemma collect_ok_iff {A B} (f : A → result B) (l : list A) :
  (∃ rs, collect (List.map f l) = Ok rs) ↔ Forall (fun x => ∃ r, f x = Ok r) l.
Proof.
  split; [| apply collect_total].
  intros [rs H]. apply collect_Forall2 in H.
  induction H as [|x r l rs Hx _ IH]; constructor; eauto.
Qed.

Lemma collect_raises {A B} (f : A → result B) (l : list A) (e : exn) (P : exn → Prop) :
  (∀ x e', f x = Raise e' → P e') → collect (List.map f l) = Raise e → P e.
Proof.
  intros Hf. induction l as [|x l IH]; simpl; [discriminate |].
  destruct (f x) eqn:E; simpl.
  - destruct (collect (List.map f l)); simpl; [discriminate |].
    intros [= <-]. apply IH. reflexivity.
  - intros [= <-]. eapply Hf. exact E.
Qed.

Lemma Forall2_firstn {A B} (R : A → B → Prop) (n : nat) (l : list A) (l' : list B) :
  Forall2 R l l' → Forall2 R (firstn n l) (firstn n l').
Proof.
  intros H. revert n. induction H as [|x y l l' Hxy _ IH]; intros [|n]; simpl;
    constructor; auto.
Qed.

(** X9. Round trip through the decode table: a row of ids that selects the
    text [w] entry by entry, followed by the id of the EOS marker and any
    further valid ids, decodes to [w], provided the characters of [w] do
    not themselves spell the marker. *)
Theorem decode_ids_round_trip (self : SARPostProcessor) (ids rest : list Z) (eos : Z) :
  (0 <= eos < Z.of_nat (length (_embedding self)))%Z →
  nth (Z.to_nat eos) (_embedding self) "" = eos_marker →
  Forall (fun i => 0 <= i < Z.of_nat (length (_embedding self)))%Z ids →
  Forall (fun i => 0 <= i < Z.of_nat (length (_embedding self)))%Z rest →
  occurs eos_marker (joined_entries (_embedding self) ids) = false →
  decode_ids self (ids ++ eos :: rest)%list = Ok (joined_entries (_embedding self) ids) ∧
  decode_ids self ids = Ok (joined_entries (_embedding self) ids).
Proof.
  intros Heos Hentry Hids Hrest Hocc. split.
  - rewrite decode_ids_joined
      by (apply List.Forall_app; split; [exact Hids | constructor; assumption]).
    f_equal. unfold joined_entries in *.
    rewrite List.map_app, join_app. cbn [List.map fold_right]. rewrite Hentry.
    apply before_first_eos_app. exact Hocc.
  - rewrite (decode_ids_joined self ids Hids). f_equal.
    destruct (before_first_cases eos_marker (joined_entries (_embedding self) ids))
      as [[_ E] | [E _]]; [exact E | congruence].
Qed.

Lemma decode_ids_round_trip_witness :
  decode_ids (SARPostProcessor_init "abc") [2; 0; 1; 3; 1; 1]%Z = Ok "cab" ∧
  decode_ids (SARPostProcessor_init "abc") [2; 0; 1]%Z = Ok "cab".
Proof.
  apply (decode_ids_round_trip (SARPostProcessor_init "abc") [2; 0; 1]%Z [1; 1]%Z 3%Z).
  - vm_compute. split; [discriminate | reflexivity].
  - reflexivity.
  - repeat (apply List.Forall_cons; [vm_compute; split; [discriminate | reflexivity] |]).
    apply List.Forall_nil.
  - repeat (apply List.Forall_cons; [vm_compute; split; [discriminate | reflexivity] |]).
    apply List.Forall_nil.
  - reflexivity.
Defined.

(** X10. On a batch of (N, T) ids with (N, T, C) scores, N > 0 and [C] the
    length of the decode table, the post-processor returns exactly when
    every id indexes the table, with one decoded string and one confidence
    per row of ids; otherwise it stops with the framework's error for an
    invalid argument, as it does on ids that have not the shape of the
    scores' leading axes. [top_sequences = 0] counts as absent. *)
Theorem call_greedy_returns_iff_ids_in_table (exp ln : Q → Q) (self : SARPostProcessor)
    (ids : list (list Z)) (scores : tens 3) (top_sequences : option Z) :
  top_sequences = None ∨ top_sequences = Some 0%Z →
  ids ≠ [] →
  Forall (Forall (fun logits : list Q => length logits = length (_embedding self))) scores →
  let in_table := Forall (Forall (fun i =>
                    0 <= i < Z.of_nat (length (_embedding self)))%Z) ids in
  (same_shape2 ids scores = true → in_table →
   ∃ probs,
     SARPostProcessor_call exp ln self (GreedyOut ids scores) top_sequences
     = Ok (Preds1
             (List.map (fun row => before_first eos_marker
                                     (joined_entries (_embedding self) row)) ids)
             probs) ∧
     length probs = length ids) ∧
  (same_shape2 ids scores = false ∨ ¬ in_table →
   ∃ msg,
     SARPostProcessor_call exp ln self (GreedyOut ids scores) top_sequences
     = Raise (InvalidArgumentError msg)).
Proof.
  intros Htop _ Hscores in_table.
  assert (Ht : match top_sequences with Some n => truthy (PyInt n) | None => false end
               = false) by (destruct Htop as [-> | ->]; reflexivity).
  split.
  - intros Hshape Hin. exists (zip_with (geometric_mean exp ln) scores ids). split.
    + apply call_greedy_ok; [exact Ht | exact Hshape | |].
      * apply (gather_in_range_classes (length (_embedding self))); assumption.
      * eapply List.Forall_impl; [| exact Hin]. cbv beta. intros row Hrow.
        apply decode_ids_joined. exact Hrow.
    + apply same_shape2_Forall2, Forall2_length in Hshape.
      rewrite length_zip_with. lia.
  - intros Hbad. unfold SARPostProcessor_call. rewrite Ht.
    destruct (same_shape2 ids scores) eqn:Hshape; cbn [negb]; [| eauto].
    destruct (gather_in_range ids scores); cbn [negb]; [| eauto].
    destruct (collect (List.map (decode_ids self) ids)) as [strs|e] eqn:E; cbn [rbind].
    + exfalso. destruct Hbad as [Hbad | Hbad]; [discriminate |]. apply Hbad.
      apply collect_Forall2 in E. unfold in_table. clear -E.
      induction E as [|row s ids strs Hd _ IH]; constructor; [| exact IH].
      apply decode_ids_ok_iff. eauto.
    + exists "indices out of range". f_equal.
      apply (collect_raises (decode_ids self) ids e
               (fun e => e = InvalidArgumentError "indices out of range"));
        [apply decode_ids_raises | exact E].
Qed.

Lemma call_greedy_returns_iff_ids_in_table_witness :
  ∃ probs,
    SARPostProcessor_call exp1 ln1 (SARPostProcessor_init "abc")
      (GreedyOut [[0; 3]; [1; 2]]%Z
         [[[1; 0; 0; 0]; [0; 0; 0; 1]]; [[0; 1; 0; 0]; [0; 0; 1; 0]]]%Q) (Some 0%Z)
    = Ok (Preds1 ["a"; "bc"] probs) ∧
    length probs = 2%nat.
Proof.
  apply (call_greedy_returns_iff_ids_in_table exp1 ln1 (SARPostProcessor_init "abc")
           [[0; 3]; [1; 2]]%Z
           [[[1; 0; 0; 0]; [0; 0; 0; 1]]; [[0; 1; 0; 0]; [0; 0; 1; 0]]]%Q (Some 0%Z)).
  - right. reflexivity.
  - discriminate.
  - repeat (apply List.Forall_cons || apply List.Forall_nil); reflexivity.
  - reflexivity.
  - repeat (apply List.Forall_cons || apply List.Forall_nil); vm_compute;
      (split; [discriminate | reflexivity]).
Defined.

(** An id that indexes no entry of the table, on scores of the shape of
    the ids. *)
Example call_greedy_id_outside_table_run :
  SARPostProcessor_call exp1 ln1 (SARPostProcessor_init "abc")
    (GreedyOut [[0; 4]; [1; 3]]%Z
       [[[1; 0; 0; 0]; [0; 0; 0; 1]]; [[0; 1; 0; 0]; [0; 0; 1; 0]]]%Q) None
  = Raise (InvalidArgumentError "indices out of range").
Proof. reflexivity. Qed.

(** X11. With [top_sequences = n > 0] on the output of the beam search,
    every sample keeps its first [n] beams, in order, with the
    exponentials of their scores; the ids of the beams that are cut away
    are decoded all the same, so one invalid id there still fails the
    call. *)
Theorem call_beam_keeps_leading_beams (exp ln : Q → Q) (self : SARPostProcessor)
    (ids : list (list (list Z))) (scores : tens 2) (n : Z) :
  (0 < n)%Z →
  let valid := Forall (Forall (Forall (fun i =>
                 0 <= i < Z.of_nat (length (_embedding self)))%Z)) ids in
  (valid →
   ∃ strs,
     SARPostProcessor_call exp ln self (BeamOut ids scores) (Some n)
     = Ok (Preds2 strs
             (List.map (fun row => firstn (Z.to_nat n) (List.map exp row)) scores)) ∧
     Forall2 (fun beams ss =>
                Forall2 (fun row s => decode_ids self row = Ok s)
                        (firstn (Z.to_nat n) beams) ss) ids strs) ∧
  (¬ valid →
   SARPostProcessor_call exp ln self (BeamOut ids scores) (Some n)
   = Raise (InvalidArgumentError "indices out of range")).
Proof.
  intros Hn valid.
  assert (Ht : truthy (PyInt n) = true).
  { cbn. destruct n; try reflexivity; lia. }
  assert (Hs : ∀ A (l : list A), slice_to n l = firstn (Z.to_nat n) l).
  { intros A l. unfold slice_to. destruct (Z.leb_spec 0 n); [reflexivity | lia]. }
  unfold SARPostProcessor_call. rewrite Ht. cbn [default].
  destruct (collect (List.map (fun beams => collect (List.map (decode_ids self) beams)) ids))
    as [strs|e] eqn:E; cbn [rbind].
  - assert (Hv : valid).
    { apply collect_Forall2 in E. unfold valid. clear -E.
      induction E as [|beams ss ids strs Hd _ IH]; constructor; [| exact IH].
      apply collect_Forall2 in Hd. clear -Hd.
      induction Hd as [|row s beams ss Hd _ IH]; constructor; [| exact IH].
      apply decode_ids_ok_iff. eauto. }
    split; [| tauto]. intros _. eexists. split.
    + f_equal. f_equal. rewrite List.map_map. apply List.map_ext. intros row. apply Hs.
    + apply collect_Forall2 in E. clear -E Hs.
      induction E as [|beams ss ids strs Hd _ IH]; cbn [List.map]; constructor; [| exact IH].
      rewrite Hs. apply Forall2_firstn. apply collect_Forall2. exact Hd.
  - split.
    + intros Hv. exfalso.
      destruct (proj2 (collect_ok_iff (fun beams => collect (List.map (decode_ids self) beams))
                         ids)) as [rs Hrs]; [| congruence].
      eapply List.Forall_impl; [| exact Hv]. cbv beta. intros beams Hb.
      apply collect_ok_iff. eapply List.Forall_impl; [| exact Hb]. cbv beta.
      intros row Hrow. apply decode_ids_ok_iff. exact Hrow.
    + intros _. f_equal.
      apply (collect_raises (fun beams => collect (List.map (decode_ids self) beams)) ids e
               (fun e => e = InvalidArgumentError "indices out of range")); [| exact E].
      intros beams e' He'.
      apply (collect_raises (decode_ids self) beams e'
               (fun e => e = InvalidArgumentError "indices out of range"));
        [apply decode_ids_raises | exact He'].
Qed.

Lemma call_beam_keeps_leading_beams_witness :
  SARPostProcessor_call exp1 ln1 (SARPostProcessor_init "abc")
    (BeamOut [[[0; 3]; [1; 7]]]%Z [[0; -1]]%Q) (Some 1%Z)
  = Raise (InvalidArgumentError "indices out of range").
Proof.
  apply (call_beam_keeps_leading_beams exp1 ln1 (SARPostProcessor_init "abc")
           [[[0; 3]; [1; 7]]]%Z [[0; -1]]%Q 1%Z).
  - lia.
  - intros H. apply List.Forall_inv in H. apply List.Forall_inv_tail in H.
    apply List.Forall_inv in H. apply List.Forall_inv_tail in H.
    apply List.Forall_inv in H. vm_compute in H. destruct H as [_ H]. discriminate.
Defined.

(** ** One-hot vectors select rows: the embedding and label smoothing *)

Lemma dot_one_hot_from (i : Z) (n : nat) : ∀ (k : nat) (y : list Q),
  (dot (List.map (fun j => if (Z.of_nat j =? i)%Z then 1%Q else 0%Q) (seq k n)) y
   == if ((Z.of_nat k <=? i) && (i <? Z.of_nat (k + n)))%Z
      then nth (Z.to_nat i - k) y 0 else 0)%Q.
Proof.
  unfold dot, Qsum.
  induction n as [|n IH]; intros k y.
  - cbn [seq List.map zip_with fold_right].
    destruct ((Z.of_nat k <=? i) && (i <? Z.of_nat (k + 0)))%Z eqn:E; [| reflexivity].
    apply andb_true_iff in E as [E1 E2]. apply Z.leb_le in E1. apply Z.ltb_lt in E2. lia.
  - destruct y as [|x y].
    + cbn [seq List.map zip_with fold_right].
      destruct ((Z.of_nat k <=? i) && (i <? Z.of_nat (k + S n)))%Z; [| reflexivity].
      destruct (Z.to_nat i - k)%nat; reflexivity.
    + cbn [seq List.map zip_with fold_right]. rewrite (IH (S k) y).
      destruct (Z.eqb_spec (Z.of_nat k) i) as [<- | Hne].
      * replace ((Z.of_nat (S k) <=? Z.of_nat k) && (Z.of_nat k <? Z.of_nat (S k + n)))%Z
          with false by (symmetry; apply andb_false_iff; left; apply Z.leb_gt; lia).
        replace ((Z.of_nat k <=? Z.of_nat k) && (Z.of_nat k <? Z.of_nat (k + S n)))%Z
          with true
          by (symmetry; apply andb_true_iff; split; [apply Z.leb_le | apply Z.ltb_lt]; lia).
        rewrite Nat2Z.id, Nat.sub_diag. cbn [nth]. ring.
      * destruct ((Z.of_nat (S k) <=? i) && (i <? Z.of_nat (S k + n)))%Z eqn:E.
        -- apply andb_true_iff in E as [E1 E2]. apply Z.leb_le in E1. apply Z.ltb_lt in E2.
           replace ((Z.of_nat k <=? i) && (i <? Z.of_nat (k + S n)))%Z with true
             by (symmetry; apply andb_true_iff; split;
                 [apply Z.leb_le | apply Z.ltb_lt]; lia).
           replace (Z.to_nat i - k)%nat with (S (Z.to_nat i - S k)) by lia.
           cbn [nth]. ring.
        -- replace ((Z.of_nat k <=? i) && (i <? Z.of_nat (k + S n)))%Z with false.
           ++ ring.
           ++ symmetry. apply andb_false_iff. apply andb_false_iff in E as [E | E].
              ** left. apply Z.leb_gt. apply Z.leb_gt in E. lia.
              ** right. apply Z.ltb_ge. apply Z.ltb_ge in E. lia.
Qed.

(** The product of a one-hot vector with [y] is the entry of [y] at the hot
    position. *)
Lemma dot_one_hot (depth : nat) (i : Z) (y : list Q) :
  (0 <= i < Z.of_nat depth)%Z → (dot (one_hot depth i) y == nth (Z.to_nat i) y 0)%Q.
Proof.
  intros Hi. unfold one_hot. rewrite (dot_one_hot_from i depth 0 y).
  replace ((Z.of_nat 0 <=? i) && (i <? Z.of_nat (0 + depth)))%Z with true
    by (symmetry; apply andb_true_iff; split; [apply Z.leb_le | apply Z.ltb_lt]; lia).
  rewrite Nat.sub_0_r. reflexivity.
Qed.

Lemma nth_column (j i : nat) (m : list (list Q)) :
  nth i (column j m) 0%Q = nth j (nth i m []) 0%Q.
Proof.
  unfold column. destruct (Nat.lt_ge_cases i (length m)) as [Hlt | Hge].
  - rewrite (nth_indep _ 0%Q ((fun row => nth j row 0%Q) [])) by (rewrite length_map; exact Hlt).
    apply (List.map_nth (fun row => nth j row 0%Q)).
  - rewrite (nth_overflow (List.map _ m)) by (rewrite length_map; exact Hge).
    rewrite (nth_overflow m) by exact Hge. destruct j; reflexivity.
Qed.

(** X12. The embedding is a table lookup: for a token in [0 .. vocab_size]
    the embedded vector is the row of the embedding kernel at the token's
    position, entry by entry. *)
Theorem embed_token_is_kernel_row (rnn_units maxlen vocab attention_units : nat)
    (w : DecoderWeights) (token : list Z) :
  Forall (fun t => 0 <= t <= Z.of_nat vocab)%Z token →
  Forall2 (fun t row =>
             length row = rnn_units ∧
             ∀ j, (j < rnn_units)%nat →
                  (nth j row 0 == nth j (nth (Z.to_nat t) (w_embed w) []) 0)%Q)
          token
          (embed_token (SARDecoder_init rnn_units maxlen vocab attention_units w) token).
Proof.
  intros H. unfold embed_token. cbn [SARDecoder_init vocab_size embed].
  rewrite List.map_map. eapply Forall2_map_self; [| exact H]. cbv beta. intros t Ht.
  unfold dense_call. cbn [units kernel bias]. rewrite length_map, length_seq.
  split; [reflexivity |]. intros j Hj.
  rewrite (nth_indep _ 0%Q ((fun j => dot (one_hot (vocab + 1) t) (column j (w_embed w)))
                              0%nat)) by (rewrite length_map, length_seq; exact Hj).
  rewrite (List.map_nth (fun j => dot (one_hot (vocab + 1) t) (column j (w_embed w)))
             (seq 0 rnn_units) 0%nat j).
  rewrite seq_nth by exact Hj. cbn [Nat.add].
  rewrite dot_one_hot by lia. rewrite nth_column. reflexivity.
Qed.

Lemma embed_token_is_kernel_row_witness :
  Forall2 (fun t row =>
             length row = 2%nat ∧
             ∀ j, (j < 2)%nat →
                  (nth j row 0 == nth j (nth (Z.to_nat t) [[1; 2]; [3; 4]; [5; 6]] []) 0)%Q)
          [1; 2; 0]%Z
          (embed_token (SARDecoder_init 2 1 2 1
                          (mkDecoderWeights [[1; 2]; [3; 4]; [5; 6]]%Q [] [] [] [] [] []))
                       [1; 2; 0]%Z).
Proof.
  apply (embed_token_is_kernel_row 2 1 2 1
           (mkDecoderWeights [[1; 2]; [3; 4]; [5; 6]]%Q [] [] [] [] [] []) [1; 2; 0]%Z).
  repeat (apply List.Forall_cons; [lia |]). apply List.Forall_nil.
Defined.

Lemma Forall2_map_r_nested {A B C} (R : A → C → Prop) (f : B → C) (g : A → B)
    (l : list (list A)) :
  (∀ x, R x (f (g x))) →
  Forall2 (Forall2 R) l (List.map (List.map f) (List.map (List.map g) l)).
Proof.
  intros H. rewrite List.map_map.
  apply (Forall2_map_self (fun _ => True)); [| apply List.Forall_forall; auto].
  intros row _. rewrite List.map_map.
  apply (Forall2_map_self (fun _ => True)); [| apply List.Forall_forall; auto].
  intros x _. apply H.
Qed.

(** X13. Label smoothing replaces the one-hot label of a class by that
    class's row of the confusion matrix: with a C x C [conf_matrix] among
    the keyword arguments, the loss of the logits path compares each
    timestep's logits with the row of the matrix at the ground-truth id. *)
Theorem label_smoothing_uses_confusion_rows
    (softmax_cross_entropy_with_logits categorical_crossentropy : list Q → list Q → Q)
    (exp : Q → Q) (logits : tens 3) (gt : list (list Z)) (kwargs : gmap string pyval)
    (conf_matrix : list (list Q)) :
  let C := length (hd [] (hd [] logits)) in
  kwargs !! "conf_matrix" = Some (PyTensor 2 conf_matrix) →
  length conf_matrix = C → Forall (fun row => length row = C) conf_matrix →
  same_shape2 gt logits = true →
  ∃ labels,
    per_timestep_loss softmax_cross_entropy_with_logits categorical_crossentropy exp
      (mkAnyTensor 3 logits) gt true kwargs
    = Ok (zip_with (zip_with softmax_cross_entropy_with_logits) labels logits,
          length (hd [] logits)) ∧
    Forall2 (Forall2 (fun i label =>
               length label = C ∧
               ((0 <= i < Z.of_nat C)%Z →
                ∀ j, (nth j label 0 == nth j (nth (Z.to_nat i) conf_matrix []) 0)%Q)))
            gt labels.
Proof.
  intros C Hkw Hlen Hrows Hs. cbn [per_timestep_loss]. fold C.
  assert (Hw : length (hd [] conf_matrix) = C).
  { destruct conf_matrix as [|r m]; [exact Hlen | exact (List.Forall_inv Hrows)]. }
  unfold kwargs_get. rewrite Hkw. cbn [from_option id smooth_labels].
  rewrite Hlen, Nat.eqb_refl. cbn [rbind]. rewrite Hw.
  rewrite softmax_cross_entropy_same_shape by (rewrite !same_shape2_map_l; exact Hs).
  cbn [rbind]. eexists. split; [reflexivity |].
  apply Forall2_map_r_nested. intros i. unfold vecmat.
  rewrite length_map, length_seq, Hw. split; [reflexivity |]. intros Hi j.
  destruct (Nat.lt_ge_cases j C) as [Hj | Hj].
  - rewrite (nth_indep _ 0%Q ((fun j => dot (one_hot C i) (column j conf_matrix)) 0%nat))
      by (rewrite length_map, length_seq; exact Hj).
    rewrite (List.map_nth (fun j => dot (one_hot C i) (column j conf_matrix))
               (seq 0 C) 0%nat j).
    rewrite seq_nth by exact Hj. cbn [Nat.add].
    rewrite dot_one_hot by exact Hi. rewrite nth_column. reflexivity.
  - rewrite !nth_overflow; [reflexivity | |].
    + assert (Hin : In (nth (Z.to_nat i) conf_matrix []) conf_matrix)
        by (apply nth_In; lia).
      rewrite List.Forall_forall in Hrows. rewrite (Hrows _ Hin). exact Hj.
    + rewrite length_map, length_seq. exact Hj.
Qed.

Lemma label_smoothing_uses_confusion_rows_witness :
  ∃ labels,
    per_timestep_loss ce1 ce1 exp1
      (mkAnyTensor 3 [[[1; 0]; [0; 1]]]%Q) [[0; 1]]%Z true
      {["conf_matrix" := PyTensor 2 [[9 # 10; 1 # 10]; [2 # 10; 8 # 10]]%Q]}
    = Ok (zip_with (zip_with ce1) labels [[[1; 0]; [0; 1]]]%Q, 2%nat) ∧
    Forall2 (Forall2 (fun i label =>
               length label = 2%nat ∧
               ((0 <= i < 2)%Z →
                ∀ j, (nth j label 0
                      == nth j (nth (Z.to_nat i) [[9 # 10; 1 # 10]; [2 # 10; 8 # 10]] []) 0)%Q)))
            [[0; 1]]%Z labels.
Proof.
  apply (label_smoothing_uses_confusion_rows ce1 ce1 exp1 [[[1; 0]; [0; 1]]]%Q
           [[0; 1]]%Z {["conf_matrix" := PyTensor 2 [[9 # 10; 1 # 10]; [2 # 10; 8 # 10]]%Q]}
           [[9 # 10; 1 # 10]; [2 # 10; 8 # 10]]%Q).
  - reflexivity.
  - reflexivity.
  - repeat constructor.
  - reflexivity.
Defined.

(** ** SAR.call: what the returned mapping holds *)

Section ModelFacts.
Variable St : Type.
Variable lstm_cell : gmap string pyval → list Q → St → list Q * St.
Variable zero_state : St.
Variables exp tanh ln : Q → Q.
Variable softmax_cross_entropy_with_logits : list Q → list Q → Q.
Variable categorical_crossentropy : list Q → list Q → Q.
Variable Image : Type.
Variable Encoder : Type.
Variable feat_extractor_call :
  FeatureExtractor → Image → gmap string pyval → result (tens 4).
Variable encoder_call : Encoder → tens 3 → gmap string pyval → result (tens 2).
Variable compute_target : SAR Encoder → list string → result (list (list Z) * list Z).

Local Abbreviation model_call :=
  (SAR_call St lstm_cell zero_state exp tanh ln softmax_cross_entropy_with_logits
     categorical_crossentropy Image Encoder feat_extractor_call encoder_call
     compute_target).

(** The decoder answers with the output of the path it took. *)
Lemma SARDecoder_call_path (self : SARDecoder) (features : tens 4) (holistic : tens 2)
    (gt : option (list (list Z))) (beam_width : option Z) (kwargs : gmap string pyval)
    (dec : decoded) :
  SARDecoder_call St lstm_cell zero_state exp tanh ln self features holistic gt
    beam_width kwargs = Ok dec →
  if uses_greedy kwargs beam_width
  then ∃ ids scores, dec = GreedyOut ids scores
  else ∃ ids scores, dec = BeamOut ids scores.
Proof.
  unfold SARDecoder_call.
  destruct (lstm_decoder St lstm_cell kwargs holistic _) as [o states].
  destruct (uses_greedy kwargs beam_width).
  - destruct (greedy_decode _ _ _ _ _ _ _ _ _ _) as [[ids scores]|]; [| discriminate].
    cbn [rbind]. intros [= <-]. eauto.
  - destruct (beam_decode _ _ _ _ _ _ _ _ _ _ _) as [[ids scores]|]; [| discriminate].
    cbn [rbind]. intros [= <-]. eauto.
Qed.

Lemma compute_loss_rank2 (scores : tens 2) (gt : list (list Z)) (seq_len : list Z)
    (from_logits : bool) (kwargs : gmap string pyval) :
  compute_loss softmax_cross_entropy_with_logits categorical_crossentropy exp
    (mkAnyTensor 2 scores) gt seq_len from_logits kwargs
  = Raise (InvalidArgumentError "rank").
Proof. reflexivity. Qed.

(** The steps of a returning call. *)
Lemma SAR_call_inv (self : SAR Encoder) (x : Image) (target : option (list string))
    (return_model_output return_preds : pyval) (beam_width top_sequences : option Z)
    (kwargs : gmap string pyval) (out : gmap string outval) :
  model_call self x target return_model_output return_preds beam_width top_sequences kwargs
  = Ok out →
  ∃ features encoded dec,
    feat_extractor_call (feat_extractor Encoder self) x kwargs = Ok features ∧
    encoder_call (encoder Encoder self) (reduce_max_axis1 features) kwargs = Ok encoded ∧
    let out0 : gmap string outval :=
      if truthy return_model_output
      then <["out_map" := OutScores (decoded_scores_of dec)]> ∅ else ∅ in
    ∃ out1,
      (if match target with None => true | Some _ => truthy return_preds end
       then ∃ preds,
              SARPostProcessor_call exp ln (postprocessor Encoder self) dec top_sequences
              = Ok preds ∧ out1 = <["preds" := OutPreds preds]> out0
       else out1 = out0) ∧
      match target with
      | None =>
          SARDecoder_call St lstm_cell zero_state exp tanh ln (decoder Encoder self)
            features encoded None beam_width kwargs = Ok dec ∧
          out = out1
      | Some t =>
          ∃ gt seq_len loss,
            compute_target self t = Ok (gt, seq_len) ∧
            SARDecoder_call St lstm_cell zero_state exp tanh ln (decoder Encoder self)
              features encoded (Some gt) beam_width kwargs = Ok dec ∧
            compute_loss softmax_cross_entropy_with_logits categorical_crossentropy exp
              (decoded_scores_of dec) gt (List.map int32 seq_len)
              (uses_greedy kwargs beam_width) kwargs = Ok loss ∧
            out = <["loss" := OutLoss loss]> out1
      end.
Proof.
  unfold SAR_call. intros H.
  destruct (feat_extractor_call _ x kwargs) as [features|] eqn:Ef; [| discriminate].
  cbn [rbind] in H.
  destruct (encoder_call _ _ kwargs) as [encoded|] eqn:Ee; [| discriminate].
  cbn [rbind] in H.
  exists features, encoded.
  destruct target as [t|].
  - destruct (compute_target self t) as [[gt seq_len]|] eqn:Et; [| discriminate].
    cbn [rbind option_map fst] in H.
    destruct (SARDecoder_call _ _ _ _ _ _ _ _ _ _ _ _) as [dec|] eqn:Ed; [| discriminate].
    cbn [rbind] in H. exists dec. split; [reflexivity |]. split; [exact Ee |].
    cbv zeta. destruct (truthy return_preds).
    + destruct (SARPostProcessor_call _ _ _ dec top_sequences) as [preds|] eqn:Ep;
      [| discriminate].
      cbn [rbind] in H.
      destruct (compute_loss _ _ _ _ _ _ _ _) as [loss|] eqn:El; [| discriminate].
      cbn [rbind] in H. injection H as <-.
      eexists. split; [exists preds; split; reflexivity |].
      exists gt, seq_len, loss. auto.
    + cbn [rbind] in H.
      destruct (compute_loss _ _ _ _ _ _ _ _) as [loss|] eqn:El; [| discriminate].
      cbn [rbind] in H. injection H as <-.
      eexists. split; [reflexivity |]. exists gt, seq_len, loss. auto.
  - cbn [rbind option_map] in H.
    destruct (SARDecoder_call _ _ _ _ _ _ _ _ _ _ _ _) as [dec|] eqn:Ed; [| discriminate].
    cbn [rbind] in H. exists dec. split; [reflexivity |]. split; [exact Ee |].
    cbv zeta.
    destruct (SARPostProcessor_call _ _ _ dec top_sequences) as [preds|] eqn:Ep;
      [| discriminate].
    cbn [rbind] in H. injection H as <-.
    eexists. split; [exists preds; split; reflexivity |]. auto.
Qed.

(** X14. The keys of the mapping a returning call hands back: "out_map"
    exactly when [return_model_output] is true, "preds" exactly when there
    is no target or [return_preds] is true, "loss" exactly when there is a
    target, and no other key. *)
Theorem SAR_call_result_keys (self : SAR Encoder) (x : Image)
    (target : option (list string)) (return_model_output return_preds : pyval)
    (beam_width top_sequences : option Z) (kwargs : gmap string pyval)
    (out : gmap string outval) :
  model_call self x target return_model_output return_preds beam_width top_sequences kwargs
  = Ok out →
  dom out
  = (if truthy return_model_output then {["out_map"]} else ∅) ∪
    (if match target with None => true | Some _ => truthy return_preds end
     then {["preds"]} else ∅) ∪
    (match target with None => ∅ | Some _ => {["loss"]} end : gset string).
Proof.
  intros H. apply SAR_call_inv in H as (features & encoded & dec & _ & _ & H).
  cbv zeta in H. destruct H as (out1 & H1 & H2).
  assert (H0 : dom (if truthy return_model_output
                    then <["out_map" := OutScores (decoded_scores_of dec)]> ∅
                    else (∅ : gmap string outval))
               = (if truthy return_model_output then {["out_map"]} else ∅ : gset string)).
  { destruct (truthy return_model_output); [rewrite dom_insert_L |];
      rewrite dom_empty_L; [apply union_empty_r_L | reflexivity]. }
  assert (H1' : dom out1
                = (if truthy return_model_output then {["out_map"]} else ∅) ∪
                  (if match target with None => true | Some _ => truthy return_preds end
                   then {["preds"]} else ∅ : gset string)).
  { destruct (match target with None => true | Some _ => truthy return_preds end).
    - destruct H1 as (preds & _ & ->). rewrite dom_insert_L, H0.
      apply union_comm_L.
    - subst out1. rewrite H0. symmetry. apply union_empty_r_L. }
  destruct target as [t|].
  - destruct H2 as (gt & seq_len & loss & _ & _ & _ & ->).
    rewrite dom_insert_L, H1'. apply union_comm_L.
  - destruct H2 as [_ ->]. rewrite H1'. symmetry. apply union_empty_r_L.
Qed.

(** X15. The loss needs the logits of the unrolled loop: a call with a
    target that takes the beam-search path ([beam_width] given, not
    training) never returns, whatever the backbone, the encoder and the
    target encoding do. *)
Theorem SAR_call_target_with_beam_search_raises (self : SAR Encoder) (x : Image)
    (target : list string) (return_model_output return_preds : pyval)
    (beam_width top_sequences : option Z) (kwargs : gmap string pyval) :
  uses_greedy kwargs beam_width = false →
  ∃ e, model_call self x (Some target) return_model_output return_preds beam_width
         top_sequences kwargs = Raise e.
Proof.
  intros Hpath.
  destruct (model_call self x (Some target) return_model_output return_preds beam_width
              top_sequences kwargs) as [out|e] eqn:E; [| eauto].
  exfalso. apply SAR_call_inv in E as (features & encoded & dec & _ & _ & H).
  cbv zeta in H. destruct H as (out1 & _ & gt & seq_len & loss & _ & Hd & Hl & _).
  apply SARDecoder_call_path in Hd. rewrite Hpath in Hd.
  destruct Hd as (ids & scores & ->). cbn [decoded_scores_of] in Hl.
  rewrite compute_loss_rank2 in Hl. discriminate.
Qed.

(** X16. The predictions follow the decoding path: when a call returns
    predictions, either the unrolled loop ran, [top_sequences] is absent
    (or 0) and there is one string per sample, or the beam search ran,
    [top_sequences] is a non-zero number and there is a list of strings per
    sample. *)
Theorem SAR_call_preds_follow_path (self : SAR Encoder) (x : Image)
    (target : option (list string)) (return_model_output return_preds : pyval)
    (beam_width top_sequences : option Z) (kwargs : gmap string pyval)
    (out : gmap string outval) (v : outval) :
  model_call self x target return_model_output return_preds beam_width top_sequences kwargs
  = Ok out →
  out !! "preds" = Some v →
  if uses_greedy kwargs beam_width
  then (top_sequences = None ∨ top_sequences = Some 0%Z) ∧
       ∃ strs probs, v = OutPreds (Preds1 strs probs)
  else (∃ n, top_sequences = Some n ∧ n ≠ 0%Z) ∧
       ∃ strs probs, v = OutPreds (Preds2 strs probs).
Proof.
  intros H Hv. apply SAR_call_inv in H as (features & encoded & dec & _ & _ & H).
  cbv zeta in H. destruct H as (out1 & H1 & H2).
  assert (Hd : ∃ gt, SARDecoder_call St lstm_cell zero_state exp tanh ln
                       (decoder Encoder self) features encoded gt beam_width kwargs
                     = Ok dec).
  { destruct target; [destruct H2 as (gt & _ & _ & _ & Hd & _) | destruct H2 as [Hd _]];
      eauto. }
  destruct Hd as [gt Hd]. apply SARDecoder_call_path in Hd.
  assert (Hp : ∃ preds, SARPostProcessor_call exp ln (postprocessor Encoder self) dec
                          top_sequences = Ok preds ∧ v = OutPreds preds).
  { destruct (match target with None => true | Some _ => truthy return_preds end).
    - destruct H1 as (preds & Hp & ->). exists preds. split; [exact Hp |].
      destruct target; [destruct H2 as (? & ? & ? & _ & _ & _ & ->) | destruct H2 as [_ ->]];
        simplify_map_eq; reflexivity.
    - subst out1. exfalso.
      destruct target; [destruct H2 as (? & ? & ? & _ & _ & _ & ->) | destruct H2 as [_ ->]];
        destruct (truthy return_model_output); simplify_map_eq. }
  destruct Hp as (preds & Hp & ->). unfold SARPostProcessor_call in Hp.
  assert (Htop : ∀ b, match top_sequences with Some n => truthy (PyInt n) | None => false end
                      = b →
                 if b then ∃ n, top_sequences = Some n ∧ n ≠ 0%Z
                 else top_sequences = None ∨ top_sequences = Some 0%Z).
  { intros b <-. destruct top_sequences as [n|]; [| auto]. cbn [truthy].
    destruct (Z.eqb_spec n 0) as [-> | Hn]; cbn [negb]; eauto. }
  specialize (Htop _ eq_refl).
  destruct (uses_greedy kwargs beam_width).
  - destruct Hd as (ids & scores & ->).
    destruct (match top_sequences with Some n => truthy (PyInt n) | None => false end);
      [destruct (collect _); discriminate |].
    split; [exact Htop |].
    destruct (negb (same_shape2 ids scores)); [discriminate |].
    destruct (negb (gather_in_range ids scores)); [discriminate |].
    destruct (collect _) as [strs|]; [| discriminate]. cbn [rbind] in Hp.
    injection Hp as <-. eauto.
  - destruct Hd as (ids & scores & ->).
    destruct (match top_sequences with Some n => truthy (PyInt n) | None => false end);
      [| discriminate].
    split; [exact Htop |].
    destruct (collect _) as [strs|]; [| discriminate]. cbn [rbind] in Hp.
    injection Hp as <-. eauto.
Qed.
End ModelFacts.

Lemma SAR_call_result_keys_witness :
  dom tiny_out
  = (if truthy (PyBool true) then {["out_map"]} else ∅) ∪
    (if match @None (list string) with None => true | Some _ => truthy (PyBool false) end
     then {["preds"]} else ∅) ∪
    (match @None (list string) with None => ∅ | Some _ => {["loss"]} end : gset string).
Proof.
  apply (SAR_call_result_keys (list Q) echo_cell [0%Q] exp1 tanh1 ln1 ce1 ce1 unit
           (nat * list (option nat))
           (fun _ _ _ => Ok tiny_features)
           (fun _ _ _ => Ok [[0%Q]])
           (fun _ target =>
              Ok (List.map (fun _ => [0%Z; 1%Z]) target,
                  List.map (fun s => Z.of_nat (String.length s)) target))
           tiny_model tt None (PyBool true) (PyBool false) None None ∅ tiny_out).
  vm_compute. reflexivity.
Defined.

Lemma SAR_call_target_with_beam_search_raises_witness :
  ∃ e, tiny_call (Some ["a"]) (PyBool false) (PyBool true) (Some 2%Z) (Some 1%Z) ∅
       = Raise e.
Proof.
  apply (SAR_call_target_with_beam_search_raises (list Q) echo_cell [0%Q] exp1 tanh1 ln1
           ce1 ce1 unit (nat * list (option nat))
           (fun _ _ _ => Ok tiny_features)
           (fun _ _ _ => Ok [[0%Q]])
           (fun _ target =>
              Ok (List.map (fun _ => [0%Z; 1%Z]) target,
                  List.map (fun s => Z.of_nat (String.length s)) target))
           tiny_model tt ["a"] (PyBool false) (PyBool true) (Some 2%Z) (Some 1%Z) ∅).
  reflexivity.
Defined.

Lemma SAR_call_preds_follow_path_witness :
  (@None Z = None ∨ @None Z = Some 0%Z) ∧
  ∃ strs probs, tiny_preds = OutPreds (Preds1 strs probs).
Proof.
  assert (H1 : tiny_call None (PyBool true) (PyBool false) None None ∅ = Ok tiny_out)
    by (vm_compute; reflexivity).
  assert (H2 : tiny_out !! "preds" = Some tiny_preds) by (vm_compute; reflexivity).
  exact (SAR_call_preds_follow_path (list Q) echo_cell [0%Q] exp1 tanh1 ln1 ce1 ce1 unit
           (nat * list (option nat))
           (fun _ _ _ => Ok tiny_features)
           (fun _ _ _ => Ok [[0%Q]])
           (fun _ target =>
              Ok (List.map (fun _ => [0%Z; 1%Z]) target,
                  List.map (fun s => Z.of_nat (String.length s)) target))
           tiny_model tt None (PyBool true) (PyBool false) None None ∅ tiny_out tiny_preds
           H1 H2).
Defined.

(** ** Vertical max pooling *)

Lemma qmax_ub (a b : Q) : (a <= qmax a b)%Q ∧ (b <= qmax a b)%Q.
Proof.
  unfold qmax. destruct (Qle_bool a b) eqn:E.
  - apply Qle_bool_iff in E. split; [exact E | apply Qle_refl].
  - split; [apply Qle_refl |]. apply Qlt_le_weak, Qnot_le_lt.
    intros H. apply Qle_bool_iff in H. congruence.
Qed.

Lemma qmax_cases (a b : Q) : qmax a b = a ∨ qmax a b = b.
Proof. unfold qmax. destruct (Qle_bool a b); auto. Qed.

Lemma nth_zip_with {A B C} (f : A → B → C) (a : list A) (b : list B) (i : nat)
    (da : A) (db : B) (dc : C) :
  (i < length a)%nat → (i < length b)%nat →
  nth i (zip_with f a b) dc = f (nth i a da) (nth i b db).
Proof.
  revert b i. induction a as [|x a IH]; intros [|y b] [|i] Ha Hb; simpl in *; try lia.
  - reflexivity.
  - apply IH; lia.
Qed.

Lemma zip_qmax_shape (W D : nat) (acc row : tens 2) :
  length acc = W → Forall (fun px => length px = D) acc →
  length row = W → Forall (fun px => length px = D) row →
  length (zip_with (zip_with qmax) acc row) = W ∧
  Forall (fun px => length px = D) (zip_with (zip_with qmax) acc row).
Proof.
  intros Ha Hpa Hr Hpr. split; [rewrite length_zip_with; lia |].
  revert W row Ha Hr Hpr. induction Hpa as [|p acc Hp _ IH]; intros W [|q row] Ha Hr Hpr;
    cbn [zip_with]; try constructor.
  - rewrite length_zip_with, Hp, (List.Forall_inv Hpr). lia.
  - simpl in Ha, Hr. apply (IH (length acc) row eq_refl); [lia |].
    exact (List.Forall_inv_tail Hpr).
Qed.

(** The fold over the rows keeps the shape, dominates the start value and
    every row, and takes each of its values from one of them. *)
Lemma fold_qmax_spec (W D : nat) (rows : tens 3) : ∀ acc : tens 2,
  length acc = W → Forall (fun px => length px = D) acc →
  Forall (fun row => length row = W ∧ Forall (fun px => length px = D) row) rows →
  let r := fold_left (zip_with (zip_with qmax)) rows acc in
  length r = W ∧ Forall (fun px => length px = D) r ∧
  ∀ w d, (w < W)%nat → (d < D)%nat →
    (nth d (nth w acc []) 0 <= nth d (nth w r []) 0)%Q ∧
    (∀ h, (h < length rows)%nat →
          (nth d (nth w (nth h rows []) []) 0 <= nth d (nth w r []) 0)%Q) ∧
    (nth d (nth w r []) 0%Q = nth d (nth w acc []) 0%Q ∨
     ∃ h, (h < length rows)%nat ∧
          nth d (nth w r []) 0%Q = nth d (nth w (nth h rows []) []) 0%Q).
Proof.
  induction rows as [|row rows IH]; intros acc Ha Hpa Hrows; cbn [fold_left].
  - split; [exact Ha |]. split; [exact Hpa |]. intros w d _ _.
    split; [apply Qle_refl |]. split; [intros h Hh; simpl in Hh; lia | left; reflexivity].
  - pose proof (List.Forall_inv Hrows) as [Hr Hpr].
    pose proof (List.Forall_inv_tail Hrows) as Hrows'.
    destruct (zip_qmax_shape W D acc row Ha Hpa Hr Hpr) as [Hz Hpz].
    destruct (IH _ Hz Hpz Hrows') as (H1 & H2 & H3). cbv zeta in *.
    split; [exact H1 |]. split; [exact H2 |]. intros w d Hw Hd.
    destruct (H3 w d Hw Hd) as (Hacc & Hall & Hsrc).
    assert (Hpx : ∀ (l : tens 2), length l = W → Forall (fun px => length px = D) l →
                  length (nth w l []) = D).
    { intros l Hl Hpl. rewrite List.Forall_forall in Hpl. apply Hpl, nth_In. lia. }
    assert (Ez : nth d (nth w (zip_with (zip_with qmax) acc row) []) 0%Q
                 = qmax (nth d (nth w acc []) 0%Q) (nth d (nth w row []) 0%Q)).
    { rewrite (nth_zip_with (zip_with qmax) acc row w [] [] []) by lia.
      apply nth_zip_with; [rewrite (Hpx acc Ha Hpa) | rewrite (Hpx row Hr Hpr)]; exact Hd. }
    rewrite Ez in Hacc, Hsrc.
    destruct (qmax_ub (nth d (nth w acc []) 0%Q) (nth d (nth w row []) 0%Q)) as [U1 U2].
    split; [eapply Qle_trans; eassumption |]. split.
    + intros [|h] Hh; cbn [nth].
      * eapply Qle_trans; eassumption.
      * apply Hall. simpl in Hh. lia.
    + destruct Hsrc as [Hsrc | (h & Hh & Hsrc)].
      * destruct (qmax_cases (nth d (nth w acc []) 0%Q) (nth d (nth w row []) 0%Q)) as [E | E];
          rewrite E in Hsrc.
        -- left. exact Hsrc.
        -- right. exists 0%nat. simpl. split; [lia | exact Hsrc].
      * right. exists (S h). simpl. split; [lia | exact Hsrc].
Qed.

(** X17. Vertical max pooling: over a batch whose samples are H x W x D
    maps with [H > 0], [tf.reduce_max(features, axis=1)] gives for every
    sample a W x D map whose entry at (w, d) is the greatest of the
    entries at (h, w, d): it bounds all of them and is one of them. *)
Theorem reduce_max_axis1_is_column_maximum (features : tens 4) (H W D : nat) :
  (0 < H)%nat →
  Forall (fun sample =>
            length sample = H ∧
            Forall (fun row => length row = W ∧ Forall (fun px => length px = D) row)
                   sample) features →
  Forall2 (fun (sample : tens 3) (pooled : tens 2) =>
             length pooled = W ∧ Forall (fun px => length px = D) pooled ∧
             ∀ w d, (w < W)%nat → (d < D)%nat →
               (∀ h, (h < H)%nat →
                     (nth d (nth w (nth h sample []) []) 0 <= nth d (nth w pooled []) 0)%Q) ∧
               ∃ h, (h < H)%nat ∧
                    nth d (nth w pooled []) 0%Q = nth d (nth w (nth h sample []) []) 0%Q)
          features (reduce_max_axis1 features).
Proof.
  intros HH Hall. unfold reduce_max_axis1.
  eapply Forall2_map_self; [| exact Hall]. cbv beta. intros sample [Hlen Hrows].
  destruct sample as [|row rows]; [simpl in Hlen; lia |]. cbn [reduce_max_rows].
  pose proof (List.Forall_inv Hrows) as [Hr Hpr].
  pose proof (List.Forall_inv_tail Hrows) as Hrows'.
  destruct (fold_qmax_spec W D rows row Hr Hpr Hrows') as (H1 & H2 & H3). cbv zeta in *.
  split; [exact H1 |]. split; [exact H2 |]. intros w d Hw Hd.
  destruct (H3 w d Hw Hd) as (Hacc & Hrest & Hsrc). simpl in Hlen. split.
  - intros [|h] Hh; cbn [nth]; [exact Hacc | apply Hrest; lia].
  - destruct Hsrc as [Hsrc | (h & Hh & Hsrc)].
    + exists 0%nat. split; [lia | exact Hsrc].
    + exists (S h). split; [lia | exact Hsrc].
Qed.

Lemma reduce_max_axis1_is_column_maximum_witness :
  Forall2 (fun (sample : tens 3) (pooled : tens 2) =>
             length pooled = 2%nat ∧ Forall (fun px => length px = 1%nat) pooled ∧
             ∀ w d, (w < 2)%nat → (d < 1)%nat →
               (∀ h, (h < 2)%nat →
                     (nth d (nth w (nth h sample []) []) 0 <= nth d (nth w pooled []) 0)%Q) ∧
               ∃ h, (h < 2)%nat ∧
                    nth d (nth w pooled []) 0%Q = nth d (nth w (nth h sample []) []) 0%Q)
          [[[[1]; [5]]; [[3]; [2]]]]%Q
          (reduce_max_axis1 [[[[1]; [5]]; [[3]; [2]]]]%Q).
Proof.
  apply (reduce_max_axis1_is_column_maximum [[[[1]; [5]]; [[3]; [2]]]]%Q 2 2 1).
  - lia.
  - repeat constructor.
Defined.

Example reduce_max_axis1_run :
  reduce_max_axis1 [[[[1]; [5]]; [[3]; [2]]]]%Q = [[[3]; [5]]]%Q.
Proof. reflexivity. Qed.

(** ** SAR_without_feature_extractor.call at inference *)

Ltac py_run_step :=
  first
    [ py_step
    | match goal with
      | |- context [py_bind (call ?r) _ _] =>
          destruct r as [[? ?]|?] eqn:?
      | |- context [py_bind (call ?r) _ _] =>
          destruct r as [?|?] eqn:?
      | |- context [when (truthy ?v) _] => destruct (truthy v) eqn:?
      end ].

(** X18. Without a target the call is the pipeline pooling, encoder,
    decoder, post-processor: the label-smoothing matrix [conf_matrix] is
    withheld from the encoder and the decoder, [return_preds] plays no
    part, and the mapping returned holds "preds", together with "out_map"
    (the decoded scores) when [return_model_output] is true. *)
Theorem SAR_without_feature_extractor_inference (self : Collaborators)
    (features return_model_output return_preds beam_width top_sequences : pyval)
    (kwargs : gmap string pyval) :
  SAR_without_feature_extractor_call self features PyNone return_model_output
    return_preds beam_width top_sequences kwargs
  = rbind (tf_reduce_max self features 1) (fun pooled_features =>
    rbind (self_encoder self pooled_features (delete "conf_matrix" kwargs)) (fun encoded =>
    rbind (self_decoder self features encoded PyNone beam_width
             (delete "conf_matrix" kwargs)) (fun '(decoded_ids, decoded_scores) =>
    rbind (self_postprocessor self decoded_scores decoded_ids top_sequences) (fun preds =>
    Ok (PyDict (<["preds" := preds]>
                  (if truthy return_model_output
                   then <["out_map" := decoded_scores]> ∅ else ∅))))))).
Proof.
  unfold SAR_without_feature_extractor_call, SAR_without_feature_extractor_body,
    mbind, py_mbind.
  destruct (kwargs !! "conf_matrix") as [m|] eqn:Hcm.
  - repeat first [progress cbn [rbind is_none] | py_run_step | rewrite Hcm];
      try reflexivity;
      try (erewrite load_bound; [reflexivity | solve [map_lookup]]).
  - rewrite (delete_id kwargs "conf_matrix" Hcm).
    repeat first [progress cbn [rbind is_none] | py_run_step | rewrite Hcm];
      try reflexivity;
      try (erewrite load_bound; [reflexivity | solve [map_lookup]]).
Qed.

(** ** SAR_without_lstm_encoder.call: the post-processor is called short
    of an argument *)

(** The call [self.postprocessor(decoded_features, top_sequences=...)]
    leaves the parameter [scores] without a value. *)
Lemma postprocessor_one_positional (decoded_features top_sequences : pyval) :
  bind_arguments SARPostProcessor_signature [decoded_features]
    [("top_sequences", top_sequences)]
  = Failed (TypeError (MissingRequired ["scores"])).
Proof. vm_compute. reflexivity. Qed.

(** The call of [SAR.call], with the three keywords written out, binds. *)
Example postprocessor_three_keywords (scores ids top_sequences : pyval) :
  ∃ bound,
    bind_arguments SARPostProcessor_signature []
      [("scores", scores); ("ids", ids); ("top_sequences", top_sequences)]
    = Returned bound ∧
    bound !! "ids" = Some ids ∧ bound !! "scores" = Some scores ∧
    bound !! "top_sequences" = Some top_sequences.
Proof. eexists. split; [vm_compute; reflexivity |]. repeat split. Qed.

(** X19. [SAR_without_lstm_encoder.call] cannot return predictions: when
    there is no target or [return_preds] is true the call never returns,
    and once the target encoding and the decoder have returned it stops
    with the TypeError of the missing argument [scores] of the
    post-processor. *)
Theorem SAR_without_lstm_encoder_preds_raise (self : Collaborators)
    (features encoded target return_model_output return_preds beam_width
       top_sequences : pyval)
    (kwargs : gmap string pyval) :
  is_none target || truthy return_preds = true →
  let r := SAR_without_lstm_encoder_call self features encoded target
             return_model_output return_preds beam_width top_sequences kwargs in
  (∃ e, r = Failed e) ∧
  (total self →
   keywords_clash ["features"; "holistic"; "gt"; "beam_width"]
     (delete "conf_matrix" kwargs) = Returned tt →
   r = Failed (TypeError (MissingRequired ["scores"]))).
Proof.
  intros Hp r. subst r. unfold SAR_without_lstm_encoder_call, postprocessor_call.
  rewrite Hp.
  assert (Hpost : ∀ (df : pyval) (out : gmap string pyval) (k : gmap string pyval → call_result pyval),
            cbind (cbind (cbind (bind_arguments SARPostProcessor_signature [df]
                                   [("top_sequences", top_sequences)])
                            (fun bound =>
                               lift (self_postprocessor self (kwargs_get bound "scores")
                                       (kwargs_get bound "ids")
                                       (kwargs_get bound "top_sequences"))))
                     (fun preds => Returned (<["preds" := preds]> out))) k
            = Failed (TypeError (MissingRequired ["scores"]))).
  { intros df out k. rewrite postprocessor_one_positional. reflexivity. }
  destruct (keywords_clash _ (delete "conf_matrix" kwargs)) as [[]|ec] eqn:Ec.
  - destruct (is_none target) eqn:Hn.
    + cbn [cbind].
      destruct (self_decoder self features encoded PyNone beam_width _)
        as [[ids scores]|ed] eqn:Ed; cbn [lift cbind].
      * rewrite Hpost. split; [eauto | reflexivity].
      * split; [eauto |]. intros T _. exfalso.
        destruct T as (_ & _ & _ & _ & T & _).
        destruct (T features encoded PyNone beam_width (delete "conf_matrix" kwargs))
          as [v Hv]. congruence.
    + destruct (self_compute_target self target) as [[gt seq_len]|et] eqn:Et;
        cbn [lift cbind].
      * destruct (tf_cast_int32 self seq_len) as [seq_len'|ecast] eqn:Ecast;
          cbn [lift cbind].
        -- destruct (self_decoder self features encoded gt beam_width _)
             as [[ids scores]|ed] eqn:Ed; cbn [lift cbind].
           ++ rewrite Hpost. split; [eauto | reflexivity].
           ++ split; [eauto |]. intros T _. exfalso.
              destruct T as (_ & _ & _ & _ & T & _).
              destruct (T features encoded gt beam_width (delete "conf_matrix" kwargs))
                as [v Hv]. congruence.
        -- split; [eauto |]. intros T _. exfalso.
           destruct T as (_ & T & _). destruct (T seq_len) as [v Hv]. congruence.
      * split; [eauto |]. intros T _. exfalso.
        destruct T as (_ & _ & _ & T & _). destruct (T target) as [v Hv]. congruence.
  - split; [| intros _ [=]].
    destruct (is_none target); cbn [cbind]; [eauto |].
    destruct (self_compute_target self target) as [[gt seq_len]|]; cbn [lift cbind];
      [| eauto].
    destruct (tf_cast_int32 self seq_len); cbn [lift cbind]; [| eauto].
    eauto.
Qed.

Lemma SAR_without_lstm_encoder_preds_raise_witness :
  SAR_without_lstm_encoder_call plain_collaborators (PyTensor 4 [[[[1%Q]]]])
    (PyTensor 2 [[1%Q]]) PyNone (PyBool false) (PyBool false) PyNone PyNone ∅
  = Failed (TypeError (MissingRequired ["scores"])).
Proof.
  apply (SAR_without_lstm_encoder_preds_raise plain_collaborators (PyTensor 4 [[[[1%Q]]]])
           (PyTensor 2 [[1%Q]]) PyNone (PyBool false) (PyBool false) PyNone PyNone ∅).
  - reflexivity.
  - exact plain_collaborators_total.
  - vm_compute. reflexivity.
Defined.

(** ** The factory: _sar and sar_resnet31 *)

Section FactoryFacts.
Variable default_cfgs : gmap string (gmap string pyval).
Variable Model : Type.
Variable backbone_call : pyval → pyval → pyval → pyval → call_result FeatureExtractor.
Variable SAR_new :
  FeatureExtractor → gmap string pyval → gmap string pyval → call_result Model.
Variable load_pretrained_params : Model → pyval → call_result Model.

Local Abbreviation factory :=
  (_sar default_cfgs Model backbone_call SAR_new load_pretrained_params).

(** The run of [_sar] on an entry that has the keys the code reads. *)
Lemma sar_factory_run (arch : string)
    (pretrained pretrained_backbone input_shape : pyval) (kwargs c : gmap string pyval)
    (backbone url shape vocab rnn_units max_length num_decoders : pyval) :
  default_cfgs !! arch = Some c →
  c !! "backbone" = Some backbone → c !! "url" = Some url →
  c !! "input_shape" = Some shape → c !! "vocab" = Some vocab →
  c !! "rnn_units" = Some rnn_units → c !! "max_length" = Some max_length →
  c !! "num_decoders" = Some num_decoders →
  let shape' := if truthy input_shape then input_shape else shape in
  let v := default vocab (kwargs !! "vocab") in
  let r := default rnn_units (kwargs !! "rnn_units") in
  let a := default r (kwargs !! "attention_units") in
  let m := default max_length (kwargs !! "max_length") in
  let n := default num_decoders (kwargs !! "num_decoders") in
  factory arch pretrained pretrained_backbone input_shape kwargs
  = cbind (backbone_call backbone shape'
             (py_and pretrained_backbone (py_not pretrained)) (PyBool false))
      (fun feat_extractor =>
    cbind (SAR_new feat_extractor
             (<["num_decoders" := n]> (<["max_length" := m]>
              (<["attention_units" := a]> (<["rnn_units" := r]>
               (<["vocab" := v]> (<["input_shape" := shape']> c))))))
             (<["num_decoders" := n]> (<["max_length" := m]>
              (<["attention_units" := a]> (<["rnn_units" := r]>
               (<["vocab" := v]> kwargs))))))
      (fun model =>
    if truthy pretrained then load_pretrained_params model url
    else Returned model)).
Proof.
  intros Harch Hb Hu Hs Hv Hr Hm Hn shape' v r a m n.
  unfold _sar, patch, pass_on, getitem. rewrite Harch. cbn [cbind].
  assert (E : (if truthy input_shape then Returned input_shape
               else match c !! "input_shape" with
                    | Some v => Returned v
                    | None => Failed (KeyError "input_shape")
                    end) = Returned shape').
  { unfold shape'. rewrite Hs. destruct (truthy input_shape); reflexivity. }
  rewrite E. cbn [cbind].
  repeat (rewrite ?lookup_insert_eq;
          rewrite ?lookup_insert_ne by discriminate;
          rewrite ?Hv, ?Hr, ?Hm, ?Hn, ?Hb, ?Hu; cbn [cbind]).
  destruct (backbone_call _ _ _ _) as [fe|]; cbn [cbind]; [| reflexivity].
  repeat (rewrite ?lookup_insert_eq;
          rewrite ?lookup_insert_ne by discriminate;
          rewrite ?Hv, ?Hr, ?Hm, ?Hn, ?Hb, ?Hu; cbn [cbind]).
  reflexivity.
Qed.

Local Ltac lookup_chain :=
  repeat (rewrite ?lookup_insert_eq; rewrite ?lookup_insert_ne by discriminate).

(** X20. What [_sar] builds the model from. With an entry for [arch] that
    has the keys the code reads, the backbone is called with the patched
    input shape and with [pretrained_backbone and not pretrained]; the
    constructor receives, as keywords and in the stored configuration
    alike, the vocabulary, [rnn_units], [max_length] and [num_decoders] of
    the caller where given and of the entry otherwise, and
    [attention_units] of the caller or else the [rnn_units] just chosen;
    every other keyword of the caller is passed on unchanged; the weights
    are loaded exactly when [pretrained] is true. *)
Theorem sar_factory_builds_from_patched_config (arch : string)
    (pretrained pretrained_backbone input_shape : pyval) (kwargs c : gmap string pyval)
    (backbone url shape vocab rnn_units max_length num_decoders : pyval) :
  default_cfgs !! arch = Some c →
  c !! "backbone" = Some backbone → c !! "url" = Some url →
  c !! "input_shape" = Some shape → c !! "vocab" = Some vocab →
  c !! "rnn_units" = Some rnn_units → c !! "max_length" = Some max_length →
  c !! "num_decoders" = Some num_decoders →
  let rnn_units' := default rnn_units (kwargs !! "rnn_units") in
  let chosen : list (string * pyval) :=
    [ ("vocab", default vocab (kwargs !! "vocab"));
      ("rnn_units", rnn_units');
      ("attention_units", default rnn_units' (kwargs !! "attention_units"));
      ("max_length", default max_length (kwargs !! "max_length"));
      ("num_decoders", default num_decoders (kwargs !! "num_decoders")) ] in
  let shape' := if truthy input_shape then input_shape else shape in
  ∃ cfg' kwargs',
    factory arch pretrained pretrained_backbone input_shape kwargs
    = cbind (backbone_call backbone shape'
               (py_and pretrained_backbone (py_not pretrained)) (PyBool false))
        (fun feat_extractor =>
      cbind (SAR_new feat_extractor cfg' kwargs') (fun model =>
      if truthy pretrained then load_pretrained_params model url
      else Returned model)) ∧
    Forall (fun '(k, v) => kwargs' !! k = Some v ∧ cfg' !! k = Some v) chosen ∧
    cfg' !! "input_shape" = Some shape' ∧
    (∀ k, k ∉ List.map fst chosen → kwargs' !! k = kwargs !! k) ∧
    (∀ k, k ∉ List.map fst chosen → k ≠ "input_shape" → cfg' !! k = c !! k).
Proof.
  intros Harch Hb Hu Hs Hv Hr Hm Hn rnn_units' chosen shape'.
  eexists _, _. split; [| split; [| split; [| split]]].
  - apply (sar_factory_run arch pretrained pretrained_backbone input_shape kwargs c
             backbone url shape vocab rnn_units max_length num_decoders); assumption.
  - unfold chosen, rnn_units'.
    repeat (apply List.Forall_cons; [split; lookup_chain; reflexivity |]).
    apply List.Forall_nil.
  - lookup_chain. reflexivity.
  - intros k Hk. cbn [List.map fst chosen] in Hk.
    rewrite !lookup_insert_ne; [reflexivity | ..];
      intros <-; apply Hk; set_solver.
  - intros k Hk Hi. cbn [List.map fst chosen] in Hk.
    rewrite !lookup_insert_ne; [reflexivity | ..];
      first [intros <-; apply Hk; set_solver | congruence].
Qed.

(** X21. [sar_resnet31] in terms of its keywords: [pretrained_backbone]
    (true when absent) and [input_shape] are consumed by [_sar] and never
    reach the constructor; the backbone loads its own weights only when
    [pretrained_backbone] is true and [pretrained] is not; the model's
    weights are loaded exactly when [pretrained] is true. *)
Theorem sar_resnet31_keywords (pretrained : pyval) (kwargs c : gmap string pyval)
    (backbone url shape vocab rnn_units max_length num_decoders : pyval) :
  default_cfgs !! "sar_resnet31" = Some c →
  c !! "backbone" = Some backbone → c !! "url" = Some url →
  c !! "input_shape" = Some shape → c !! "vocab" = Some vocab →
  c !! "rnn_units" = Some rnn_units → c !! "max_length" = Some max_length →
  c !! "num_decoders" = Some num_decoders →
  kwargs !! "arch" = None → kwargs !! "pretrained" = None →
  ∃ shape' flag cfg' kwargs',
    sar_resnet31 default_cfgs Model backbone_call SAR_new load_pretrained_params
      pretrained kwargs
    = cbind (backbone_call backbone shape' flag (PyBool false)) (fun feat_extractor =>
      cbind (SAR_new feat_extractor cfg' kwargs') (fun model =>
      if truthy pretrained then load_pretrained_params model url
      else Returned model)) ∧
    truthy flag
    = truthy (default (PyBool true) (kwargs !! "pretrained_backbone"))
      && negb (truthy pretrained) ∧
    shape' = (if truthy (default PyNone (kwargs !! "input_shape"))
              then default PyNone (kwargs !! "input_shape") else shape) ∧
    kwargs' !! "pretrained_backbone" = None ∧ kwargs' !! "input_shape" = None ∧
    cfg' !! "input_shape" = Some shape'.
Proof.
  intros Harch Hb Hu Hs Hv Hr Hm Hn Ha Hp.
  eexists _, _, _, _. split; [| split; [| split; [| split; [| split]]]].
  - unfold sar_resnet31, keywords_clash. cbn [forallb].
    rewrite Ha, Hp. rewrite !bool_decide_eq_true_2 by reflexivity. cbn [andb cbind].
    apply (sar_factory_run "sar_resnet31" pretrained _ _ _ c
             backbone url shape vocab rnn_units max_length num_decoders); assumption.
  - unfold py_and, py_not.
    destruct (truthy (default (PyBool true) (kwargs !! "pretrained_backbone"))) eqn:E;
      [reflexivity | exact E].
  - reflexivity.
  - lookup_chain. apply lookup_delete_eq.
  - lookup_chain. rewrite lookup_delete_ne by discriminate. apply lookup_delete_eq.
  - lookup_chain. reflexivity.
Qed.
End FactoryFacts.

Lemma sar_factory_builds_from_patched_config_witness :
  let kwargs : gmap string pyval := {["rnn_units" := PyInt 256]} in
  let chosen : list (string * pyval) :=
    [ ("vocab", PyStr "ab"); ("rnn_units", PyInt 256); ("attention_units", PyInt 256);
      ("max_length", PyInt 30); ("num_decoders", PyInt 2) ] in
  ∃ cfg' kwargs',
    _sar tiny_cfgs _ tiny_backbone tiny_SAR_new tiny_load "sar_resnet31"
      (PyBool true) (PyBool true) PyNone kwargs
    = cbind (tiny_backbone (PyGlobal "resnet31")
               (PyList [PyInt 32; PyInt 128; PyInt 3])
               (py_and (PyBool true) (py_not (PyBool true))) (PyBool false))
        (fun feat_extractor =>
      cbind (tiny_SAR_new feat_extractor cfg' kwargs') (fun model =>
      if truthy (PyBool true)
      then tiny_load model (PyStr "sar_resnet31-9ee49970.zip")
      else Returned model)) ∧
    Forall (fun '(k, v) => kwargs' !! k = Some v ∧ cfg' !! k = Some v) chosen ∧
    cfg' !! "input_shape" = Some (PyList [PyInt 32; PyInt 128; PyInt 3]) ∧
    (∀ k, k ∉ List.map fst chosen → kwargs' !! k = kwargs !! k) ∧
    (∀ k, k ∉ List.map fst chosen → k ≠ "input_shape" →
          cfg' !! k = (tiny_cfgs !!! "sar_resnet31") !! k).
Proof.
  exact (sar_factory_builds_from_patched_config tiny_cfgs _ tiny_backbone tiny_SAR_new tiny_load
           "sar_resnet31" (PyBool true) (PyBool true) PyNone {["rnn_units" := PyInt 256]}
           (tiny_cfgs !!! "sar_resnet31")
           (PyGlobal "resnet31") (PyStr "sar_resnet31-9ee49970.zip")
           (PyList [PyInt 32; PyInt 128; PyInt 3]) (PyStr "ab") (PyInt 512) (PyInt 30)
           (PyInt 2)
           eq_refl eq_refl eq_refl eq_refl eq_refl eq_refl eq_refl eq_refl).
Defined.

Lemma sar_resnet31_keywords_witness :
  ∃ shape' flag cfg' kwargs',
    sar_resnet31 tiny_cfgs _ tiny_backbone tiny_SAR_new tiny_load (PyBool true)
      {["input_shape" := PyList [PyInt 64; PyInt 256; PyInt 3]]}
    = cbind (tiny_backbone (PyGlobal "resnet31") shape' flag (PyBool false))
        (fun feat_extractor =>
      cbind (tiny_SAR_new feat_extractor cfg' kwargs') (fun model =>
      if truthy (PyBool true)
      then tiny_load model (PyStr "sar_resnet31-9ee49970.zip")
      else Returned model)) ∧
    truthy flag = false ∧
    shape' = PyList [PyInt 64; PyInt 256; PyInt 3] ∧
    kwargs' !! "pretrained_backbone" = None ∧ kwargs' !! "input_shape" = None ∧
    cfg' !! "input_shape" = Some shape'.
Proof.
  exact (sar_resnet31_keywords tiny_cfgs _ tiny_backbone tiny_SAR_new tiny_load
           (PyBool true) {["input_shape" := PyList [PyInt 64; PyInt 256; PyInt 3]]}
           (tiny_cfgs !!! "sar_resnet31")
           (PyGlobal "resnet31") (PyStr "sar_resnet31-9ee49970.zip")
           (PyList [PyInt 32; PyInt 128; PyInt 3]) (PyStr "ab") (PyInt 512) (PyInt 30)
           (PyInt 2)
           eq_refl eq_refl eq_refl eq_refl eq_refl eq_refl eq_refl eq_refl
           eq_refl eq_refl).
Defined.

(** The factory run on the small table: the model is built from the
    patched configuration and then filled with the weights. *)
Example sar_resnet31_run :
  ∃ cfg kwargs,
    sar_resnet31 tiny_cfgs _ tiny_backbone tiny_SAR_new tiny_load (PyBool true)
      {["rnn_units" := PyInt 256]} = Returned (cfg, kwargs, true) ∧
    kwargs !! "attention_units" = Some (PyInt 256) ∧
    cfg !! "attention_units" = Some (PyInt 256).
Proof. eexists _, _. split; [vm_compute; reflexivity |]. split; reflexivity. Qed.
